(** * A shallow embedding of the calculator of [src/main.cpp]

    The program reads a line, lexes it on demand ([Lexer::getNextToken]),
    parses it by recursive descent ([Parser::expr], [term], [factor]) into an
    [ASTNode] tree and prints the tree in infix form, as an indented dump, and
    its value.

    Conventions of the embedding:
    - [double] is IEEE-754 binary64, as the specification type [spec_float]
      of the Standard Library with [prec = 53] and [emax = 1024]; the sign and
      payload of a NaN are not represented, and a NaN is written as the one
      the program computes on x86-64 is, [-nan];
    - [std::string] is [string], [char] is [ascii], [size_t] positions are
      [nat]: every [++pos] of the source is guarded by [pos < input.size()],
      so no position wraps around;
    - a C++ exception is a value of [exception]; a member function that may
      throw returns an [outcome], and a member function that updates its
      object returns the updated object next to its result. *)

From Stdlib Require Import ZArith NArith String Ascii List Bool Arith Lia.
From Stdlib Require Import SpecFloat DecimalString.
Import ListNotations.

Local Open Scope string_scope.

(** ** Exceptions and outcomes *)

(** The three classes derived from [std::exception] that the program can
    raise, each with the argument [what()] returns. *)
Inductive exception : Type :=
| runtime_error (what_arg : string)
| invalid_argument (what_arg : string)
| out_of_range (what_arg : string).

Definition what (e : exception) : string :=
  match e with
  | runtime_error w => w
  | invalid_argument w => w
  | out_of_range w => w
  end.

(** [OutOfFuel] is the outcome of a bounded run of the parser that was cut
    short; [parse_total] shows that the runs started by [main] never are. *)
Inductive outcome (A : Type) : Type :=
| Return (a : A)
| Throw (e : exception)
| OutOfFuel.

Arguments Return {A} a.
Arguments Throw {A} e.
Arguments OutOfFuel {A}.

Definition bind {A B : Type} (m : outcome A) (k : A -> outcome B) : outcome B :=
  match m with
  | Return a => k a
  | Throw e => Throw e
  | OutOfFuel => OutOfFuel
  end.

Notation "x <- m ;; k" := (bind m (fun x => k))
  (at level 61, m at next level, right associativity).
Notation "' pat <- m ;; k" := (bind m (fun x => match x with pat => k end))
  (at level 61, pat pattern, m at next level, right associativity).

(** ** Characters: [std::isspace] and [std::isdigit] in the "C" locale

    The program never sets a locale.  White space is the space and the five
    control characters from tab to carriage return; no character above 127
    is white space or a digit. *)

Definition char_code (c : ascii) : nat := nat_of_ascii c.

Definition isspace (c : ascii) : bool :=
  ((9 <=? char_code c)%nat && (char_code c <=? 13)%nat)
  || (char_code c =? 32)%nat.

Definition isdigit (c : ascii) : bool :=
  (48 <=? char_code c)%nat && (char_code c <=? 57)%nat.

(** ** [double] *)

Definition double : Type := spec_float.

Module Double.

Definition prec : Z := 53.
Definition emax : Z := 1024.

Definition zero : double := S754_zero false.

Definition add (x y : double) : double := SFadd prec emax x y.
Definition mul (x y : double) : double := SFmul prec emax x y.

(** The double nearest to [m / d] (ties to even). *)
Definition of_ratio (m d : positive) : double :=
  SFdiv prec emax (S754_finite false m 0) (S754_finite false d 0).

(** The double of a natural number, rounded to nearest. *)
Definition of_N (n : N) : double :=
  match n with
  | N0 => zero
  | Npos p => binary_normalize prec emax (Zpos p) 0 false
  end.

(** [m * 2^e] as a fraction of two positive integers. *)
Definition to_ratio (m : positive) (e : Z) : positive * positive :=
  match e with
  | Z0 => (m, 1%positive)
  | Zpos k => (Pos.shiftl m (Npos k), 1%positive)
  | Zneg k => (m, Pos.shiftl 1 (Npos k))
  end.

End Double.

(** ** [std::stod] *)

(** The value of a string of decimal digits, most significant first. *)
Fixpoint digits_value (acc : N) (s : string) : N :=
  match s with
  | EmptyString => acc
  | String c s' => digits_value (10 * acc + N.of_nat (char_code c - 48)) s'
  end.

(** The longest prefix of [s] whose characters satisfy [p], and the rest. *)
Fixpoint span (p : ascii -> bool) (s : string) : string * string :=
  match s with
  | EmptyString => (EmptyString, EmptyString)
  | String c s' =>
      if p c then let (a, b) := span p s' in (String c a, b)
      else (EmptyString, s)
  end.

(** [stod_literal s] is the subject sequence [strtod] finds at the start of
    [s]: the digits before the decimal point and the digits after it.  The
    lexer only passes runs of digits and points, so the sign, exponent,
    hexadecimal, infinity and NaN forms are left out. *)
Definition stod_literal (s : string) : string * string :=
  let (ip, rest) := span isdigit s in
  match rest with
  | String "."%char r => (ip, fst (span isdigit r))
  | _ => (ip, EmptyString)
  end.

Definition power_of_ten (k : nat) : positive :=
  Nat.iter k (Pos.mul 10) 1%positive.

(** [stod_underflows m k r]: [m / 10^k] is below the normal range even when
    rounded with an unbounded exponent, and [r], its rounding, is inexact.
    This is when glibc's [strtod] sets [errno] to [ERANGE] for a tiny
    result. *)
Definition stod_underflows (m : positive) (k : nat) (r : double) : bool :=
  let d := power_of_ten k in
  let tiny := (Zpos m * 2 ^ 1076 <? (2 ^ 54 - 1) * Zpos d)%Z in
  let exact :=
    match r with
    | S754_finite _ rm re =>
        let (n, q) := Double.to_ratio rm re in
        (Zpos m * Zpos q =? Zpos n * Zpos d)%Z
    | _ => false
    end in
  tiny && negb exact.

(** [std::stod(str)]: converts the subject sequence at the start of [str]
    to the nearest double and ignores what follows it;
    [std::invalid_argument] when there is no digit to convert,
    [std::out_of_range] when [strtod] reports [ERANGE], which it does when
    the value overflows and when it underflows. *)
Definition stod (str : string) : outcome double :=
  let (ip, fp) := stod_literal str in
  match ip, fp with
  | EmptyString, EmptyString => Throw (invalid_argument "stod")
  | _, _ =>
      let k := String.length fp in
      match digits_value 0 (ip ++ fp) with
      | N0 => Return Double.zero
      | Npos m =>
          let r := Double.of_ratio m (power_of_ten k) in
          match r with
          | S754_infinity _ => Throw (out_of_range "stod")
          | _ => if stod_underflows m k r then Throw (out_of_range "stod")
                 else Return r
          end
      end
  end.

(** ** Tokens *)

Inductive TokenType : Type := NUMBER | PLUS | MUL | LPAREN | RPAREN | END.

Definition TokenType_eqb (a b : TokenType) : bool :=
  match a, b with
  | NUMBER, NUMBER | PLUS, PLUS | MUL, MUL
  | LPAREN, LPAREN | RPAREN, RPAREN | END, END => true
  | _, _ => false
  end.

Record Token : Type := mkToken { type : TokenType; value : double }.

(** [Token(type)], with the default argument [value = 0]. *)
Definition Token_of (t : TokenType) : Token := mkToken t Double.zero.

(** ** The lexer *)

Record Lexer : Type := mkLexer { input : string; pos : nat }.

(** The constructor [Lexer(input)]. *)
Definition Lexer_new (str : string) : Lexer := mkLexer str 0.

Definition set_pos (l : Lexer) (p : nat) : Lexer := mkLexer (input l) p.

(** [while (pos < input.size() && p(input[pos])) ++pos;], run for at most
    [fuel] iterations; [advance_while_stops] shows that the
    [input.size() - pos] iterations given by the callers reach the exit of
    the loop. *)
Fixpoint advance_while (p : ascii -> bool) (s : string) (fuel pos : nat) : nat :=
  match fuel with
  | O => pos
  | S fuel' =>
      match String.get pos s with
      | Some c => if p c then advance_while p s fuel' (S pos) else pos
      | None => pos
      end
  end.

Definition is_number_char (c : ascii) : bool := isdigit c || (c =? ".")%char.

(** The loop of [number]: the position it leaves in [pos]. *)
Definition number_end (l : Lexer) : nat :=
  advance_while is_number_char (input l)
                (String.length (input l) - pos l) (pos l).

(** [Lexer::number] *)
Definition number (l : Lexer) : outcome (Token * Lexer) :=
  let start_pos := pos l in
  let pos' := number_end l in
  v <- stod (substring start_pos (pos' - start_pos) (input l)) ;;
  Return (mkToken NUMBER v, set_pos l pos').

(** The first loop of [getNextToken]: the position it leaves in [pos]. *)
Definition skip_whitespace (l : Lexer) : nat :=
  advance_while isspace (input l) (String.length (input l) - pos l) (pos l).

(** [Lexer::getNextToken] *)
Definition getNextToken (l : Lexer) : outcome (Token * Lexer) :=
  let l := set_pos l (skip_whitespace l) in
  match String.get (pos l) (input l) with
  | None => Return (Token_of END, l)
  | Some current_char =>
      if isdigit current_char then number l
      else if (current_char =? "+")%char then
        Return (Token_of PLUS, set_pos l (S (pos l)))
      else if (current_char =? "*")%char then
        Return (Token_of MUL, set_pos l (S (pos l)))
      else if (current_char =? "(")%char then
        Return (Token_of LPAREN, set_pos l (S (pos l)))
      else if (current_char =? ")")%char then
        Return (Token_of RPAREN, set_pos l (S (pos l)))
      else Throw (runtime_error "Invalid character in input")
  end.

(** ** The syntax tree *)

Inductive ASTNode : Type :=
| NumberNode (value : double)
| BinaryOpNode (op : TokenType) (left right : ASTNode).

(** [ASTNode::evaluate] *)
Fixpoint evaluate (n : ASTNode) : outcome double :=
  match n with
  | NumberNode v => Return v
  | BinaryOpNode op l r =>
      if TokenType_eqb op PLUS then
        a <- evaluate l ;; b <- evaluate r ;; Return (Double.add a b)
      else if TokenType_eqb op MUL then
        a <- evaluate l ;; b <- evaluate r ;; Return (Double.mul a b)
      else Throw (runtime_error "Unknown operator")
  end.

(** ** [std::ostream::operator<<(double)]

    With the stream's default flags a double is written as [printf]'s
    [%g] writes it with precision 6: six significant decimal digits of the
    exact binary value, rounded to nearest with ties to even, in fixed
    notation when the decimal exponent is in [-4, 6) and in scientific
    notation otherwise, trailing zeros removed. *)

Module Format.

Definition dec (n : N) : string := NilZero.string_of_uint (N.to_uint n).

Definition pow10 (k : Z) : Z := 10 ^ Z.max 0 k.

(** The [x] with [10^x <= n / q < 10^(x+1)]. *)
Definition decimal_exponent (n q : positive) : Z :=
  let x0 := (Z.of_nat (String.length (dec (Npos n)))
             - Z.of_nat (String.length (dec (Npos q))))%Z in
  if (Zpos q * pow10 x0 <=? Zpos n * pow10 (- x0))%Z then x0 else (x0 - 1)%Z.

Definition round_half_even (num den : Z) : Z :=
  let (qd, rem) := Z.div_eucl num den in
  match (2 * rem ?= den)%Z with
  | Lt => qd
  | Gt => (qd + 1)%Z
  | Eq => if Z.even qd then qd else (qd + 1)%Z
  end.

(** The six significant digits of [n / q] and its decimal exponent after
    rounding. *)
Definition significand (n q : positive) : Z * Z :=
  let x := decimal_exponent n q in
  let r := round_half_even (Zpos n * pow10 (5 - x)) (Zpos q * pow10 (x - 5)) in
  if (r =? 1000000)%Z then (100000, x + 1)%Z else (r, x).

Fixpoint strip_zeros (s : string) : string :=
  match s with
  | EmptyString => EmptyString
  | String c s' =>
      match strip_zeros s' with
      | EmptyString => if (c =? "0")%char then EmptyString else String c EmptyString
      | r => String c r
      end
  end.

Definition with_fraction (ip frac : string) : string :=
  match strip_zeros frac with
  | EmptyString => ip
  | f => ip ++ "." ++ f
  end.

Fixpoint zeros (n : nat) : string :=
  match n with
  | O => EmptyString
  | S n' => String "0" (zeros n')
  end.

Definition exponent_part (x : Z) : string :=
  let a := dec (Z.to_N (Z.abs x)) in
  (if (x <? 0)%Z then "e-" else "e+")
  ++ (if (Z.abs x <? 10)%Z then "0" ++ a else a).

Definition positive_ratio (n q : positive) : string :=
  let (r, x) := significand n q in
  let d := dec (Z.to_N r) in
  if ((x <? -4) || (6 <=? x))%Z then
    with_fraction (substring 0 1 d) (substring 1 5 d) ++ exponent_part x
  else if (0 <=? x)%Z then
    let i := S (Z.to_nat x) in
    with_fraction (substring 0 i d) (substring i (6 - i) d)
  else
    with_fraction "0" (zeros (Z.to_nat (- x - 1)) ++ d).

(** [double] has one NaN.  The program reads numbers that are not negative
    and only adds and multiplies them, so that the one NaN it computes is
    the product of zero and infinity, and what is computed from it.  On
    x86-64 that NaN has its sign bit set, and the C library writes it as
    [-nan]. *)
Definition to_string (v : double) : string :=
  match v with
  | S754_zero s => if s then "-0" else "0"
  | S754_infinity s => if s then "-inf" else "inf"
  | S754_nan => "-nan"
  | S754_finite s m e =>
      let (n, q) := Double.to_ratio m e in
      (if s then "-" else "") ++ positive_ratio n q
  end.

End Format.

(** ** Printing a tree

    The [print_] member functions write to [std::cout]; here each returns
    the text it writes. *)

Definition newline : string := String (ascii_of_nat 10) EmptyString.

(** [print_indent], the same in both node classes. *)
Fixpoint print_indent (indent : nat) : string :=
  match indent with
  | O => EmptyString
  | S i => "  " ++ print_indent i
  end.

(** [ASTNode::print_infix] *)
Fixpoint print_infix (n : ASTNode) : string :=
  match n with
  | NumberNode v => Format.to_string v
  | BinaryOpNode op l r =>
      "(" ++ print_infix l
      ++ (if TokenType_eqb op PLUS then " + "
          else if TokenType_eqb op MUL then " * " else "")
      ++ print_infix r ++ ")"
  end.

(** [ASTNode::print_tree] *)
Fixpoint print_tree (n : ASTNode) (indent : nat) : string :=
  match n with
  | NumberNode v =>
      print_indent indent ++ "Number(" ++ Format.to_string v ++ ")" ++ newline
  | BinaryOpNode op l r =>
      print_indent indent
      ++ "BinaryOp(" ++ (if TokenType_eqb op PLUS then "+" else "*") ++ ")"
      ++ newline
      ++ print_tree l (S indent) ++ print_tree r (S indent)
  end.

(** ** The parser *)

(** The parser holds a reference to the lexer of its caller, which the
    caller no longer uses once the parser exists: the lexer is kept in the
    parser's state. *)
Record Parser : Type := mkParser { lexer : Lexer; current_token : Token }.

(** The constructor [Parser(lexer)], which reads the first token. *)
Definition Parser_new (l : Lexer) : outcome Parser :=
  '(t, l') <- getNextToken l ;;
  Return (mkParser l' t).

(** [Parser::consume] *)
Definition consume (expected : TokenType) (p : Parser) : outcome Parser :=
  if TokenType_eqb (type (current_token p)) expected then
    '(t, l') <- getNextToken (lexer p) ;;
    Return (mkParser l' t)
  else Throw (runtime_error "Unexpected token").

(** [Parser::expr], [Parser::term] and [Parser::factor], with the two
    [while] loops as [expr_loop] and [term_loop], which carry the local
    variable [node].  Every call and every iteration takes one unit of
    [fuel]. *)
Fixpoint expr (fuel : nat) (p : Parser) : outcome (ASTNode * Parser) :=
  match fuel with
  | O => OutOfFuel
  | S fuel =>
      '(node, p) <- term fuel p ;;
      expr_loop fuel node p
  end

with expr_loop (fuel : nat) (node : ASTNode) (p : Parser)
  : outcome (ASTNode * Parser) :=
  match fuel with
  | O => OutOfFuel
  | S fuel =>
      if TokenType_eqb (type (current_token p)) PLUS then
        let op := type (current_token p) in
        p <- consume PLUS p ;;
        '(rhs, p) <- term fuel p ;;
        expr_loop fuel (BinaryOpNode op node rhs) p
      else Return (node, p)
  end

with term (fuel : nat) (p : Parser) : outcome (ASTNode * Parser) :=
  match fuel with
  | O => OutOfFuel
  | S fuel =>
      '(node, p) <- factor fuel p ;;
      term_loop fuel node p
  end

with term_loop (fuel : nat) (node : ASTNode) (p : Parser)
  : outcome (ASTNode * Parser) :=
  match fuel with
  | O => OutOfFuel
  | S fuel =>
      if TokenType_eqb (type (current_token p)) MUL then
        let op := type (current_token p) in
        p <- consume MUL p ;;
        '(rhs, p) <- factor fuel p ;;
        term_loop fuel (BinaryOpNode op node rhs) p
      else Return (node, p)
  end

with factor (fuel : nat) (p : Parser) : outcome (ASTNode * Parser) :=
  match fuel with
  | O => OutOfFuel
  | S fuel =>
      if TokenType_eqb (type (current_token p)) NUMBER then
        let v := value (current_token p) in
        p <- consume NUMBER p ;;
        Return (NumberNode v, p)
      else if TokenType_eqb (type (current_token p)) LPAREN then
        p <- consume LPAREN p ;;
        '(node, p) <- expr fuel p ;;
        p <- consume RPAREN p ;;
        Return (node, p)
      else Throw (runtime_error "Expected number or parentheses")
  end.

(** [Parser::parse] *)
Definition parse (fuel : nat) (p : Parser) : outcome (ASTNode * Parser) :=
  expr fuel p.

(** What is left to read: the characters after the cursor, and the current
    token unless it is [END]. *)
Definition remaining (p : Parser) : nat :=
  (String.length (input (lexer p)) - pos (lexer p))
  + (if TokenType_eqb (type (current_token p)) END then 0 else 1).

(** Fuel that lets [parse] run to its end from [p] ([expr_fuel_enough]). *)
Definition fuel_for (p : Parser) : nat := 3 * remaining p + 3.

(** The first three statements of the [try] block of [main]:
    [Lexer lexer(input); Parser parser(lexer); ast = parser.parse()], with
    the parser as [parse] leaves it. *)
Definition run_parser (line : string) : outcome (ASTNode * Parser) :=
  p <- Parser_new (Lexer_new line) ;;
  parse (fuel_for p) p.

Definition parse_line (line : string) : outcome ASTNode :=
  '(ast, _) <- run_parser line ;;
  Return ast.

(** ** [main] *)

(** The standard streams: the lines still to be read from [std::cin], and
    what was written to [std::cout] and [std::cerr]. *)
Record World : Type := mkWorld {
  cin : list string;
  cout : string;
  cerr : string
}.

(** [std::string input; std::getline(std::cin, input);]: at the end of the
    stream the call fails and [input] stays empty.  The source ignores the
    state of the stream. *)
Definition getline (w : World) : string * World :=
  match cin w with
  | [] => (EmptyString, w)
  | line :: rest => (line, mkWorld rest (cout w) (cerr w))
  end.

Definition write_cout (s : string) (w : World) : World :=
  mkWorld (cin w) (cout w ++ s) (cerr w).

Definition write_cerr (s : string) (w : World) : World :=
  mkWorld (cin w) (cout w) (cerr w ++ s).

(** The [catch] clause. *)
Definition report (e : exception) (w : World) : World :=
  write_cerr ("Error: " ++ what e ++ newline) w.

(** One iteration of the loop of [main]; [None] stands for a run of the
    parser that was cut short, which [iteration_total] excludes. *)
Definition iteration (w : World) : option World :=
  let w := write_cout ">>> " w in
  let (line, w) := getline w in
  match parse_line line with
  | OutOfFuel => None
  | Throw e => Some (report e w)
  | Return ast =>
      let w := write_cout "Infix notation: " w in
      let w := write_cout (print_infix ast) w in
      let w := write_cout newline w in
      let w := write_cout ("Tree structure:" ++ newline) w in
      let w := write_cout (print_tree ast 0) w in
      match evaluate ast with
      | OutOfFuel => None
      | Throw e => Some (report e w)
      | Return result =>
          Some (write_cout ("Result: " ++ Format.to_string result ++ newline) w)
      end
  end.

(** What stops a bounded run of [main]. *)
Inductive Exit : Type :=
| Exited (status : Z) (w : World)
| StillRunning (w : World)
| Stuck.

(** [main]: [is_running] is initialised to [true] and no statement assigns
    to it; the loop is run for at most [iterations] iterations. *)
Fixpoint main_loop (iterations : nat) (is_running : bool) (w : World) : Exit :=
  if is_running then
    match iterations with
    | O => StillRunning w
    | S n =>
        match iteration w with
        | Some w' => main_loop n is_running w'
        | None => Stuck
        end
    end
  else Exited 0 w.

Definition main (iterations : nat) (stdin : list string) : Exit :=
  let is_running := true in
  main_loop iterations is_running (mkWorld stdin EmptyString EmptyString).

(** ** Predicates the properties are stated with *)

(** A run of the parser that was not cut short and, when it returns, leaves
    at most [bound] to read. *)
Definition terminates (bound : nat) (r : outcome (ASTNode * Parser)) : Prop :=
  match r with
  | Return (_, p') => remaining p' <= bound
  | Throw _ => True
  | OutOfFuel => False
  end.

(** Every operator of the tree is [PLUS] or [MUL]. *)
Fixpoint only_plus_mul (n : ASTNode) : bool :=
  match n with
  | NumberNode _ => true
  | BinaryOpNode op l r =>
      (TokenType_eqb op PLUS || TokenType_eqb op MUL)
      && only_plus_mul l && only_plus_mul r
  end.

(** [n] calls of [getNextToken] in a row: the tokens they return and the
    lexer after the last one. *)
Fixpoint next_tokens (n : nat) (l : Lexer) : outcome (list Token * Lexer) :=
  match n with
  | O => Return ([], l)
  | S n' =>
      '(t, l) <- getNextToken l ;;
      '(ts, l) <- next_tokens n' l ;;
      Return (t :: ts, l)
  end.

(** [n] copies of [s], one after the other. *)
Fixpoint copies (n : nat) (s : string) : string :=
  match n with
  | O => EmptyString
  | S n' => s ++ copies n' s
  end.

(** The line [main] writes to [std::cerr] for an empty line. *)
Definition empty_line_error : string :=
  "Error: Expected number or parentheses" ++ newline.

(** The characters [getNextToken] makes a token from. *)
Definition supported (c : ascii) : bool :=
  isdigit c || (c =? "+")%char || (c =? "*")%char
  || (c =? "(")%char || (c =? ")")%char.

(** Every character of [s] satisfies [p]. *)
Fixpoint all_chars (p : ascii -> bool) (s : string) : bool :=
  match s with
  | EmptyString => true
  | String c s' => p c && all_chars p s'
  end.

Fixpoint count_points (s : string) : nat :=
  match s with
  | EmptyString => 0
  | String c s' => (if (c =? ".")%char then 1 else 0) + count_points s'
  end.

(** The numeric literals of the specification: a run of digits and decimal
    points that starts with a digit and has at most one point. *)
Definition well_formed_literal (s : string) : bool :=
  match s with
  | EmptyString => false
  | String c _ => isdigit c && all_chars is_number_char s
                  && (count_points s <=? 1)%nat
  end.

(** The payloads the specification gives its errors: a function from the
    exceptions of the program that returns, for every failing [consume], the
    expected and the found tag, ... *)
Definition records_expected_and_found
           (payload : exception -> TokenType * TokenType) : Prop :=
  forall (expected : TokenType) (p : Parser) (e : exception),
    type (current_token p) <> expected ->
    consume expected p = Throw e ->
    payload e = (expected, type (current_token p)).

(** ... and one that returns, for every unsupported character the lexer
    stops at, that character and its position. *)
Definition records_character_and_position
           (payload : exception -> ascii * nat) : Prop :=
  forall (l : Lexer) (c : ascii) (e : exception),
    String.get (skip_whitespace l) (input l) = Some c ->
    supported c = false ->
    getNextToken l = Throw e ->
    payload e = (c, skip_whitespace l).

(** What follows a maximal run of characters that satisfy [p]: nothing, or
    a character that fails [p]. *)
Definition ends_run (p : ascii -> bool) (post : string) : Prop :=
  match post with
  | EmptyString => True
  | String c _ => p c = false
  end.

(** The reading of the specification under which a malformed literal is a
    lex error: whenever [getNextToken] is at a digit and the run of digits
    and points that [number] scans is not a well-formed literal, the call
    fails. *)
Definition malformed_literals_are_errors : Prop :=
  forall (l : Lexer) (c : ascii),
    String.get (skip_whitespace l) (input l) = Some c ->
    isdigit c = true ->
    let l' := set_pos l (skip_whitespace l) in
    well_formed_literal
      (substring (pos l') (number_end l' - pos l') (input l')) = false ->
    exists e, getNextToken l = Throw e.

(** [separated line trailer]: a number at the end of [line] does not run on
    into [trailer]: [trailer] does not start with a digit or a point, or
    [line] does not end with one. *)
Definition separated (line trailer : string) : Prop :=
  ends_run is_number_char trailer \/
  (forall c, String.get (String.length line - 1) line = Some c ->
             is_number_char c = false).

(** [trails line trailer first after p1 p2]: [p2] reads [line ++ trailer] and
    is where [p1], which reads [line], is; where [p1] has reached the end of
    [line], [p2] has the first token of [trailer] as its current token and
    its cursor where the lexer is [after] that token. *)
Definition trails (line trailer : string) (first : Token) (after : Lexer)
           (p1 p2 : Parser) : Prop :=
  input (lexer p1) = line /\
  input (lexer p2) = line ++ trailer /\
  pos (lexer p1) <= String.length line /\
  if TokenType_eqb (type (current_token p1)) END then
    current_token p2 = first /\
    pos (lexer p2) = String.length line + pos after
  else
    current_token p2 = current_token p1 /\
    pos (lexer p2) = pos (lexer p1).

(** The reading of the specification under which whatever token follows a
    valid expression is ignored: a line that parses to a tree still parses
    to that tree when text that starts with a token is put after it. *)
Definition trailing_tokens_are_ignored : Prop :=
  forall (line trailer : string) (ast : ASTNode) (t : Token) (l' : Lexer),
    parse_line line = Return ast ->
    getNextToken (Lexer_new trailer) = Return (t, l') ->
    type t <> END ->
    parse_line (line ++ trailer) = Return ast.

(** The number of nodes of a tree. *)
Fixpoint nodes (n : ASTNode) : nat :=
  match n with
  | NumberNode _ => 1
  | BinaryOpNode _ l r => S (nodes l + nodes r)
  end.

(** The exceptions that parsing a line can end with. *)
Definition thrown_by_parser (e : exception) : Prop :=
  e = runtime_error "Invalid character in input"
  \/ e = runtime_error "Unexpected token"
  \/ e = runtime_error "Expected number or parentheses"
  \/ e = out_of_range "stod".

(** Two outcomes of [getNextToken] that cannot be told apart by the token
    they return or the exception they throw, and leave lexers related by
    [R]. *)
Definition agree_token (R : Lexer -> Lexer -> Prop)
           (r1 r2 : outcome (Token * Lexer)) : Prop :=
  match r1, r2 with
  | Return (t1, l1), Return (t2, l2) => t1 = t2 /\ R l1 l2
  | Throw x, Throw y => x = y
  | OutOfFuel, OutOfFuel => True
  | _, _ => False
  end.

(** [R] relates lexers that return the same tokens for ever. *)
Definition lexer_bisimulation (R : Lexer -> Lexer -> Prop) : Prop :=
  forall l1 l2 : Lexer, R l1 l2 -> agree_token R (getNextToken l1) (getNextToken l2).

Definition related (R : Lexer -> Lexer -> Prop) (p1 p2 : Parser) : Prop :=
  current_token p1 = current_token p2 /\ R (lexer p1) (lexer p2).

Definition agree_parser (R : Lexer -> Lexer -> Prop)
           (r1 r2 : outcome Parser) : Prop :=
  match r1, r2 with
  | Return q1, Return q2 => related R q1 q2
  | Throw x, Throw y => x = y
  | OutOfFuel, OutOfFuel => True
  | _, _ => False
  end.

Definition agree_tree (R : Lexer -> Lexer -> Prop)
           (r1 r2 : outcome (ASTNode * Parser)) : Prop :=
  match r1, r2 with
  | Return (a1, q1), Return (a2, q2) => a1 = a2 /\ related R q1 q2
  | Throw x, Throw y => x = y
  | OutOfFuel, OutOfFuel => True
  | _, _ => False
  end.

(** The tokens of a lexer, as successive calls of [getNextToken] return
    them, up to and with [END], or up to the exception that ends them;
    [None] when [fuel] calls were not enough. *)
Fixpoint token_stream (fuel : nat) (l : Lexer)
  : option (list Token * option exception) :=
  match fuel with
  | O => None
  | S f =>
      match getNextToken l with
      | Return (t, l') =>
          if TokenType_eqb (type t) END then Some ([t], None)
          else match token_stream f l' with
               | Some (ts, e) => Some (t :: ts, e)
               | None => None
               end
      | Throw e => Some ([], Some e)
      | OutOfFuel => None
      end
  end.

(** The tokens of a line; a token other than [END] takes a character, so
    one call more than the line has characters is enough
    ([tokens_of_line_total]). *)
Definition tokens_of_line (line : string) : option (list Token * option exception) :=
  token_stream (S (String.length line)) (Lexer_new line).

(** Lexers with the same tokens to come. *)
Definition same_stream (l1 l2 : Lexer) : Prop :=
  exists n1 n2 r, token_stream n1 l1 = Some r /\ token_stream n2 l2 = Some r.

(** [shifted pre s l1 l2]: [l1] reads [s] behind the prefix [pre] and is
    where [l2], which reads [s] alone, is. *)
Definition shifted (pre s : string) (l1 l2 : Lexer) : Prop :=
  exists q : nat,
    l1 = mkLexer (pre ++ s) (String.length pre + q) /\ l2 = mkLexer s q.

(** [padded s ws l1 l2]: [l1] reads [s] followed by [ws] and [l2] reads [s]
    alone; they are at the same place in [s], or both past it. *)
Definition padded (s ws : string) (l1 l2 : Lexer) : Prop :=
  input l1 = s ++ ws /\ input l2 = s /\
  ((pos l1 = pos l2 /\ pos l2 <= String.length s)
   \/ (String.length s <= pos l1 /\ String.length s <= pos l2)).

(** The tree with the operands of every node swapped. *)
Fixpoint mirror (n : ASTNode) : ASTNode :=
  match n with
  | NumberNode v => NumberNode v
  | BinaryOpNode op l r => BinaryOpNode op (mirror r) (mirror l)
  end.

(** The number of binary nodes of a tree. *)
Fixpoint binary_nodes (n : ASTNode) : nat :=
  match n with
  | NumberNode _ => 0
  | BinaryOpNode _ l r => S (binary_nodes l + binary_nodes r)
  end.

(** How many times [c] occurs in [s]. *)
Fixpoint count_char (c : ascii) (s : string) : nat :=
  match s with
  | EmptyString => 0
  | String x s' => (if (x =? c)%char then 1 else 0) + count_char c s'
  end.

(** The characters [operator<<] writes a double with. *)
Definition number_text_char (c : ascii) : bool :=
  isdigit c || (c =? ".")%char || (c =? "e")%char || (c =? "+")%char
  || (c =? "-")%char || (c =? "i")%char || (c =? "n")%char
  || (c =? "f")%char || (c =? "a")%char.

(** The sum of the levels of the nodes of a tree whose root is at level
    [indent]. *)
Fixpoint level_sum (n : ASTNode) (indent : nat) : nat :=
  match n with
  | NumberNode _ => indent
  | BinaryOpNode _ l r => indent + level_sum l (S indent) + level_sum r (S indent)
  end.

(** A double that is zero or positive, and finite. *)
Definition finite_nonneg (v : double) : bool :=
  match v with
  | S754_zero false | S754_finite false _ _ => true
  | _ => false
  end.

(** A double that is not below zero: zero, positive, infinite or not a
    number. *)
Definition not_negative (v : double) : bool :=
  match v with
  | S754_zero false | S754_finite false _ _ | S754_infinity false | S754_nan => true
  | _ => false
  end.

(** Every number of the tree is finite and not negative. *)
Fixpoint leaves_finite_nonneg (n : ASTNode) : bool :=
  match n with
  | NumberNode v => finite_nonneg v
  | BinaryOpNode _ l r => leaves_finite_nonneg l && leaves_finite_nonneg r
  end.

(** What [main] writes to [std::cout] and to [std::cerr] for one line, as an
    iteration on that line alone writes it. *)
Definition answer (line : string) : string * string :=
  match iteration (mkWorld [line] EmptyString EmptyString) with
  | Some w => (cout w, cerr w)
  | None => (EmptyString, EmptyString)
  end.

(** The answers to the lines of a session, one after the other. *)
Fixpoint session (lines : list string) : string * string :=
  match lines with
  | [] => (EmptyString, EmptyString)
  | line :: rest =>
      (fst (answer line) ++ fst (session rest),
       snd (answer line) ++ snd (session rest))
  end.

(** A double that [operator<<] writes as digits with at most a point among
    them, and that [std::stod] reads back from that text. *)
Definition reads_back (v : double) : Prop :=
  exists (c : ascii) (rest : string),
    Format.to_string v = String c rest /\
    isdigit c = true /\
    all_chars is_number_char rest = true /\
    stod (String c rest) = Return v.

(** A tree of [PLUS] and [MUL] nodes whose numbers all read back. *)
Fixpoint prints_plainly (n : ASTNode) : Prop :=
  match n with
  | NumberNode v => reads_back v
  | BinaryOpNode op l r =>
      (op = PLUS \/ op = MUL) /\ prints_plainly l /\ prints_plainly r
  end.

Fixpoint height (n : ASTNode) : nat :=
  match n with
  | NumberNode _ => 0
  | BinaryOpNode _ l r => S (Nat.max (height l) (height r))
  end.

(** The parser state after reading the token of [s] at position [q]: what
    the constructor and a successful [consume] leave. *)
Definition read_token (s : string) (q : nat) : outcome Parser :=
  '(t, l) <- getNextToken (mkLexer s q) ;;
  Return (mkParser l t).

(** * Properties *)

(** ** The library functions on some inputs *)

Example stod_examples :
  stod "14" = Return (Double.of_N 14) /\
  stod "1." = Return (Double.of_N 1) /\
  stod "0.5" = Return (S754_finite false 4503599627370496 (-53)) /\
  stod "0.1" = Return (S754_finite false 7205759403792794 (-56)) /\
  stod "0.000" = Return Double.zero /\
  stod "." = Throw (invalid_argument "stod") /\
  stod ("1" ++ Format.zeros 400) = Throw (out_of_range "stod") /\
  stod ("0." ++ Format.zeros 400 ++ "1") = Throw (out_of_range "stod").
Proof. repeat split; vm_compute; reflexivity. Qed.

Example to_string_examples :
  let show s := match stod s with Return v => Format.to_string v | _ => "" end in
  map show ["14"; "0.1"; "2.50"; "123456"; "1234567"; "999999.5"; "0.0001";
            "0.00001"; "3.14159265"; "100000000000000000000000"]
  = ["14"; "0.1"; "2.5"; "123456"; "1.23457e+06"; "1e+06"; "0.0001";
     "1e-05"; "3.14159"; "1e+23"].
Proof. vm_compute. reflexivity. Qed.

Example print_tree_example :
  parse_line "1 + 2"
  = Return (BinaryOpNode PLUS (NumberNode (Double.of_N 1))
                         (NumberNode (Double.of_N 2))) /\
  print_tree (BinaryOpNode PLUS (NumberNode (Double.of_N 1))
                           (NumberNode (Double.of_N 2))) 0
  = "BinaryOp(+)" ++ newline
    ++ "  Number(1)" ++ newline
    ++ "  Number(2)" ++ newline.
Proof. split; vm_compute; reflexivity. Qed.

Example main_example :
  main 2 ["(2 + 3) * 4"; "3 - 2"]
  = StillRunning
      (mkWorld []
         (">>> Infix notation: ((2 + 3) * 4)" ++ newline
          ++ "Tree structure:" ++ newline
          ++ "BinaryOp(" ++ "*" ++ ")" ++ newline
          ++ "  BinaryOp(+)" ++ newline
          ++ "    Number(2)" ++ newline
          ++ "    Number(3)" ++ newline
          ++ "  Number(4)" ++ newline
          ++ "Result: 20" ++ newline
          ++ ">>> ")
         ("Error: Invalid character in input" ++ newline)).
Proof. vm_compute. reflexivity. Qed.

(** ** Strings *)

Lemma get_None_iff (s : string) (n : nat) :
  String.get n s = None <-> String.length s <= n.
Proof.
  revert n; induction s as [|c s IH]; intros [|n]; simpl;
    try (split; [intros; lia | reflexivity]).
  - split; [discriminate | lia].
  - rewrite IH; lia.
Qed.

Lemma get_Some_lt (s : string) (n : nat) (c : ascii) :
  String.get n s = Some c -> n < String.length s.
Proof.
  intros H. destruct (le_lt_dec (String.length s) n) as [Hle|Hlt]; [|exact Hlt].
  apply get_None_iff in Hle. congruence.
Qed.

Lemma length_app (a b : string) :
  String.length (a ++ b) = String.length a + String.length b.
Proof. induction a as [|x a IH]; simpl; [reflexivity | now rewrite IH]. Qed.

Lemma get_app_length (pre : string) (c : ascii) (rest : string) :
  String.get (String.length pre) (pre ++ String c rest) = Some c.
Proof. induction pre as [|x pre IH]; simpl; [reflexivity | exact IH]. Qed.

Lemma get_app_lt (a b : string) (i : nat) :
  i < String.length a -> String.get i (a ++ b) = String.get i a.
Proof.
  revert i; induction a as [|x a IH]; intros i; simpl; [lia|].
  destruct i as [|i]; [reflexivity|]. intros H. apply IH. lia.
Qed.

Lemma app_String_shift (pre : string) (x : ascii) (rest : string) :
  pre ++ String x rest = (pre ++ String x "") ++ rest.
Proof. induction pre as [|y pre IH]; simpl; [reflexivity | now rewrite IH]. Qed.

Lemma substring_app_prefix (a b : string) (n m : nat) :
  n + m <= String.length a -> substring n m (a ++ b) = substring n m a.
Proof.
  revert n m; induction a as [|x a IH]; intros n m; simpl.
  - intros H. assert (n = 0) by lia. assert (m = 0) by lia. subst.
    now destruct b.
  - destruct n as [|n]; [destruct m as [|m]|]; intros H; [reflexivity| |].
    + f_equal. apply IH. simpl. lia.
    + apply IH. lia.
Qed.

Lemma substring_app_middle (pre run post : string) :
  substring (String.length pre) (String.length run) (pre ++ run ++ post) = run.
Proof.
  induction pre as [|x pre IH]; simpl; [|exact IH].
  induction run as [|y run IHr]; simpl; [now destruct post | now rewrite IHr].
Qed.

(** ** The loops of the lexer *)

Section AdvanceWhile.

Variable p : ascii -> bool.
Variable s : string.

Lemma advance_while_ge (fuel pos : nat) :
  pos <= advance_while p s fuel pos.
Proof.
  revert pos; induction fuel as [|fuel IH]; intros pos; simpl; [lia|].
  destruct (String.get pos s) as [c|]; [|lia].
  destruct (p c); [|lia].
  specialize (IH (S pos)); lia.
Qed.

Lemma advance_while_le (fuel pos : nat) :
  advance_while p s fuel pos <= Nat.max pos (String.length s).
Proof.
  revert pos; induction fuel as [|fuel IH]; intros pos; simpl; [lia|].
  destruct (String.get pos s) as [c|] eqn:Hget; [|lia].
  destruct (p c); [|lia].
  apply get_Some_lt in Hget. specialize (IH (S pos)); lia.
Qed.

(** With [input.size() - pos] iterations the loop is left through its
    condition: at the end of the input or at a character that fails [p]. *)
Lemma advance_while_stops (fuel pos : nat) :
  String.length s - pos <= fuel ->
  match String.get (advance_while p s fuel pos) s with
  | Some c => p c = false
  | None => True
  end.
Proof.
  revert pos; induction fuel as [|fuel IH]; intros pos Hfuel; simpl.
  - assert (H : String.get pos s = None) by (apply get_None_iff; lia).
    now rewrite H.
  - destruct (String.get pos s) as [c|] eqn:Hget.
    + destruct (p c) eqn:Hp.
      * apply IH; lia.
      * now rewrite Hget.
    + now rewrite Hget.
Qed.

(** Every character the loop steps over satisfies [p]. *)
Lemma advance_while_between (fuel pos i : nat) :
  pos <= i < advance_while p s fuel pos ->
  exists c, String.get i s = Some c /\ p c = true.
Proof.
  revert pos; induction fuel as [|fuel IH]; intros pos; simpl; [lia|].
  destruct (String.get pos s) as [c|] eqn:Hget; [|lia].
  destruct (p c) eqn:Hp; [|lia].
  intros Hi. destruct (Nat.eq_dec i pos) as [->|Hne].
  - now exists c.
  - apply (IH (S pos)); lia.
Qed.

(** The loop moves when it starts on a character that satisfies [p]. *)
Lemma advance_while_step (pos : nat) (c : ascii) :
  String.get pos s = Some c -> p c = true ->
  pos < advance_while p s (String.length s - pos) pos.
Proof.
  intros Hget Hp. pose proof (get_Some_lt _ _ _ Hget) as Hlt.
  destruct (String.length s - pos) as [|fuel] eqn:Hfuel; [lia|].
  simpl. rewrite Hget, Hp.
  pose proof (advance_while_ge fuel (S pos)); lia.
Qed.

End AdvanceWhile.

Section Runs.

Variable p : ascii -> bool.

Lemma advance_while_halts (s : string) (fuel pos : nat) (c : ascii) :
  String.get pos s = Some c -> p c = false -> advance_while p s fuel pos = pos.
Proof. intros Hget Hp. destruct fuel; simpl; [reflexivity|]. now rewrite Hget, Hp. Qed.

(** The loop started at the beginning of a maximal run ends after it. *)
Lemma advance_while_run (run post : string) :
  all_chars p run = true -> ends_run p post ->
  forall pre : string,
    advance_while p (pre ++ run ++ post)
                  (String.length run + String.length post) (String.length pre)
    = String.length pre + String.length run.
Proof.
  intros Hrun Hpost. induction run as [|x run IH]; intros pre; simpl.
  - rewrite Nat.add_0_r. destruct post as [|c post]; simpl; [reflexivity|].
    simpl in Hpost. now rewrite get_app_length, Hpost.
  - simpl in Hrun. apply andb_prop in Hrun as [Hx Hrun].
    rewrite get_app_length, Hx, app_String_shift.
    replace (S (String.length pre)) with (String.length (pre ++ String x ""))
      by (rewrite length_app; simpl; lia).
    rewrite (IH Hrun), length_app. simpl. lia.
Qed.

(** The loop does the same on an input and on that input followed by a
    character that fails [p] and anything else. *)
Lemma advance_while_app (s rest : string) (c : ascii) :
  p c = false ->
  forall fuel fuel' pos : nat,
    pos <= String.length s ->
    String.length s - pos <= fuel ->
    String.length (s ++ String c rest) - pos <= fuel' ->
    advance_while p (s ++ String c rest) fuel' pos = advance_while p s fuel pos.
Proof.
  intros Hc. induction fuel as [|fuel IH]; intros fuel' pos Hpos Hfuel Hfuel'.
  - assert (pos = String.length s) by lia. subst pos. simpl.
    now apply advance_while_halts with (c := c); [apply get_app_length|].
  - rewrite length_app in Hfuel'. simpl in Hfuel'.
    destruct fuel' as [|fuel']; [lia|]. simpl.
    destruct (Nat.eq_dec pos (String.length s)) as [->|Hne].
    + rewrite get_app_length, Hc.
      assert (H : String.get (String.length s) s = None)
        by (now apply get_None_iff).
      now rewrite H.
    + rewrite get_app_lt by lia.
      destruct (String.get pos s) as [x|]; [|reflexivity].
      destruct (p x); [|reflexivity].
      apply IH; [lia | lia | rewrite length_app; simpl; lia].
Qed.

Lemma span_run (run post : string) :
  all_chars p run = true -> ends_run p post -> span p (run ++ post) = (run, post).
Proof.
  intros Hrun Hpost. induction run as [|x run IH]; simpl.
  - destruct post as [|c post]; simpl; [reflexivity|].
    simpl in Hpost. now rewrite Hpost.
  - simpl in Hrun. apply andb_prop in Hrun as [Hx Hrun].
    now rewrite Hx, (IH Hrun).
Qed.

End Runs.

(** ** One token *)

Lemma TokenType_eqb_eq (a b : TokenType) : TokenType_eqb a b = true <-> a = b.
Proof. destruct a, b; simpl; split; congruence. Qed.

Lemma TokenType_eqb_refl (a : TokenType) : TokenType_eqb a a = true.
Proof. now destruct a. Qed.

Lemma set_pos_same (l : Lexer) : set_pos l (pos l) = l.
Proof. now destruct l. Qed.

Lemma skip_whitespace_ge (l : Lexer) : pos l <= skip_whitespace l.
Proof. apply advance_while_ge. Qed.

(** A token other than [END] is made of at least one character of the
    input; the lexer never moves backwards and never changes its input. *)
Lemma getNextToken_advances (l l' : Lexer) (t : Token) :
  getNextToken l = Return (t, l') ->
  input l' = input l /\
  (String.length (input l) - pos l')
  + (if TokenType_eqb (type t) END then 0 else 1)
  <= String.length (input l) - pos l.
Proof.
  unfold getNextToken.
  pose proof (skip_whitespace_ge l) as Hq.
  set (q := skip_whitespace l) in *. simpl.
  destruct (String.get q (input l)) as [c|] eqn:Hget.
  - pose proof (get_Some_lt _ _ _ Hget) as Hlt.
    destruct (isdigit c) eqn:Hd.
    + unfold number, number_end. simpl.
      assert (Hstep : q < advance_while is_number_char (input l)
                            (String.length (input l) - q) q).
      { apply advance_while_step with (c := c); [exact Hget|].
        unfold is_number_char. now rewrite Hd. }
      destruct (stod _); simpl; try discriminate.
      intros [= <- <-]. simpl. split; [reflexivity | lia].
    + repeat match goal with
             | |- context [if ?b then _ else _] => destruct b
             end;
        try discriminate; intros [= <- <-]; simpl; (split; [reflexivity | lia]).
  - intros [= <- <-]. simpl. split; [reflexivity | lia].
Qed.

(** ** The parser runs to its end *)

Lemma expr_S (n : nat) (p : Parser) :
  expr (S n) p = ('(node, p) <- term n p ;; expr_loop n node p).
Proof. reflexivity. Qed.

Lemma expr_loop_S (n : nat) (node : ASTNode) (p : Parser) :
  expr_loop (S n) node p =
  if TokenType_eqb (type (current_token p)) PLUS then
    p' <- consume PLUS p ;;
    '(rhs, p') <- term n p' ;;
    expr_loop n (BinaryOpNode (type (current_token p)) node rhs) p'
  else Return (node, p).
Proof. reflexivity. Qed.

Lemma term_S (n : nat) (p : Parser) :
  term (S n) p = ('(node, p) <- factor n p ;; term_loop n node p).
Proof. reflexivity. Qed.

Lemma term_loop_S (n : nat) (node : ASTNode) (p : Parser) :
  term_loop (S n) node p =
  if TokenType_eqb (type (current_token p)) MUL then
    p' <- consume MUL p ;;
    '(rhs, p') <- factor n p' ;;
    term_loop n (BinaryOpNode (type (current_token p)) node rhs) p'
  else Return (node, p).
Proof. reflexivity. Qed.

Lemma factor_S (n : nat) (p : Parser) :
  factor (S n) p =
  if TokenType_eqb (type (current_token p)) NUMBER then
    p' <- consume NUMBER p ;;
    Return (NumberNode (value (current_token p)), p')
  else if TokenType_eqb (type (current_token p)) LPAREN then
    p' <- consume LPAREN p ;;
    '(node, p') <- expr n p' ;;
    p' <- consume RPAREN p' ;;
    Return (node, p')
  else Throw (runtime_error "Expected number or parentheses").
Proof. reflexivity. Qed.

(** A successful [consume] found the expected token and, unless that token
    is [END], leaves less to read. *)
Lemma consume_Return (expected : TokenType) (p p' : Parser) :
  consume expected p = Return p' ->
  type (current_token p) = expected /\
  remaining p' + (if TokenType_eqb expected END then 0 else 1) <= remaining p.
Proof.
  unfold consume.
  destruct (TokenType_eqb (type (current_token p)) expected) eqn:Heq;
    [|discriminate].
  apply TokenType_eqb_eq in Heq.
  destruct (getNextToken (lexer p)) as [[t l']| |] eqn:Hnext; try discriminate.
  simpl. intros [= <-].
  apply getNextToken_advances in Hnext as [Hin Hlen].
  split; [exact Heq|].
  unfold remaining. simpl. rewrite Hin, Heq. lia.
Qed.

Lemma stod_not_OutOfFuel (str : string) : stod str <> OutOfFuel.
Proof.
  unfold stod. destruct (stod_literal str) as [ip fp].
  destruct ip, fp; try discriminate;
    (destruct (digits_value _ _); [discriminate|];
     destruct (Double.of_ratio _ _); try discriminate;
     destruct (stod_underflows _ _ _); discriminate).
Qed.

Lemma getNextToken_not_OutOfFuel (l : Lexer) : getNextToken l <> OutOfFuel.
Proof.
  unfold getNextToken. cbv zeta.
  destruct (String.get _ _) as [c|]; [|discriminate].
  destruct (isdigit c).
  - unfold number. cbv zeta.
    match goal with
    | |- context [stod ?x] =>
        pose proof (stod_not_OutOfFuel x); destruct (stod x)
    end; simpl; congruence.
  - repeat match goal with
           | |- context [if ?b then _ else _] => destruct b
           end; discriminate.
Qed.

Lemma consume_not_OutOfFuel (expected : TokenType) (p : Parser) :
  consume expected p <> OutOfFuel.
Proof.
  unfold consume.
  destruct (TokenType_eqb (type (current_token p)) expected); [|discriminate].
  pose proof (getNextToken_not_OutOfFuel (lexer p)).
  destruct (getNextToken (lexer p)) as [[t l]| |]; simpl; congruence.
Qed.

Lemma terminates_le (b b' : nat) (r : outcome (ASTNode * Parser)) :
  b <= b' -> terminates b r -> terminates b' r.
Proof. destruct r as [[a p]| |]; simpl; [lia | trivial | trivial]. Qed.

(** The fuel each function needs is linear in what is left to read: a
    nested call is entered with less fuel only after a token was consumed. *)
Lemma parser_terminates (n : nat) :
  forall p : Parser,
    (3 * remaining p + 3 <= n -> terminates (remaining p) (expr n p)) /\
    (forall node, 3 * remaining p + 1 <= n ->
                  terminates (remaining p) (expr_loop n node p)) /\
    (3 * remaining p + 2 <= n -> terminates (remaining p) (term n p)) /\
    (forall node, 3 * remaining p + 1 <= n ->
                  terminates (remaining p) (term_loop n node p)) /\
    (3 * remaining p + 1 <= n -> terminates (remaining p) (factor n p)).
Proof.
  induction n as [|n IH]; intros p.
  { repeat split; intros; lia. }
  assert (IHexpr : forall q, 3 * remaining q + 3 <= n ->
                             terminates (remaining q) (expr n q))
    by (intros q; apply IH).
  assert (IHeloop : forall q node, 3 * remaining q + 1 <= n ->
                                   terminates (remaining q) (expr_loop n node q))
    by (intros q node; apply IH).
  assert (IHterm : forall q, 3 * remaining q + 2 <= n ->
                             terminates (remaining q) (term n q))
    by (intros q; apply IH).
  assert (IHtloop : forall q node, 3 * remaining q + 1 <= n ->
                                   terminates (remaining q) (term_loop n node q))
    by (intros q node; apply IH).
  assert (IHfactor : forall q, 3 * remaining q + 1 <= n ->
                               terminates (remaining q) (factor n q))
    by (intros q; apply IH).
  clear IH.
  split; [|split; [|split; [|split]]].
  - (* expr *)
    intros Hn. rewrite expr_S.
    specialize (IHterm p ltac:(lia)).
    destruct (term n p) as [[node p1]| |]; simpl in *; trivial.
    apply terminates_le with (b := remaining p1); [lia|].
    apply IHeloop; lia.
  - (* the loop of expr *)
    intros node Hn. rewrite expr_loop_S.
    destruct (TokenType_eqb (type (current_token p)) PLUS); [|simpl; lia].
    destruct (consume PLUS p) as [p1| |] eqn:Hc; simpl; trivial;
      [|now apply consume_not_OutOfFuel in Hc].
    apply consume_Return in Hc as [_ Hc]; simpl in Hc.
    specialize (IHterm p1 ltac:(lia)).
    destruct (term n p1) as [[rhs p2]| |]; simpl in *; trivial.
    apply terminates_le with (b := remaining p2); [lia|].
    apply IHeloop; lia.
  - (* term *)
    intros Hn. rewrite term_S.
    specialize (IHfactor p ltac:(lia)).
    destruct (factor n p) as [[node p1]| |]; simpl in *; trivial.
    apply terminates_le with (b := remaining p1); [lia|].
    apply IHtloop; lia.
  - (* the loop of term *)
    intros node Hn. rewrite term_loop_S.
    destruct (TokenType_eqb (type (current_token p)) MUL); [|simpl; lia].
    destruct (consume MUL p) as [p1| |] eqn:Hc; simpl; trivial;
      [|now apply consume_not_OutOfFuel in Hc].
    apply consume_Return in Hc as [_ Hc]; simpl in Hc.
    specialize (IHfactor p1 ltac:(lia)).
    destruct (factor n p1) as [[rhs p2]| |]; simpl in *; trivial.
    apply terminates_le with (b := remaining p2); [lia|].
    apply IHtloop; lia.
  - (* factor *)
    intros Hn. rewrite factor_S.
    destruct (TokenType_eqb (type (current_token p)) NUMBER).
    { destruct (consume NUMBER p) as [p1| |] eqn:Hc; simpl; trivial;
        [|now apply consume_not_OutOfFuel in Hc].
      apply consume_Return in Hc as [_ Hc]; simpl in Hc. lia. }
    destruct (TokenType_eqb (type (current_token p)) LPAREN);
      [|simpl; trivial].
    destruct (consume LPAREN p) as [p1| |] eqn:Hc; simpl; trivial;
      [|now apply consume_not_OutOfFuel in Hc].
    apply consume_Return in Hc as [_ Hc]; simpl in Hc.
    specialize (IHexpr p1 ltac:(lia)).
    destruct (expr n p1) as [[node p2]| |]; simpl in *; trivial.
    destruct (consume RPAREN p2) as [p3| |] eqn:Hc2; simpl; trivial;
      [|now apply consume_not_OutOfFuel in Hc2].
    apply consume_Return in Hc2 as [_ Hc2]; simpl in Hc2. lia.
Qed.

(** [fuel_for p] is enough for [parse] from [p]. *)
Lemma expr_fuel_enough (p : Parser) : parse (fuel_for p) p <> OutOfFuel.
Proof.
  unfold parse, fuel_for.
  destruct (parser_terminates (3 * remaining p + 3) p) as [H _].
  specialize (H (le_n _)).
  destruct (expr _ p); simpl in H; [discriminate | discriminate | contradiction].
Qed.

(** ** More fuel does not change a finished run *)

Lemma parser_fuel_S (n : nat) :
  forall p : Parser,
    (expr n p <> OutOfFuel -> expr (S n) p = expr n p) /\
    (forall node, expr_loop n node p <> OutOfFuel ->
                  expr_loop (S n) node p = expr_loop n node p) /\
    (term n p <> OutOfFuel -> term (S n) p = term n p) /\
    (forall node, term_loop n node p <> OutOfFuel ->
                  term_loop (S n) node p = term_loop n node p) /\
    (factor n p <> OutOfFuel -> factor (S n) p = factor n p).
Proof.
  induction n as [|n IH]; intros p.
  { repeat split; simpl; intros; congruence. }
  assert (IHexpr : forall q, expr n q <> OutOfFuel -> expr (S n) q = expr n q)
    by (intros q; apply IH).
  assert (IHeloop : forall q node, expr_loop n node q <> OutOfFuel ->
                                   expr_loop (S n) node q = expr_loop n node q)
    by (intros q node; apply IH).
  assert (IHterm : forall q, term n q <> OutOfFuel -> term (S n) q = term n q)
    by (intros q; apply IH).
  assert (IHtloop : forall q node, term_loop n node q <> OutOfFuel ->
                                   term_loop (S n) node q = term_loop n node q)
    by (intros q node; apply IH).
  assert (IHfactor : forall q, factor n q <> OutOfFuel ->
                               factor (S n) q = factor n q)
    by (intros q; apply IH).
  clear IH.
  split; [|split; [|split; [|split]]].
  - intros H. rewrite (expr_S (S n)). rewrite (expr_S n) in H |- *.
    destruct (term n p) as [[node p1]| |] eqn:Ht; simpl in H; try congruence;
      rewrite IHterm by (rewrite Ht; discriminate); rewrite Ht; simpl;
      [now apply IHeloop | reflexivity].
  - intros node H. rewrite (expr_loop_S (S n)). rewrite (expr_loop_S n) in H |- *.
    destruct (TokenType_eqb (type (current_token p)) PLUS); [|reflexivity].
    destruct (consume PLUS p) as [p1| |]; simpl in *; try congruence.
    destruct (term n p1) as [[rhs p2]| |] eqn:Ht; simpl in H; try congruence;
      rewrite IHterm by (rewrite Ht; discriminate); rewrite Ht; simpl;
      [now apply IHeloop | reflexivity].
  - intros H. rewrite (term_S (S n)). rewrite (term_S n) in H |- *.
    destruct (factor n p) as [[node p1]| |] eqn:Hf; simpl in H; try congruence;
      rewrite IHfactor by (rewrite Hf; discriminate); rewrite Hf; simpl;
      [now apply IHtloop | reflexivity].
  - intros node H. rewrite (term_loop_S (S n)). rewrite (term_loop_S n) in H |- *.
    destruct (TokenType_eqb (type (current_token p)) MUL); [|reflexivity].
    destruct (consume MUL p) as [p1| |]; simpl in *; try congruence.
    destruct (factor n p1) as [[rhs p2]| |] eqn:Hf; simpl in H; try congruence;
      rewrite IHfactor by (rewrite Hf; discriminate); rewrite Hf; simpl;
      [now apply IHtloop | reflexivity].
  - intros H. rewrite (factor_S (S n)). rewrite (factor_S n) in H |- *.
    destruct (TokenType_eqb (type (current_token p)) NUMBER); [reflexivity|].
    destruct (TokenType_eqb (type (current_token p)) LPAREN); [|reflexivity].
    destruct (consume LPAREN p) as [p1| |]; simpl in *; try congruence.
    destruct (expr n p1) as [[node p2]| |] eqn:He; simpl in H; try congruence;
      rewrite IHexpr by (rewrite He; discriminate); rewrite He; simpl;
      reflexivity.
Qed.

Lemma parse_fuel_mono (n m : nat) (p : Parser) :
  n <= m -> parse n p <> OutOfFuel -> parse m p = parse n p.
Proof.
  unfold parse. intros Hle Hn. induction Hle as [|m Hle IH]; [reflexivity|].
  rewrite <- IH. apply parser_fuel_S. now rewrite IH.
Qed.

(** The result of [parse] from [p] is the same for every amount of fuel that
    is at least [fuel_for p]. *)
Lemma parse_fuel_irrelevant (n : nat) (p : Parser) :
  fuel_for p <= n -> parse n p = parse (fuel_for p) p.
Proof. intros H. apply parse_fuel_mono; [exact H | apply expr_fuel_enough]. Qed.

(** Parsing a line always ends: with a tree or with an exception. *)
Lemma run_parser_total (line : string) : run_parser line <> OutOfFuel.
Proof.
  unfold run_parser, Parser_new.
  pose proof (getNextToken_not_OutOfFuel (Lexer_new line)) as Hnext.
  destruct (getNextToken (Lexer_new line)) as [[t l]| |]; simpl;
    [apply expr_fuel_enough | discriminate | congruence].
Qed.

Lemma parse_total (line : string) : parse_line line <> OutOfFuel.
Proof.
  unfold parse_line. pose proof (run_parser_total line) as H.
  destruct (run_parser line) as [[ast p]| |]; simpl; congruence.
Qed.

(** ** Trees built by the parser *)

Lemma parser_only_plus_mul (n : nat) :
  forall (p p' : Parser) (a : ASTNode),
    (expr n p = Return (a, p') -> only_plus_mul a = true) /\
    (forall node, only_plus_mul node = true ->
                  expr_loop n node p = Return (a, p') ->
                  only_plus_mul a = true) /\
    (term n p = Return (a, p') -> only_plus_mul a = true) /\
    (forall node, only_plus_mul node = true ->
                  term_loop n node p = Return (a, p') ->
                  only_plus_mul a = true) /\
    (factor n p = Return (a, p') -> only_plus_mul a = true).
Proof.
  induction n as [|n IH]; intros p p' a.
  { repeat split; simpl; intros; discriminate. }
  assert (IHexpr : forall q q' b, expr n q = Return (b, q') ->
                                  only_plus_mul b = true)
    by (intros q q' b; apply IH).
  assert (IHeloop : forall q q' b node,
             only_plus_mul node = true ->
             expr_loop n node q = Return (b, q') -> only_plus_mul b = true)
    by (intros q q' b; apply IH).
  assert (IHterm : forall q q' b, term n q = Return (b, q') ->
                                  only_plus_mul b = true)
    by (intros q q' b; apply IH).
  assert (IHtloop : forall q q' b node,
             only_plus_mul node = true ->
             term_loop n node q = Return (b, q') -> only_plus_mul b = true)
    by (intros q q' b; apply IH).
  assert (IHfactor : forall q q' b, factor n q = Return (b, q') ->
                                    only_plus_mul b = true)
    by (intros q q' b; apply IH).
  clear IH.
  split; [|split; [|split; [|split]]].
  - rewrite expr_S.
    destruct (term n p) as [[node p1]| |] eqn:Ht; simpl; try discriminate.
    apply IHterm in Ht. now apply IHeloop.
  - intros node Hnode. rewrite expr_loop_S.
    destruct (TokenType_eqb (type (current_token p)) PLUS) eqn:Hop.
    + destruct (consume PLUS p) as [p1| |]; simpl; try discriminate.
      destruct (term n p1) as [[rhs p2]| |] eqn:Ht; simpl; try discriminate.
      apply IHterm in Ht.
      apply IHeloop. simpl. now rewrite Hop, Hnode, Ht.
    + now intros [= <- <-].
  - rewrite term_S.
    destruct (factor n p) as [[node p1]| |] eqn:Hf; simpl; try discriminate.
    apply IHfactor in Hf. now apply IHtloop.
  - intros node Hnode. rewrite term_loop_S.
    destruct (TokenType_eqb (type (current_token p)) MUL) eqn:Hop.
    + destruct (consume MUL p) as [p1| |]; simpl; try discriminate.
      destruct (factor n p1) as [[rhs p2]| |] eqn:Hf; simpl; try discriminate.
      apply IHfactor in Hf.
      apply IHtloop. simpl. rewrite Hop, Hnode, Hf.
      now rewrite orb_true_r.
    + now intros [= <- <-].
  - rewrite factor_S.
    destruct (TokenType_eqb (type (current_token p)) NUMBER).
    { destruct (consume NUMBER p); simpl; try discriminate.
      now intros [= <- <-]. }
    destruct (TokenType_eqb (type (current_token p)) LPAREN);
      [|discriminate].
    destruct (consume LPAREN p) as [p1| |]; simpl; try discriminate.
    destruct (expr n p1) as [[node p2]| |] eqn:He; simpl; try discriminate.
    apply IHexpr in He.
    destruct (consume RPAREN p2); simpl; try discriminate.
    now intros [= <- <-].
Qed.

Lemma evaluate_only_plus_mul (a : ASTNode) :
  only_plus_mul a = true -> exists v, evaluate a = Return v.
Proof.
  induction a as [v|op l IHl r IHr]; simpl; [now exists v|].
  intros H. apply andb_prop in H as [H Hr]. apply andb_prop in H as [Hop Hl].
  destruct (IHl Hl) as [x ->], (IHr Hr) as [y ->]. simpl.
  destruct (TokenType_eqb op PLUS); [eauto|].
  destruct (TokenType_eqb op MUL); [eauto | discriminate].
Qed.

Lemma evaluate_not_OutOfFuel (a : ASTNode) : evaluate a <> OutOfFuel.
Proof.
  induction a as [v|op l IHl r IHr]; simpl; [discriminate|].
  destruct (TokenType_eqb op PLUS);
    [|destruct (TokenType_eqb op MUL); [|discriminate]];
    destruct (evaluate l); simpl; try congruence;
    destruct (evaluate r); simpl; congruence.
Qed.

(** ** The loop of [main] *)

Lemma string_app_assoc (a b c : string) : (a ++ b) ++ c = a ++ (b ++ c).
Proof. induction a as [|x a IH]; simpl; [reflexivity | now rewrite IH]. Qed.

Lemma string_app_nil_r (a : string) : a ++ "" = a.
Proof. induction a as [|x a IH]; simpl; [reflexivity | now rewrite IH]. Qed.

(** An iteration always ends, and takes one line from [std::cin] when there
    is one. *)
Lemma iteration_total (w : World) :
  exists w', iteration w = Some w' /\ cin w' = tl (cin w).
Proof.
  unfold iteration, getline.
  destruct w as [lines out err]; simpl.
  destruct lines as [|line rest]; simpl.
  - destruct (parse_line "") as [ast| |] eqn:Hp;
      [|eexists; split; reflexivity | now apply parse_total in Hp].
    destruct (evaluate ast) eqn:He;
      [eexists; split; reflexivity | eexists; split; reflexivity
       | now apply evaluate_not_OutOfFuel in He].
  - destruct (parse_line line) as [ast| |] eqn:Hp;
      [|eexists; split; reflexivity | now apply parse_total in Hp].
    destruct (evaluate ast) eqn:He;
      [eexists; split; reflexivity | eexists; split; reflexivity
       | now apply evaluate_not_OutOfFuel in He].
Qed.

(** At the end of the input an iteration writes the prompt and reports the
    empty line as an error. *)
Lemma iteration_at_end_of_input (out err : string) :
  iteration (mkWorld [] out err)
  = Some (mkWorld [] (out ++ ">>> ") (err ++ empty_line_error)).
Proof. reflexivity. Qed.

Lemma main_loop_running (n : nat) (w : World) :
  exists w', main_loop n true w = StillRunning w' /\ cin w' = skipn n (cin w).
Proof.
  revert w; induction n as [|n IH]; intros w; simpl.
  - now exists w.
  - destruct (iteration_total w) as [w1 [-> Hcin]].
    destruct (IH w1) as [w2 [-> Hcin2]].
    exists w2. split; [reflexivity|].
    rewrite Hcin2, Hcin. destruct (cin w); [now destruct n | reflexivity].
Qed.

Lemma main_loop_add (n k : nat) (w : World) :
  main_loop (n + k) true w =
  match main_loop n true w with
  | StillRunning w' => main_loop k true w'
  | e => e
  end.
Proof.
  revert w; induction n as [|n IH]; intros w; simpl; [reflexivity|].
  destruct (iteration w) as [w1|]; [apply IH | reflexivity].
Qed.

Lemma main_loop_at_end_of_input (k : nat) (out err : string) :
  main_loop k true (mkWorld [] out err)
  = StillRunning (mkWorld [] (out ++ copies k ">>> ")
                          (err ++ copies k empty_line_error)).
Proof.
  revert out err; induction k as [|k IH]; intros out err.
  - simpl. now rewrite !string_app_nil_r.
  - cbn [main_loop]. rewrite iteration_at_end_of_input, IH.
    cbn [copies]. now rewrite !string_app_assoc.
Qed.

(** ** The end of the input *)

Lemma skip_whitespace_at_end (l : Lexer) :
  String.length (input l) <= pos l -> skip_whitespace l = pos l.
Proof.
  intros H. unfold skip_whitespace.
  now replace (String.length (input l) - pos l) with 0 by lia.
Qed.

Lemma getNextToken_at_end (l : Lexer) :
  String.length (input l) <= pos l -> getNextToken l = Return (Token_of END, l).
Proof.
  intros H. unfold getNextToken.
  rewrite (skip_whitespace_at_end l H), set_pos_same.
  apply get_None_iff in H. now rewrite H.
Qed.

(** ** Literals with a second decimal point *)

Lemma stod_literal_two_points (a b c : string) :
  all_chars isdigit a = true -> all_chars isdigit b = true ->
  stod_literal (a ++ "." ++ b ++ "." ++ c) = (a, b).
Proof.
  intros Ha Hb. unfold stod_literal.
  rewrite (span_run isdigit a ("." ++ b ++ "." ++ c) Ha) by reflexivity.
  simpl. now rewrite (span_run isdigit b (String "." c) Hb) by reflexivity.
Qed.

Lemma stod_literal_one_point (a b : string) :
  all_chars isdigit a = true -> all_chars isdigit b = true ->
  stod_literal (a ++ "." ++ b) = (a, b).
Proof.
  intros Ha Hb. unfold stod_literal.
  rewrite (span_run isdigit a ("." ++ b) Ha) by reflexivity.
  simpl. rewrite <- (string_app_nil_r b) at 1.
  now rewrite (span_run isdigit b "" Hb) by exact I.
Qed.

(** [std::stod] converts what is before a second point and ignores the
    rest. *)
Lemma stod_two_points (a b c : string) :
  all_chars isdigit a = true -> all_chars isdigit b = true ->
  stod (a ++ "." ++ b ++ "." ++ c) = stod (a ++ "." ++ b).
Proof.
  intros Ha Hb. unfold stod.
  now rewrite stod_literal_two_points, stod_literal_one_point.
Qed.

(** On digits with a point in them the conversion can only fail for a
    value out of range. *)
Lemma stod_one_point_result (a b : string) :
  a <> "" ->
  all_chars isdigit a = true -> all_chars isdigit b = true ->
  (exists v, stod (a ++ "." ++ b) = Return v)
  \/ stod (a ++ "." ++ b) = Throw (out_of_range "stod").
Proof.
  intros Hne Ha Hb. unfold stod. rewrite (stod_literal_one_point a b Ha Hb).
  destruct a as [|x a]; [congruence|].
  destruct (digits_value 0 (String x a ++ b)); [left; eauto|].
  destruct (Double.of_ratio _ _) eqn:Hr; try (now right);
    (destruct (stod_underflows _ _ _); [now right | left; eauto]).
Qed.

Lemma all_chars_app (p : ascii -> bool) (a b : string) :
  all_chars p (a ++ b) = all_chars p a && all_chars p b.
Proof.
  induction a as [|x a IH]; simpl; [reflexivity|].
  now rewrite IH, andb_assoc.
Qed.

Lemma all_chars_weaken (p q : ascii -> bool) (a : string) :
  (forall c, p c = true -> q c = true) ->
  all_chars p a = true -> all_chars q a = true.
Proof.
  intros Hpq. induction a as [|x a IH]; simpl; [reflexivity|].
  intros H. apply andb_prop in H as [Hx Ha].
  now rewrite (Hpq x Hx), (IH Ha).
Qed.

Lemma isdigit_not_isspace (c : ascii) : isdigit c = true -> isspace c = false.
Proof.
  unfold isdigit, isspace. intros H. apply andb_prop in H as [H _].
  apply Nat.leb_le in H. apply orb_false_intro.
  - apply andb_false_intro2. apply Nat.leb_gt. lia.
  - apply Nat.eqb_neq. lia.
Qed.

Lemma isdigit_is_number_char (c : ascii) :
  isdigit c = true -> is_number_char c = true.
Proof. unfold is_number_char. now intros ->. Qed.

(** ** The lexer behind a prefix and before a suffix *)

Lemma advance_while_fuel (p : ascii -> bool) (s : string) (f f' pos : nat) :
  String.length s - pos <= f -> String.length s - pos <= f' ->
  advance_while p s f pos = advance_while p s f' pos.
Proof.
  revert f' pos; induction f as [|f IH]; intros f' pos Hf Hf'.
  - assert (H : String.get pos s = None) by (apply get_None_iff; lia).
    destruct f'; simpl; [reflexivity | now rewrite H].
  - destruct f' as [|f'].
    + assert (H : String.get pos s = None) by (apply get_None_iff; lia).
      simpl. now rewrite H.
    + simpl. destruct (String.get pos s) as [c|]; [|reflexivity].
      destruct (p c); [|reflexivity]. apply IH; lia.
Qed.

(** Started anywhere inside the characters it steps over, the loop ends
    where it ends when started before them. *)
Lemma advance_while_resume (p : ascii -> bool) (s : string) (f pos q : nat) :
  String.length s - pos <= f ->
  pos <= q <= advance_while p s f pos ->
  advance_while p s (String.length s - q) q = advance_while p s f pos.
Proof.
  revert pos; induction f as [|f IH]; intros pos Hf Hq.
  - simpl in Hq. assert (q = pos) by lia. subst q.
    apply advance_while_fuel; lia.
  - destruct (Nat.eq_dec q pos) as [->|Hne];
      [apply advance_while_fuel; lia|].
    simpl in *. destruct (String.get pos s) as [c|]; [|lia].
    destruct (p c); [|lia]. apply IH; lia.
Qed.

Lemma getNextToken_from_white_space (l : Lexer) (q : nat) :
  pos l <= q <= skip_whitespace l ->
  getNextToken (set_pos l q) = getNextToken l.
Proof.
  intros Hq.
  assert (H : skip_whitespace (set_pos l q) = skip_whitespace l).
  { unfold skip_whitespace, set_pos. cbn [input pos].
    apply advance_while_resume; [apply le_n | exact Hq]. }
  unfold getNextToken. rewrite H. reflexivity.
Qed.

Lemma get_app_shift (pre s : string) (q : nat) :
  String.get (String.length pre + q) (pre ++ s) = String.get q s.
Proof. induction pre as [|x pre IH]; simpl; [reflexivity | exact IH]. Qed.

Lemma substring_app_shift (pre s : string) (q m : nat) :
  substring (String.length pre + q) m (pre ++ s) = substring q m s.
Proof. induction pre as [|x pre IH]; simpl; [reflexivity | exact IH]. Qed.

Lemma get_app_ge (s x : string) (i : nat) :
  String.length s <= i ->
  String.get i (s ++ x) = String.get (i - String.length s) x.
Proof.
  intros H. replace i with (String.length s + (i - String.length s)) at 1 by lia.
  apply get_app_shift.
Qed.

Lemma advance_while_shift (p : ascii -> bool) (pre s : string) (f : nat) :
  forall q : nat,
    advance_while p (pre ++ s) f (String.length pre + q)
    = String.length pre + advance_while p s f q.
Proof.
  induction f as [|f IH]; intros q; simpl; [reflexivity|].
  rewrite get_app_shift.
  destruct (String.get q s) as [c|]; [|reflexivity].
  destruct (p c); [|reflexivity].
  rewrite <- Nat.add_succ_r. apply IH.
Qed.

Lemma advance_while_app_left (p : ascii -> bool) (s x : string) :
  forall k q : nat,
    String.length s - q = k -> q <= String.length s ->
    advance_while p (s ++ x) (String.length s - q + String.length x) q
    = if Nat.ltb (advance_while p s (String.length s - q) q) (String.length s)
      then advance_while p s (String.length s - q) q
      else advance_while p (s ++ x) (String.length x) (String.length s).
Proof.
  induction k as [|k IH]; intros q Hk Hq; rewrite Hk.
  - assert (q = String.length s) by lia. subst q. simpl.
    now rewrite Nat.ltb_irrefl.
  - assert (Hlt : q < String.length s) by lia.
    simpl. rewrite get_app_lt by exact Hlt.
    destruct (String.get q s) as [c|] eqn:Hget.
    + destruct (p c).
      * specialize (IH (S q) ltac:(lia) ltac:(lia)).
        replace (String.length s - S q) with k in IH by lia. exact IH.
      * apply Nat.ltb_lt in Hlt. now rewrite Hlt.
    + apply get_None_iff in Hget. lia.
Qed.

Lemma shifted_bisimulation (pre s : string) :
  lexer_bisimulation (shifted pre s).
Proof.
  intros l1 l2 (q & -> & ->). unfold getNextToken.
  assert (Hw : skip_whitespace (mkLexer (pre ++ s) (String.length pre + q))
               = String.length pre + skip_whitespace (mkLexer s q)).
  { unfold skip_whitespace. cbn [input pos]. rewrite length_app.
    replace (String.length pre + String.length s - (String.length pre + q))
      with (String.length s - q) by lia.
    apply advance_while_shift. }
  rewrite Hw. clear Hw.
  set (w := skip_whitespace (mkLexer s q)). clearbody w.
  unfold set_pos. cbv zeta. cbn [input pos]. rewrite get_app_shift.
  destruct (String.get w s) as [c|]; [|simpl; split; [reflexivity|now exists w]].
  destruct (isdigit c).
  - unfold number, number_end, set_pos. cbn [input pos]. rewrite length_app.
    replace (String.length pre + String.length s - (String.length pre + w))
      with (String.length s - w) by lia.
    rewrite advance_while_shift.
    set (e := advance_while is_number_char s (String.length s - w) w).
    clearbody e.
    replace (String.length pre + e - (String.length pre + w)) with (e - w)
      by lia.
    rewrite substring_app_shift.
    destruct (stod (substring w (e - w) s)) as [v| |]; simpl;
      [split; [reflexivity | now exists e] | reflexivity | exact I].
  - rewrite <- !Nat.add_succ_r.
    destruct (c =? "+")%char; [simpl; split; [reflexivity | now eexists]|].
    destruct (c =? "*")%char; [simpl; split; [reflexivity | now eexists]|].
    destruct (c =? "(")%char; [simpl; split; [reflexivity | now eexists]|].
    destruct (c =? ")")%char; [simpl; split; [reflexivity | now eexists]|].
    reflexivity.
Qed.

(** ** Text after the expression *)

Lemma parse_with_fuel_for (n : nat) (p p' : Parser) (a : ASTNode) :
  parse n p = Return (a, p') -> parse (fuel_for p) p = Return (a, p').
Proof.
  intros H. destruct (le_lt_dec (fuel_for p) n) as [Hle|Hlt].
  - now rewrite <- (parse_fuel_irrelevant n p Hle).
  - rewrite (parse_fuel_mono n (fuel_for p) p); [exact H | lia |].
    rewrite H. discriminate.
Qed.

Section TrailingTokens.

Variables line trailer : string.
Variable first : Token.
Variable after : Lexer.

Hypothesis first_token :
  getNextToken (Lexer_new trailer) = Return (first, after).
Hypothesis separate : separated line trailer.
Hypothesis no_plus : type first <> PLUS.
Hypothesis no_mul : type first <> MUL.

(** A number of [line] ends in [line ++ trailer] where it ends in [line]. *)
Lemma number_end_trailed (w : nat) (c : ascii) :
  String.get w line = Some c -> isdigit c = true ->
  advance_while is_number_char (line ++ trailer)
                (String.length (line ++ trailer) - w) w
  = advance_while is_number_char line (String.length line - w) w.
Proof.
  intros Hget Hdigit. pose proof (get_Some_lt _ _ _ Hget) as Hlt.
  rewrite length_app.
  replace (String.length line + String.length trailer - w)
    with (String.length line - w + String.length trailer) by lia.
  rewrite (advance_while_app_left is_number_char line trailer
             (String.length line - w) w eq_refl) by lia.
  pose proof (advance_while_le is_number_char line (String.length line - w) w)
    as Hle.
  pose proof (advance_while_step is_number_char line w c Hget
                (isdigit_is_number_char c Hdigit)) as Hstep.
  destruct (Nat.ltb_spec
              (advance_while is_number_char line (String.length line - w) w)
              (String.length line)) as [Hin|Hout]; [reflexivity|].
  assert (He : advance_while is_number_char line (String.length line - w) w
               = String.length line) by lia.
  rewrite He. destruct separate as [Hright|Hleft].
  - destruct trailer as [|x rest].
    + destruct (String.length ""); simpl; [reflexivity|].
      assert (H : String.get (String.length line) (line ++ "") = None)
        by (apply get_None_iff; rewrite length_app; simpl; lia).
      now rewrite H.
    + apply advance_while_halts with (c := x);
        [apply get_app_length | exact Hright].
  - destruct (advance_while_between is_number_char line
                (String.length line - w) w (String.length line - 1))
      as (x & Hx & Hnum); [lia|].
    rewrite (Hleft x Hx) in Hnum. discriminate.
Qed.

Lemma getNextToken_trailed (q : nat) (t : Token) (l1 : Lexer) :
  q <= String.length line ->
  getNextToken (mkLexer line q) = Return (t, l1) ->
  exists t2 l2,
    getNextToken (mkLexer (line ++ trailer) q) = Return (t2, l2) /\
    trails line trailer first after (mkParser l1 t) (mkParser l2 t2).
Proof.
  intros Hq.
  pose proof (advance_while_app_left isspace line trailer
                (String.length line - q) q eq_refl Hq) as Hskip.
  pose proof (advance_while_le isspace line (String.length line - q) q) as Hle.
  pose proof (advance_while_ge isspace line (String.length line - q) q) as Hge.
  assert (Hlong : skip_whitespace (mkLexer (line ++ trailer) q)
                  = advance_while isspace (line ++ trailer)
                      (String.length line - q + String.length trailer) q).
  { unfold skip_whitespace. cbn [input pos]. rewrite length_app.
    f_equal. lia. }
  rewrite Hskip in Hlong. clear Hskip.
  assert (Hshort : skip_whitespace (mkLexer line q)
                   = advance_while isspace line (String.length line - q) q)
    by reflexivity.
  set (w := advance_while isspace line (String.length line - q) q) in *.
  clearbody w.
  destruct (Nat.ltb_spec w (String.length line)) as [Hin|Hout].
  - (* the token is in [line] *)
    unfold getNextToken. rewrite Hlong, Hshort.
    unfold set_pos. cbv zeta. cbn [input pos].
    rewrite get_app_lt by exact Hin.
    destruct (String.get w line) as [c|] eqn:Hget;
      [|apply get_None_iff in Hget; lia].
    destruct (isdigit c) eqn:Hdigit.
    + unfold number, number_end, set_pos. cbn [input pos].
      rewrite (number_end_trailed w c Hget Hdigit).
      pose proof (advance_while_ge is_number_char line (String.length line - w) w)
        as Hge'.
      pose proof (advance_while_le is_number_char line (String.length line - w) w)
        as Hle'.
      set (e := advance_while is_number_char line (String.length line - w) w) in *.
      clearbody e.
      rewrite substring_app_prefix by lia.
      destruct (stod (substring w (e - w) line)) as [v| |]; simpl;
        try discriminate.
      intros [= <- <-]. eexists; eexists. split; [reflexivity|].
      unfold trails. cbn.
      repeat split; solve [reflexivity | lia].
    + destruct (c =? "+")%char;
        [|destruct (c =? "*")%char;
          [|destruct (c =? "(")%char;
            [|destruct (c =? ")")%char; [|discriminate]]]];
        intros [= <- <-];
        (eexists; eexists; split; [reflexivity|]);
        unfold trails; cbn;
        repeat split; solve [reflexivity | lia].
  - (* [line] is at its end: the token is the first of [trailer] *)
    assert (Hw : w = String.length line) by lia. rewrite Hw in Hshort.
    unfold getNextToken at 1. rewrite Hshort.
    unfold set_pos. cbv zeta. cbn [input pos].
    assert (Hnone : String.get (String.length line) line = None)
      by (now apply get_None_iff).
    rewrite Hnone. intros [= <- <-].
    assert (Hfrom : getNextToken (mkLexer (line ++ trailer) q)
                    = getNextToken (mkLexer (line ++ trailer)
                                            (String.length line + 0))).
    { rewrite Nat.add_0_r. symmetry.
      apply (getNextToken_from_white_space (mkLexer (line ++ trailer) q)
                                           (String.length line)).
      cbn [pos]. rewrite Hlong. split; [exact Hq | apply advance_while_ge]. }
    rewrite Hfrom.
    pose proof (shifted_bisimulation line trailer
                  (mkLexer (line ++ trailer) (String.length line + 0))
                  (mkLexer trailer 0)
                  (ex_intro _ 0 (conj eq_refl eq_refl))) as Hagree.
    unfold Lexer_new in first_token. rewrite first_token in Hagree.
    destruct (getNextToken (mkLexer (line ++ trailer) (String.length line + 0)))
      as [[t2 l2]| |]; simpl in Hagree; try contradiction.
    destruct Hagree as (-> & k & -> & Hafter).
    eexists; eexists. split; [reflexivity|].
    unfold trails. cbn. rewrite Hafter. cbn.
    repeat split; solve [reflexivity | lia].
Qed.

Lemma trails_current (p1 p2 : Parser) :
  trails line trailer first after p1 p2 ->
  type (current_token p1) <> END ->
  current_token p2 = current_token p1.
Proof.
  intros (_ & _ & _ & H) Hne.
  destruct (TokenType_eqb (type (current_token p1)) END) eqn:Heq;
    [now apply TokenType_eqb_eq in Heq | apply H].
Qed.

(** The two parsers see an operator at the same time: the first token of
    [trailer] is none. *)
Lemma trails_operator (p1 p2 : Parser) (tag : TokenType) :
  trails line trailer first after p1 p2 -> tag = PLUS \/ tag = MUL ->
  TokenType_eqb (type (current_token p2)) tag
  = TokenType_eqb (type (current_token p1)) tag.
Proof.
  intros (_ & _ & _ & H) Htag.
  destruct (TokenType_eqb (type (current_token p1)) END) eqn:Heq.
  - apply TokenType_eqb_eq in Heq. destruct H as [-> _]. rewrite Heq.
    destruct Htag as [-> | ->]; simpl;
      destruct (type first); solve [reflexivity | contradiction].
  - now destruct H as [-> _].
Qed.

Lemma consume_trailed (expected : TokenType) (p1 p2 p1' : Parser) :
  trails line trailer first after p1 p2 ->
  type (current_token p1) <> END ->
  consume expected p1 = Return p1' ->
  exists p2', consume expected p2 = Return p2'
              /\ trails line trailer first after p1' p2'.
Proof.
  intros Hsh Hne. unfold consume.
  rewrite (trails_current p1 p2 Hsh Hne).
  destruct (TokenType_eqb (type (current_token p1)) expected); [|discriminate].
  destruct Hsh as (Hin1 & Hin2 & Hpos & H).
  destruct (TokenType_eqb (type (current_token p1)) END) eqn:Hend;
    [now apply TokenType_eqb_eq in Hend|].
  destruct H as [_ Hpos2].
  destruct p1 as [[i1 q1] c1], p2 as [[i2 q2] c2]. cbn in *. subst.
  destruct (getNextToken (mkLexer line q1)) as [[t l1]| |] eqn:Hnext;
    simpl; try discriminate.
  intros [= <-].
  destruct (getNextToken_trailed q1 t l1 Hpos Hnext) as (t2 & l2 & -> & Hsh).
  simpl. now exists (mkParser l2 t2).
Qed.

(** A run of the parser on [line] that returns a tree is followed step by
    step by the run on the longer line, which returns the same tree. *)
Lemma parser_trailed (n : nat) :
  forall (p1 p2 p1' : Parser) (a : ASTNode),
    trails line trailer first after p1 p2 ->
    (expr n p1 = Return (a, p1') ->
     exists p2', expr n p2 = Return (a, p2')
                 /\ trails line trailer first after p1' p2') /\
    (forall node,
        expr_loop n node p1 = Return (a, p1') ->
        exists p2', expr_loop n node p2 = Return (a, p2')
                    /\ trails line trailer first after p1' p2') /\
    (term n p1 = Return (a, p1') ->
     exists p2', term n p2 = Return (a, p2')
                 /\ trails line trailer first after p1' p2') /\
    (forall node,
        term_loop n node p1 = Return (a, p1') ->
        exists p2', term_loop n node p2 = Return (a, p2')
                    /\ trails line trailer first after p1' p2') /\
    (factor n p1 = Return (a, p1') ->
     exists p2', factor n p2 = Return (a, p2')
                 /\ trails line trailer first after p1' p2').
Proof.
  induction n as [|n IH]; intros p1 p2 p1' a Hsh.
  { repeat split; simpl; intros; discriminate. }
  assert (IHexpr : forall q1 q2 q1' b,
             trails line trailer first after q1 q2 ->
             expr n q1 = Return (b, q1') ->
             exists q2', expr n q2 = Return (b, q2')
                         /\ trails line trailer first after q1' q2')
    by (intros q1 q2 q1' b H; now apply IH).
  assert (IHeloop : forall q1 q2 q1' b node,
             trails line trailer first after q1 q2 ->
             expr_loop n node q1 = Return (b, q1') ->
             exists q2', expr_loop n node q2 = Return (b, q2')
                         /\ trails line trailer first after q1' q2')
    by (intros q1 q2 q1' b node H; now apply IH).
  assert (IHterm : forall q1 q2 q1' b,
             trails line trailer first after q1 q2 ->
             term n q1 = Return (b, q1') ->
             exists q2', term n q2 = Return (b, q2')
                         /\ trails line trailer first after q1' q2')
    by (intros q1 q2 q1' b H; now apply IH).
  assert (IHtloop : forall q1 q2 q1' b node,
             trails line trailer first after q1 q2 ->
             term_loop n node q1 = Return (b, q1') ->
             exists q2', term_loop n node q2 = Return (b, q2')
                         /\ trails line trailer first after q1' q2')
    by (intros q1 q2 q1' b node H; now apply IH).
  assert (IHfactor : forall q1 q2 q1' b,
             trails line trailer first after q1 q2 ->
             factor n q1 = Return (b, q1') ->
             exists q2', factor n q2 = Return (b, q2')
                         /\ trails line trailer first after q1' q2')
    by (intros q1 q2 q1' b H; now apply IH).
  clear IH.
  split; [|split; [|split; [|split]]].
  - rewrite !expr_S.
    destruct (term n p1) as [[node q1]| |] eqn:Ht; simpl; try discriminate.
    destruct (IHterm _ _ _ _ Hsh Ht) as (q2 & -> & Hsh1). simpl.
    now apply IHeloop.
  - intros node. rewrite !expr_loop_S.
    rewrite (trails_operator p1 p2 PLUS Hsh) by (now left).
    destruct (TokenType_eqb (type (current_token p1)) PLUS) eqn:Hop.
    + apply TokenType_eqb_eq in Hop.
      assert (Hne : type (current_token p1) <> END) by congruence.
      rewrite (trails_current p1 p2 Hsh Hne).
      destruct (consume PLUS p1) as [q1| |] eqn:Hc; simpl; try discriminate.
      destruct (consume_trailed PLUS p1 p2 q1 Hsh Hne Hc) as (q2 & -> & Hsh1).
      simpl.
      destruct (term n q1) as [[rhs r1]| |] eqn:Ht; simpl; try discriminate.
      destruct (IHterm _ _ _ _ Hsh1 Ht) as (r2 & -> & Hsh2). simpl.
      now apply IHeloop.
    + intros [= <- <-]. now exists p2.
  - rewrite !term_S.
    destruct (factor n p1) as [[node q1]| |] eqn:Hf; simpl; try discriminate.
    destruct (IHfactor _ _ _ _ Hsh Hf) as (q2 & -> & Hsh1). simpl.
    now apply IHtloop.
  - intros node. rewrite !term_loop_S.
    rewrite (trails_operator p1 p2 MUL Hsh) by (now right).
    destruct (TokenType_eqb (type (current_token p1)) MUL) eqn:Hop.
    + apply TokenType_eqb_eq in Hop.
      assert (Hne : type (current_token p1) <> END) by congruence.
      rewrite (trails_current p1 p2 Hsh Hne).
      destruct (consume MUL p1) as [q1| |] eqn:Hc; simpl; try discriminate.
      destruct (consume_trailed MUL p1 p2 q1 Hsh Hne Hc) as (q2 & -> & Hsh1).
      simpl.
      destruct (factor n q1) as [[rhs r1]| |] eqn:Hf; simpl; try discriminate.
      destruct (IHfactor _ _ _ _ Hsh1 Hf) as (r2 & -> & Hsh2). simpl.
      now apply IHtloop.
    + intros [= <- <-]. now exists p2.
  - rewrite !factor_S.
    destruct (TokenType_eqb (type (current_token p1)) NUMBER) eqn:Hnum.
    { assert (Hne : type (current_token p1) <> END)
        by (intros E; rewrite E in Hnum; discriminate).
      rewrite (trails_current p1 p2 Hsh Hne), Hnum.
      destruct (consume NUMBER p1) as [q1| |] eqn:Hc; simpl; try discriminate.
      destruct (consume_trailed NUMBER p1 p2 q1 Hsh Hne Hc) as (q2 & -> & Hsh1).
      simpl. intros [= <- <-]. now exists q2. }
    destruct (TokenType_eqb (type (current_token p1)) LPAREN) eqn:Hlp;
      [|discriminate].
    assert (Hne : type (current_token p1) <> END)
      by (intros E; rewrite E in Hlp; discriminate).
    rewrite (trails_current p1 p2 Hsh Hne), Hnum, Hlp.
    destruct (consume LPAREN p1) as [q1| |] eqn:Hc; simpl; try discriminate.
    destruct (consume_trailed LPAREN p1 p2 q1 Hsh Hne Hc) as (q2 & -> & Hsh1).
    simpl.
    destruct (expr n q1) as [[node r1]| |] eqn:He; simpl; try discriminate.
    destruct (IHexpr _ _ _ _ Hsh1 He) as (r2 & -> & Hsh2). simpl.
    destruct (consume RPAREN r1) as [u1| |] eqn:Hc2; simpl; try discriminate.
    assert (Hne2 : type (current_token r1) <> END)
      by (destruct (consume_Return RPAREN r1 u1 Hc2) as [E _];
          rewrite E; discriminate).
    destruct (consume_trailed RPAREN r1 r2 u1 Hsh2 Hne2 Hc2)
      as (u2 & -> & Hsh3).
    simpl. intros [= <- <-]. now exists u2.
Qed.

Lemma run_parser_trailed (a : ASTNode) (p : Parser) :
  run_parser line = Return (a, p) ->
  exists p', run_parser (line ++ trailer) = Return (a, p')
             /\ trails line trailer first after p p'.
Proof.
  unfold run_parser, Parser_new, Lexer_new.
  destruct (getNextToken (mkLexer line 0)) as [[t l1]| |] eqn:Hnext;
    simpl; try discriminate.
  destruct (getNextToken_trailed 0 t l1 (Nat.le_0_l _) Hnext)
    as (t2 & l2 & -> & Hsh).
  simpl. intros H.
  destruct (parser_trailed (fuel_for (mkParser l1 t)) (mkParser l1 t)
                           (mkParser l2 t2) p a Hsh) as [He _].
  destruct (He H) as (p' & H' & Hsh').
  exists p'. split; [|exact Hsh'].
  now apply parse_with_fuel_for in H'.
Qed.

End TrailingTokens.

Lemma parse_line_trailed (line trailer : string) (first : Token)
      (after : Lexer) (ast : ASTNode) :
  getNextToken (Lexer_new trailer) = Return (first, after) ->
  separated line trailer ->
  type first <> PLUS -> type first <> MUL ->
  parse_line line = Return ast ->
  parse_line (line ++ trailer) = Return ast.
Proof.
  intros Hfirst Hsep Hplus Hmul. unfold parse_line.
  destruct (run_parser line) as [[a p]| |] eqn:Hrun; simpl; try discriminate.
  intros [= <-].
  destruct (run_parser_trailed line trailer first after Hfirst Hsep Hplus Hmul
                               a p Hrun) as (p' & -> & _).
  reflexivity.
Qed.

(** * The claims *)

(** C1. Multiplication binds tighter than addition.  The line [2 + 3 * 4]
    parses to the sum of 2 and the product of 3 and 4, which evaluates to 14
    and is printed in infix form as [(2 + (3 * 4))]; the line [(2 + 3) * 4]
    parses to a tree that evaluates to 20 and is printed as
    [((2 + 3) * 4)]. *)
Theorem precedence_of_mul_over_plus :
  let num n := NumberNode (Double.of_N n) in
  let t1 := BinaryOpNode PLUS (num 2%N) (BinaryOpNode MUL (num 3%N) (num 4%N)) in
  let t2 := BinaryOpNode MUL (BinaryOpNode PLUS (num 2%N) (num 3%N)) (num 4%N) in
  parse_line "2 + 3 * 4" = Return t1 /\
  evaluate t1 = Return (Double.of_N 14) /\
  print_infix t1 = "(2 + (3 * 4))" /\
  parse_line "(2 + 3) * 4" = Return t2 /\
  evaluate t2 = Return (Double.of_N 20) /\
  print_infix t2 = "((2 + 3) * 4)".
Proof. repeat split; vm_compute; reflexivity. Qed.

(** C2. Operators of the same precedence group from the left.  The line
    [1 + 2 + 3] parses to the sum of (the sum of 1 and 2) and 3, which
    evaluates to 6 and is printed in infix form as [((1 + 2) + 3)]. *)
Theorem plus_groups_from_the_left :
  let num n := NumberNode (Double.of_N n) in
  let t := BinaryOpNode PLUS (BinaryOpNode PLUS (num 1%N) (num 2%N)) (num 3%N) in
  parse_line "1 + 2 + 3" = Return t /\
  evaluate t = Return (Double.of_N 6) /\
  print_infix t = "((1 + 2) + 3)".
Proof. repeat split; vm_compute; reflexivity. Qed.

(** C3. The empty line is a parse error.  Its first token is [END];
    [factor] rejects a current token [END] with the exception
    "Expected number or parentheses" (the specification's
    [ParseError::ExpectedFactor]), and parsing the empty line ends with that
    exception, not with a tree. *)
Theorem empty_line_is_rejected_by_factor :
  getNextToken (Lexer_new "") = Return (Token_of END, Lexer_new "") /\
  (forall (fuel : nat) (l : Lexer) (v : double),
      factor (S fuel) (mkParser l (mkToken END v))
      = Throw (runtime_error "Expected number or parentheses")) /\
  parse_line "" = Throw (runtime_error "Expected number or parentheses").
Proof.
  split; [reflexivity|]. split; [|reflexivity].
  intros fuel l v. now rewrite factor_S.
Qed.

(** C4, as the specification states it, fails.  Parsing [(1 + 2] and
    parsing [(1 2] both end in the call [consume(RPAREN)] of [factor], the
    first with the current token [END] and the second with the current
    token [NUMBER], and both with the same exception: no function of the
    exception returns the expected and the found tag. *)
Lemma unexpected_token_records_no_tags :
  let e := runtime_error "Unexpected token" in
  let at_end := mkParser (mkLexer "(1 + 2" 6) (Token_of END) in
  let at_number := mkParser (mkLexer "(1 2" 4) (mkToken NUMBER (Double.of_N 2)) in
  (exists t, (p <- Parser_new (Lexer_new "(1 + 2") ;;
              p <- consume LPAREN p ;; expr 20 p) = Return (t, at_end)) /\
  (exists t, (p <- Parser_new (Lexer_new "(1 2") ;;
              p <- consume LPAREN p ;; expr 20 p) = Return (t, at_number)) /\
  consume RPAREN at_end = Throw e /\
  consume RPAREN at_number = Throw e /\
  parse_line "(1 + 2" = Throw e /\
  parse_line "(1 2" = Throw e /\
  ~ exists payload, records_expected_and_found payload.
Proof.
  intros e at_end at_number.
  split; [eexists; vm_compute; reflexivity|].
  split; [eexists; vm_compute; reflexivity|].
  do 4 (split; [reflexivity|]).
  intros [payload H].
  assert (H1 : payload e = (RPAREN, END))
    by (apply (H RPAREN at_end e); [discriminate | reflexivity]).
  assert (H2 : payload e = (RPAREN, NUMBER))
    by (apply (H RPAREN at_number e); [discriminate | reflexivity]).
  congruence.
Qed.

(** C4, amended.  Parsing [(1 + 2] fails with the exception of [consume],
    a [std::runtime_error] whose message is "Unexpected token": the nested
    [expr] returns the sum of 1 and 2 with the current token [END], and
    [consume(RPAREN)] throws.  [consume] throws this one exception for
    every expected tag and every other current token. *)
Theorem unbalanced_parenthesis_is_unexpected_token
        (expected : TokenType) (p : Parser) :
  type (current_token p) <> expected ->
  consume expected p = Throw (runtime_error "Unexpected token") /\
  (let at_end := mkParser (mkLexer "(1 + 2" 6) (Token_of END) in
   let sum := BinaryOpNode PLUS (NumberNode (Double.of_N 1))
                           (NumberNode (Double.of_N 2)) in
   (p <- Parser_new (Lexer_new "(1 + 2") ;;
    p <- consume LPAREN p ;; expr 20 p) = Return (sum, at_end) /\
   consume RPAREN at_end = Throw (runtime_error "Unexpected token") /\
   parse_line "(1 + 2" = Throw (runtime_error "Unexpected token")).
Proof.
  intros H. split.
  - unfold consume.
    destruct (TokenType_eqb (type (current_token p)) expected) eqn:Heq;
      [|reflexivity].
    now apply TokenType_eqb_eq in Heq.
  - repeat split; vm_compute; reflexivity.
Qed.

Lemma unbalanced_parenthesis_is_unexpected_token_witness :
  let at_end := mkParser (mkLexer "(1 + 2" 6) (Token_of END) in
  type (current_token at_end) <> RPAREN /\
  consume RPAREN at_end = Throw (runtime_error "Unexpected token").
Proof.
  intros at_end.
  assert (H : type (current_token at_end) <> RPAREN) by (simpl; discriminate).
  split; [exact H|].
  exact (proj1 (unbalanced_parenthesis_is_unexpected_token RPAREN at_end H)).
Defined.

(** C5, as the specification states it, fails.  The lexer stops at the
    [-] at position 2 of [3 - 2] and at the [/] at position 0 of [/] with
    the same exception: no function of the exception returns the character
    and its position. *)
Lemma invalid_character_records_no_position :
  let e := runtime_error "Invalid character in input" in
  skip_whitespace (mkLexer "3 - 2" 1) = 2 /\
  getNextToken (mkLexer "3 - 2" 1) = Throw e /\
  parse_line "3 - 2" = Throw e /\
  skip_whitespace (Lexer_new "/") = 0 /\
  getNextToken (Lexer_new "/") = Throw e /\
  ~ exists payload, records_character_and_position payload.
Proof.
  intros e. do 5 (split; [reflexivity|]).
  intros [payload H].
  assert (H1 : payload e = ("-"%char, 2))
    by (apply (H (mkLexer "3 - 2" 1) "-"%char e); reflexivity).
  assert (H2 : payload e = ("/"%char, 0))
    by (apply (H (Lexer_new "/") "/"%char e); reflexivity).
  congruence.
Qed.

(** C5, amended.  Whenever the first character that is not white space
    at or after the cursor is an unsupported one, [getNextToken] fails with
    a [std::runtime_error] whose message is "Invalid character in input",
    which holds neither the character nor its position. *)
Theorem unsupported_character_is_invalid (l : Lexer) (c : ascii) :
  String.get (skip_whitespace l) (input l) = Some c ->
  supported c = false ->
  (forall i, pos l <= i < skip_whitespace l ->
             exists d, String.get i (input l) = Some d /\ isspace d = true) /\
  isspace c = false /\
  getNextToken l = Throw (runtime_error "Invalid character in input").
Proof.
  intros Hget Hc. split; [|split].
  - intros i Hi. now apply advance_while_between in Hi.
  - pose proof (advance_while_stops isspace (input l)
                  (String.length (input l) - pos l) (pos l) (le_n _)) as H.
    fold (skip_whitespace l) in H. now rewrite Hget in H.
  - unfold getNextToken. simpl. rewrite Hget.
    unfold supported in Hc.
    repeat (apply orb_false_elim in Hc as [Hc ?]).
    now repeat match goal with H : _ = false |- _ => rewrite H; clear H end.
Qed.

Lemma unsupported_character_is_invalid_witness :
  let l := mkLexer "3 - 2" 1 in
  String.get (skip_whitespace l) (input l) = Some "-"%char /\
  supported "-" = false /\
  getNextToken l = Throw (runtime_error "Invalid character in input").
Proof.
  intros l.
  assert (H1 : String.get (skip_whitespace l) (input l) = Some "-"%char)
    by reflexivity.
  assert (H2 : supported "-" = false) by reflexivity.
  split; [exact H1|]. split; [exact H2|].
  exact (proj2 (proj2 (unsupported_character_is_invalid l "-"%char H1 H2))).
Defined.

(** C6, as the specification states it, fails.  The run [1.2.3] is not a
    well-formed literal; [number] scans all five characters of it, and
    [std::stod] converts the leading [1.2] and ignores the rest without an
    error: the lexer returns the number 1.2, the line parses to that number
    and [main] prints it as the result. *)
Lemma malformed_literal_is_read_in_part :
  let v := Double.of_ratio 12 10 in
  well_formed_literal "1.2.3" = false /\
  number_end (Lexer_new "1.2.3") = 5 /\
  stod "1.2.3" = Return v /\
  stod "1.2" = Return v /\
  getNextToken (Lexer_new "1.2.3") = Return (mkToken NUMBER v, mkLexer "1.2.3" 5) /\
  parse_line "1.2.3" = Return (NumberNode v) /\
  Format.to_string v = "1.2" /\
  ~ malformed_literals_are_errors.
Proof.
  intros v. do 7 (split; [vm_compute; reflexivity|]).
  intros H.
  destruct (H (Lexer_new "1.2.3") "1"%char) as [e He];
    try (vm_compute; reflexivity).
  vm_compute in He. discriminate.
Qed.

(** C6, amended.  When the run of digits and points that the lexer scans
    has a second point, the lexer consumes the whole run and returns the
    number that [std::stod] converts from the part of the run before the
    second point; what follows that point is ignored, and no error comes of
    it.  The call fails only as that conversion fails, which it does for a
    value out of range and for nothing else. *)
Theorem number_reads_up_to_second_point (pre a b c post : string) :
  a <> "" ->
  all_chars isdigit a = true ->
  all_chars isdigit b = true ->
  all_chars is_number_char c = true ->
  ends_run is_number_char post ->
  let run := a ++ "." ++ b ++ "." ++ c in
  let text := pre ++ run ++ post in
  getNextToken (mkLexer text (String.length pre))
  = (v <- stod (a ++ "." ++ b) ;;
     Return (mkToken NUMBER v,
             mkLexer text (String.length pre + String.length run))) /\
  ((exists v, stod (a ++ "." ++ b) = Return v)
   \/ stod (a ++ "." ++ b) = Throw (out_of_range "stod")).
Proof.
  intros Ha Hda Hdb Hc Hpost run text.
  split; [|now apply stod_one_point_result].
  assert (Etext : text = pre ++ run ++ post) by reflexivity.
  assert (Erun : run = a ++ "." ++ b ++ "." ++ c) by reflexivity.
  clearbody text run.
  destruct a as [|x a]; [congruence|]. clear Ha.
  pose proof Hda as Hx. simpl in Hx. apply andb_prop in Hx as [Hx _].
  assert (Hget : String.get (String.length pre) text = Some x)
    by (rewrite Etext, Erun; apply get_app_length).
  assert (Hrun : all_chars is_number_char run = true).
  { rewrite Erun, !all_chars_app.
    rewrite (all_chars_weaken _ _ _ isdigit_is_number_char Hda).
    rewrite (all_chars_weaken _ _ _ isdigit_is_number_char Hdb).
    now rewrite Hc. }
  assert (Hlen : String.length text - String.length pre
                 = String.length run + String.length post).
  { rewrite Etext, !length_app. lia. }
  assert (Hskip : skip_whitespace (mkLexer text (String.length pre))
                  = String.length pre).
  { unfold skip_whitespace. cbn [input pos].
    apply advance_while_halts with (c := x);
      [exact Hget | now apply isdigit_not_isspace]. }
  assert (Hend : number_end (mkLexer text (String.length pre))
                 = String.length pre + String.length run).
  { unfold number_end. cbn [input pos]. rewrite Hlen, Etext.
    now apply advance_while_run. }
  assert (Hsub : substring (String.length pre)
                           (String.length pre + String.length run
                            - String.length pre) text = run).
  { replace (String.length pre + String.length run - String.length pre)
      with (String.length run) by lia.
    rewrite Etext. apply substring_app_middle. }
  unfold getNextToken. rewrite Hskip.
  change (set_pos (mkLexer text (String.length pre)) (String.length pre))
    with (mkLexer text (String.length pre)).
  cbv zeta. cbn [input pos]. rewrite Hget, Hx.
  unfold number. rewrite Hend. unfold set_pos. cbn [input pos].
  rewrite Hsub, Erun.
  now rewrite (stod_two_points (String x a) b c Hda Hdb).
Qed.

Lemma number_reads_up_to_second_point_witness :
  "1" <> "" /\
  all_chars isdigit "1" = true /\
  all_chars isdigit "2" = true /\
  all_chars is_number_char "3" = true /\
  ends_run is_number_char "" /\
  getNextToken (mkLexer "1.2.3" 0)
  = (v <- stod "1.2" ;; Return (mkToken NUMBER v, mkLexer "1.2.3" 5)) /\
  ((exists v, stod "1.2" = Return v)
   \/ stod "1.2" = Throw (out_of_range "stod")).
Proof.
  assert (H1 : "1" <> "") by discriminate.
  assert (H2 : all_chars isdigit "1" = true) by reflexivity.
  assert (H3 : all_chars isdigit "2" = true) by reflexivity.
  assert (H4 : all_chars is_number_char "3" = true) by reflexivity.
  assert (H5 : ends_run is_number_char "") by exact I.
  repeat (split; [assumption|]).
  exact (number_reads_up_to_second_point "" "1" "2" "3" "" H1 H2 H3 H4 H5).
Defined.

(** C7. [parse] does not ask that the input is used up: it is [expr] and
    nothing else.  The line [1+2)] parses to the sum of 1 and 2, which
    evaluates to 3, and the closing parenthesis is left as the current
    token.  In general, when a line parses to a tree, the line followed by
    any text parses to the same tree, provided that the first token of that
    text is read without an exception and is not an operator, and that no
    number runs on from the line into the text; what comes after that first
    token is never read.  So a parenthesis of either kind, and any text
    after it, is ignored after every line that parses. *)
Theorem parse_ignores_trailing_tokens :
  (forall (fuel : nat) (p : Parser), parse fuel p = expr fuel p) /\
  (let sum := BinaryOpNode PLUS (NumberNode (Double.of_N 1))
                           (NumberNode (Double.of_N 2)) in
   run_parser "1+2)"
   = Return (sum, mkParser (mkLexer "1+2)" 4) (Token_of RPAREN)) /\
   parse_line "1+2)" = Return sum /\
   evaluate sum = Return (Double.of_N 3)) /\
  (forall (line trailer : string) (ast : ASTNode) (t : Token) (l' : Lexer),
      parse_line line = Return ast ->
      getNextToken (Lexer_new trailer) = Return (t, l') ->
      type t <> PLUS -> type t <> MUL ->
      separated line trailer ->
      parse_line (line ++ trailer) = Return ast) /\
  (forall (line junk : string) (ast : ASTNode),
      parse_line line = Return ast ->
      parse_line (line ++ ")" ++ junk) = Return ast /\
      parse_line (line ++ "(" ++ junk) = Return ast).
Proof.
  split; [reflexivity|]. split; [repeat split; vm_compute; reflexivity|].
  split.
  - intros line trailer ast t l' Hline Hfirst Hplus Hmul Hsep.
    exact (parse_line_trailed line trailer t l' ast Hfirst Hsep Hplus Hmul Hline).
  - intros line junk ast Hline. split.
    + apply (parse_line_trailed line (")" ++ junk) (Token_of RPAREN)
               (mkLexer (")" ++ junk) 1) ast);
        [reflexivity | now left | discriminate | discriminate | exact Hline].
    + apply (parse_line_trailed line ("(" ++ junk) (Token_of LPAREN)
               (mkLexer ("(" ++ junk) 1) ast);
        [reflexivity | now left | discriminate | discriminate | exact Hline].
Qed.

Lemma parse_ignores_trailing_tokens_witness :
  let sum := BinaryOpNode PLUS (NumberNode (Double.of_N 1))
                          (NumberNode (Double.of_N 2)) in
  let three := mkToken NUMBER (Double.of_N 3) in
  parse_line "1+2" = Return sum /\
  getNextToken (Lexer_new " 3 (4 -") = Return (three, mkLexer " 3 (4 -" 2) /\
  type three <> PLUS /\ type three <> MUL /\
  separated "1+2" " 3 (4 -" /\
  parse_line ("1+2" ++ " 3 (4 -") = Return sum.
Proof.
  intros sum three.
  assert (H1 : parse_line "1+2" = Return sum) by (vm_compute; reflexivity).
  assert (H2 : getNextToken (Lexer_new " 3 (4 -")
               = Return (three, mkLexer " 3 (4 -" 2))
    by (vm_compute; reflexivity).
  assert (H3 : type three <> PLUS) by discriminate.
  assert (H4 : type three <> MUL) by discriminate.
  assert (H5 : separated "1+2" " 3 (4 -") by (left; reflexivity).
  repeat (split; [assumption|]).
  exact (proj1 (proj2 (proj2 parse_ignores_trailing_tokens))
               "1+2" " 3 (4 -" sum three _ H1 H2 H3 H4 H5).
Defined.

(** C7, as the specification states it, fails: not every token after a
    valid expression is ignored.  After the line [1+2], which parses to the
    sum of 1 and 2, a plus or a star is taken as the continuation of the
    expression: [1+2+] and [1+2*] are rejected, and [1+2*3] parses to another
    tree.  A number that follows without white space is read as part of the
    last number of the line: [1+23] is the sum of 1 and 23.  Nor is every
    text ignored: a character that is no token, as in [1+2-], is rejected
    as soon as the lexer looks past the last number. *)
Lemma trailing_operator_is_not_ignored :
  let one := NumberNode (Double.of_N 1) in
  let two := NumberNode (Double.of_N 2) in
  let three := NumberNode (Double.of_N 3) in
  let sum := BinaryOpNode PLUS one two in
  parse_line "1+2" = Return sum /\
  getNextToken (Lexer_new "+") = Return (Token_of PLUS, mkLexer "+" 1) /\
  getNextToken (Lexer_new "*3") = Return (Token_of MUL, mkLexer "*3" 1) /\
  parse_line ("1+2" ++ "+")
  = Throw (runtime_error "Expected number or parentheses") /\
  parse_line ("1+2" ++ "*")
  = Throw (runtime_error "Expected number or parentheses") /\
  parse_line ("1+2" ++ "*3")
  = Return (BinaryOpNode PLUS one (BinaryOpNode MUL two three)) /\
  parse_line ("1+2" ++ "3")
  = Return (BinaryOpNode PLUS one (NumberNode (Double.of_N 23))) /\
  parse_line ("1+2" ++ "-")
  = Throw (runtime_error "Invalid character in input") /\
  ~ trailing_tokens_are_ignored.
Proof.
  intros one two three sum.
  assert (H1 : parse_line "1+2" = Return sum) by (vm_compute; reflexivity).
  assert (H2 : getNextToken (Lexer_new "+") = Return (Token_of PLUS, mkLexer "+" 1))
    by reflexivity.
  split; [exact H1|]. split; [exact H2|].
  do 6 (split; [vm_compute; reflexivity|]).
  intros H.
  specialize (H "1+2" "+" sum (Token_of PLUS) (mkLexer "+" 1) H1 H2
                ltac:(discriminate)).
  vm_compute in H. discriminate H.
Qed.

(** C8. The lexer is idempotent at the end of the input.  When the cursor
    is at or past the length of the input, [getNextToken] returns [END] and
    leaves the lexer as it was, and so does every call after it: any number
    of calls in a row return [END] only and leave the cursor where it
    was. *)
Theorem getNextToken_idempotent_at_end (l : Lexer) :
  String.length (input l) <= pos l ->
  getNextToken l = Return (Token_of END, l) /\
  forall n : nat, next_tokens n l = Return (repeat (Token_of END) n, l).
Proof.
  intros H. split; [now apply getNextToken_at_end|].
  induction n as [|n IH]; simpl; [reflexivity|].
  rewrite (getNextToken_at_end l H). simpl. now rewrite IH.
Qed.

Lemma getNextToken_idempotent_at_end_witness :
  String.length (input (mkLexer "1 + 2 " 6)) <= pos (mkLexer "1 + 2 " 6) /\
  getNextToken (mkLexer "1 + 2 " 6)
  = Return (Token_of END, mkLexer "1 + 2 " 6) /\
  forall n : nat,
    next_tokens n (mkLexer "1 + 2 " 6)
    = Return (repeat (Token_of END) n, mkLexer "1 + 2 " 6).
Proof.
  split; [simpl; lia|].
  apply (getNextToken_idempotent_at_end (mkLexer "1 + 2 " 6)). simpl; lia.
Defined.

(** C9, as the code has it.  [main] never leaves its loop: whatever the
    input and however many iterations are run, it is still running.  Once
    every line of the input was read, each further iteration reads an empty
    line, writes the prompt to [std::cout] and the error of the empty line
    to [std::cerr], and goes on. *)
Theorem main_never_leaves_its_loop (stdin : list string) (k : nat) :
  (forall n : nat, exists w, main n stdin = StillRunning w) /\
  exists w,
    main (List.length stdin) stdin = StillRunning w /\
    cin w = [] /\
    main (List.length stdin + k) stdin
    = StillRunning (mkWorld [] (cout w ++ copies k ">>> ")
                            (cerr w ++ copies k empty_line_error)).
Proof.
  unfold main. split.
  - intros n. destruct (main_loop_running n (mkWorld stdin "" "")) as [w [H _]].
    now exists w.
  - destruct (main_loop_running (List.length stdin) (mkWorld stdin "" ""))
      as [w [H Hcin]].
    simpl in Hcin. rewrite skipn_all in Hcin.
    exists w. split; [exact H|]. split; [exact Hcin|].
    rewrite main_loop_add, H. destruct w as [lines out err].
    simpl in Hcin. subst lines. apply main_loop_at_end_of_input.
Qed.

(** C10. Every tree returned by [Parser::parse] has no operator other than
    [PLUS] and [MUL], so that [evaluate] returns a value on it and never
    reaches its "Unknown operator" branch. *)
Theorem parse_builds_plus_and_mul_only
        (fuel : nat) (p p' : Parser) (ast : ASTNode) :
  parse fuel p = Return (ast, p') ->
  only_plus_mul ast = true /\
  (exists v, evaluate ast = Return v) /\
  evaluate ast <> Throw (runtime_error "Unknown operator").
Proof.
  unfold parse. intros H.
  assert (Hwf : only_plus_mul ast = true)
    by (destruct (parser_only_plus_mul fuel p p' ast) as [He _]; now apply He).
  split; [exact Hwf|].
  destruct (evaluate_only_plus_mul ast Hwf) as [v Hv].
  split; [now exists v | rewrite Hv; discriminate].
Qed.

Lemma parse_builds_plus_and_mul_only_witness :
  let p := mkParser (mkLexer "2 + 3 * 4" 1) (mkToken NUMBER (Double.of_N 2)) in
  let p' := mkParser (mkLexer "2 + 3 * 4" 9) (Token_of END) in
  let num n := NumberNode (Double.of_N n) in
  let ast := BinaryOpNode PLUS (num 2%N) (BinaryOpNode MUL (num 3%N) (num 4%N)) in
  parse 12 p = Return (ast, p') /\
  only_plus_mul ast = true /\
  (exists v, evaluate ast = Return v) /\
  evaluate ast <> Throw (runtime_error "Unknown operator").
Proof.
  intros p p' num ast.
  assert (H : parse 12 p = Return (ast, p')) by (vm_compute; reflexivity).
  split; [exact H|].
  exact (parse_builds_plus_and_mul_only 12 p p' ast H).
Defined.

(** * Further properties of the code *)

(** ** The cursor of the lexer *)

Lemma getNextToken_cursor (l l' : Lexer) (t : Token) :
  getNextToken l = Return (t, l') ->
  input l' = input l /\
  pos l <= pos l' /\
  pos l' <= Nat.max (pos l) (String.length (input l)) /\
  (if TokenType_eqb (type t) END
   then String.length (input l) <= pos l'
   else pos l < pos l' /\ pos l' <= String.length (input l)).
Proof.
  unfold getNextToken.
  pose proof (skip_whitespace_ge l) as Hge.
  assert (Hle : skip_whitespace l <= Nat.max (pos l) (String.length (input l)))
    by apply advance_while_le.
  set (q := skip_whitespace l) in *. clearbody q.
  unfold set_pos. cbv zeta. cbn [input pos].
  destruct (String.get q (input l)) as [c|] eqn:Hget.
  - pose proof (get_Some_lt _ _ _ Hget) as Hlt.
    destruct (isdigit c) eqn:Hd.
    + unfold number, number_end, set_pos. cbn [input pos].
      assert (Hstep : q < advance_while is_number_char (input l)
                            (String.length (input l) - q) q).
      { apply advance_while_step with (c := c); [exact Hget|].
        unfold is_number_char. now rewrite Hd. }
      pose proof (advance_while_le is_number_char (input l)
                    (String.length (input l) - q) q) as Hle'.
      destruct (stod _); simpl; try discriminate.
      intros [= <- <-]. cbn. repeat split; solve [reflexivity | lia].
    + destruct (c =? "+")%char;
        [intros [= <- <-]; cbn; repeat split; solve [reflexivity | lia]|].
      destruct (c =? "*")%char;
        [intros [= <- <-]; cbn; repeat split; solve [reflexivity | lia]|].
      destruct (c =? "(")%char;
        [intros [= <- <-]; cbn; repeat split; solve [reflexivity | lia]|].
      destruct (c =? ")")%char;
        [intros [= <- <-]; cbn; repeat split; solve [reflexivity | lia]|].
      discriminate.
  - apply get_None_iff in Hget. intros [= <- <-]. cbn. repeat split; solve [reflexivity | lia].
Qed.

(** X1. [getNextToken] keeps its input, never moves the cursor backwards
    and never moves it past the end of the input.  A token other than [END]
    is made of at least one character; [END] is returned only with the
    cursor at the end. *)
Theorem getNextToken_keeps_cursor_in_input (l l' : Lexer) (t : Token) :
  pos l <= String.length (input l) ->
  getNextToken l = Return (t, l') ->
  input l' = input l /\
  pos l <= pos l' <= String.length (input l) /\
  (type t <> END -> pos l < pos l') /\
  (type t = END -> pos l' = String.length (input l)).
Proof.
  intros Hpos H. apply getNextToken_cursor in H as (Hin & Hge & Hle & Ht).
  split; [exact Hin|]. split; [lia|].
  destruct (TokenType_eqb (type t) END) eqn:Heq.
  - apply TokenType_eqb_eq in Heq. split; [congruence | intros _; lia].
  - split; [intros _; lia|].
    intros Hend. rewrite Hend in Heq. discriminate.
Qed.

Lemma getNextToken_keeps_cursor_in_input_witness :
  let l := mkLexer "12 + 3" 2 in
  let l' := mkLexer "12 + 3" 4 in
  pos l <= String.length (input l) /\
  getNextToken l = Return (Token_of PLUS, l') /\
  input l' = input l /\
  pos l <= pos l' <= String.length (input l) /\
  (type (Token_of PLUS) <> END -> pos l < pos l') /\
  (type (Token_of PLUS) = END -> pos l' = String.length (input l)).
Proof.
  intros l l'.
  assert (H1 : pos l <= String.length (input l)) by (simpl; lia).
  assert (H2 : getNextToken l = Return (Token_of PLUS, l')) by reflexivity.
  split; [exact H1|]. split; [exact H2|].
  exact (getNextToken_keeps_cursor_in_input l l' (Token_of PLUS) H1 H2).
Defined.

(** X2. White space before a token is not part of it: moving the cursor
    over any of the white space that [getNextToken] would skip does not
    change the token it returns, nor the lexer it leaves. *)
Theorem getNextToken_skips_white_space (l : Lexer) (q : nat) :
  pos l <= q <= skip_whitespace l ->
  getNextToken (set_pos l q) = getNextToken l.
Proof. apply getNextToken_from_white_space. Qed.

Lemma getNextToken_skips_white_space_witness :
  let l := mkLexer "1   + 2" 1 in
  pos l <= 3 <= skip_whitespace l /\
  getNextToken (set_pos l 3) = getNextToken l.
Proof.
  intros l.
  assert (H : pos l <= 3 <= skip_whitespace l) by (vm_compute; lia).
  split; [exact H|].
  exact (getNextToken_skips_white_space l 3 H).
Defined.

(** ** Lines that are rejected at their first token *)

Lemma skip_whitespace_prefix (ws post : string) :
  all_chars isspace ws = true -> ends_run isspace post ->
  skip_whitespace (Lexer_new (ws ++ post)) = String.length ws.
Proof.
  intros Hws Hpost. unfold skip_whitespace, Lexer_new. cbn [input pos].
  rewrite Nat.sub_0_r, length_app.
  exact (advance_while_run isspace ws post Hws Hpost "").
Qed.

Lemma expr_rejects (n : nat) (p : Parser) :
  type (current_token p) <> NUMBER ->
  type (current_token p) <> LPAREN ->
  expr (S (S (S n))) p = Throw (runtime_error "Expected number or parentheses").
Proof.
  intros Hn Hl. rewrite expr_S, term_S, factor_S.
  destruct (TokenType_eqb (type (current_token p)) NUMBER) eqn:E1;
    [now apply TokenType_eqb_eq in E1|].
  destruct (TokenType_eqb (type (current_token p)) LPAREN) eqn:E2;
    [now apply TokenType_eqb_eq in E2|].
  reflexivity.
Qed.

Lemma run_parser_rejects (line : string) (t : Token) (l : Lexer) :
  getNextToken (Lexer_new line) = Return (t, l) ->
  type t <> NUMBER -> type t <> LPAREN ->
  parse_line line = Throw (runtime_error "Expected number or parentheses").
Proof.
  intros Hnext Hn Hl. unfold parse_line, run_parser, Parser_new.
  rewrite Hnext. simpl. unfold parse, fuel_for.
  rewrite Nat.add_comm. cbn [Nat.add].
  now rewrite expr_rejects.
Qed.

(** X3. A line is rejected at its first token when that token cannot start
    an expression, whatever follows it.  A line of white space only, and a
    line whose first character after white space is a closing parenthesis,
    a plus or a star, fail with "Expected number or parentheses"; a line
    whose first character after white space is an unsupported one fails
    with "Invalid character in input".  Nothing after that character is
    read. *)
Theorem line_is_rejected_at_its_first_token
        (ws rest : string) (c : ascii) :
  all_chars isspace ws = true ->
  parse_line ws = Throw (runtime_error "Expected number or parentheses") /\
  (c = ")"%char \/ c = "+"%char \/ c = "*"%char ->
   parse_line (ws ++ String c rest)
   = Throw (runtime_error "Expected number or parentheses")) /\
  (isspace c = false -> supported c = false ->
   parse_line (ws ++ String c rest)
   = Throw (runtime_error "Invalid character in input")).
Proof.
  intros Hws. split; [|split].
  - pose proof (skip_whitespace_prefix ws "" Hws I) as Hskip.
    rewrite string_app_nil_r in Hskip.
    apply run_parser_rejects
      with (t := Token_of END) (l := mkLexer ws (String.length ws));
      try discriminate.
    unfold getNextToken. rewrite Hskip. unfold set_pos, Lexer_new.
    cbv zeta. cbn [input pos].
    assert (H : String.get (String.length ws) ws = None)
      by (now apply get_None_iff).
    now rewrite H.
  - intros Hc.
    assert (Hsp : isspace c = false) by (destruct Hc as [->|[->| ->]]; reflexivity).
    pose proof (skip_whitespace_prefix ws (String c rest) Hws Hsp) as Hskip.
    assert (Hnext : exists t,
               getNextToken (Lexer_new (ws ++ String c rest))
               = Return (t, mkLexer (ws ++ String c rest) (S (String.length ws)))
               /\ type t <> NUMBER /\ type t <> LPAREN).
    { unfold getNextToken. rewrite Hskip. unfold set_pos, Lexer_new.
      cbv zeta. cbn [input pos]. rewrite get_app_length.
      destruct Hc as [->|[->| ->]]; cbn; eexists;
        (split; [reflexivity | split; discriminate]). }
    destruct Hnext as (t & Hnext & Hn & Hl).
    exact (run_parser_rejects _ t _ Hnext Hn Hl).
  - intros Hsp Hc.
    pose proof (skip_whitespace_prefix ws (String c rest) Hws Hsp) as Hskip.
    unfold parse_line, run_parser, Parser_new, getNextToken.
    rewrite Hskip. unfold set_pos, Lexer_new. cbv zeta. cbn [input pos].
    rewrite get_app_length.
    unfold supported in Hc.
    repeat (apply orb_false_elim in Hc as [Hc ?]).
    now repeat match goal with H : _ = false |- _ => rewrite H; clear H end.
Qed.

Lemma line_is_rejected_at_its_first_token_witness :
  all_chars isspace "  " = true /\
  parse_line "  " = Throw (runtime_error "Expected number or parentheses") /\
  parse_line ("  " ++ String ")" "1 - 2")
  = Throw (runtime_error "Expected number or parentheses") /\
  parse_line ("  " ++ String "-" "1")
  = Throw (runtime_error "Invalid character in input").
Proof.
  assert (H : all_chars isspace "  " = true) by reflexivity.
  split; [exact H|].
  pose proof (line_is_rejected_at_its_first_token "  " "1 - 2" ")" H)
    as (H1 & H2 & _).
  pose proof (line_is_rejected_at_its_first_token "  " "1" "-" H)
    as (_ & _ & H3).
  split; [exact H1|]. split; [apply H2; now left|].
  apply H3; reflexivity.
Defined.

(** ** Where the parser stops and how much it builds *)

Lemma parser_stops (n : nat) :
  forall (p p' : Parser) (a : ASTNode),
    (expr n p = Return (a, p') ->
     type (current_token p') <> PLUS /\ type (current_token p') <> MUL) /\
    (forall node, type (current_token p) <> MUL ->
                  expr_loop n node p = Return (a, p') ->
                  type (current_token p') <> PLUS
                  /\ type (current_token p') <> MUL) /\
    (term n p = Return (a, p') -> type (current_token p') <> MUL) /\
    (forall node, term_loop n node p = Return (a, p') ->
                  type (current_token p') <> MUL).
Proof.
  induction n as [|n IH]; intros p p' a.
  { repeat split; simpl; intros; discriminate. }
  assert (IHeloop : forall q q' b node,
             type (current_token q) <> MUL ->
             expr_loop n node q = Return (b, q') ->
             type (current_token q') <> PLUS /\ type (current_token q') <> MUL)
    by (intros q q' b; apply IH).
  assert (IHterm : forall q q' b, term n q = Return (b, q') ->
                                  type (current_token q') <> MUL)
    by (intros q q' b; apply IH).
  assert (IHtloop : forall q q' b node,
             term_loop n node q = Return (b, q') ->
             type (current_token q') <> MUL)
    by (intros q q' b; apply IH).
  clear IH.
  split; [|split; [|split]].
  - rewrite expr_S.
    destruct (term n p) as [[node p1]| |] eqn:Ht; simpl; try discriminate.
    apply IHeloop. now apply IHterm in Ht.
  - intros node Hmul. rewrite expr_loop_S.
    destruct (TokenType_eqb (type (current_token p)) PLUS) eqn:Hop.
    + destruct (consume PLUS p) as [p1| |]; simpl; try discriminate.
      destruct (term n p1) as [[rhs p2]| |] eqn:Ht; simpl; try discriminate.
      apply IHeloop. now apply IHterm in Ht.
    + intros [= <- <-]. split; [|exact Hmul].
      intros H. rewrite H in Hop. discriminate.
  - rewrite term_S.
    destruct (factor n p) as [[node p1]| |]; simpl; try discriminate.
    apply IHtloop.
  - intros node. rewrite term_loop_S.
    destruct (TokenType_eqb (type (current_token p)) MUL) eqn:Hop.
    + destruct (consume MUL p) as [p1| |]; simpl; try discriminate.
      destruct (factor n p1) as [[rhs p2]| |]; simpl; try discriminate.
      apply IHtloop.
    + intros [= <- <-]. intros H. rewrite H in Hop. discriminate.
Qed.

(** X4. [parse] returns only when the current token is neither a plus nor
    a star: an operator after an operand is always taken as the
    continuation of the expression, never left as a trailing token. *)
Theorem parse_stops_at_no_operator
        (fuel : nat) (p p' : Parser) (ast : ASTNode) :
  parse fuel p = Return (ast, p') ->
  type (current_token p') <> PLUS /\ type (current_token p') <> MUL.
Proof.
  unfold parse. intros H.
  destruct (parser_stops fuel p p' ast) as [He _]. now apply He.
Qed.

Lemma parse_stops_at_no_operator_witness :
  let p := mkParser (mkLexer "1+2)*3" 1) (mkToken NUMBER (Double.of_N 1)) in
  let p' := mkParser (mkLexer "1+2)*3" 4) (Token_of RPAREN) in
  let ast := BinaryOpNode PLUS (NumberNode (Double.of_N 1))
                          (NumberNode (Double.of_N 2)) in
  parse 12 p = Return (ast, p') /\
  type (current_token p') <> PLUS /\ type (current_token p') <> MUL.
Proof.
  intros p p' ast.
  assert (H : parse 12 p = Return (ast, p')) by (vm_compute; reflexivity).
  split; [exact H|].
  exact (parse_stops_at_no_operator 12 p p' ast H).
Defined.

Lemma parser_builds (n : nat) :
  forall (p p' : Parser) (a : ASTNode),
    (expr n p = Return (a, p') -> nodes a + remaining p' <= remaining p) /\
    (forall node, expr_loop n node p = Return (a, p') ->
                  nodes a + remaining p' <= nodes node + remaining p) /\
    (term n p = Return (a, p') -> nodes a + remaining p' <= remaining p) /\
    (forall node, term_loop n node p = Return (a, p') ->
                  nodes a + remaining p' <= nodes node + remaining p) /\
    (factor n p = Return (a, p') -> nodes a + remaining p' <= remaining p).
Proof.
  induction n as [|n IH]; intros p p' a.
  { repeat split; simpl; intros; discriminate. }
  assert (IHexpr : forall q q' b, expr n q = Return (b, q') ->
                                  nodes b + remaining q' <= remaining q)
    by (intros q q' b; apply IH).
  assert (IHeloop : forall q q' b node,
             expr_loop n node q = Return (b, q') ->
             nodes b + remaining q' <= nodes node + remaining q)
    by (intros q q' b; apply IH).
  assert (IHterm : forall q q' b, term n q = Return (b, q') ->
                                  nodes b + remaining q' <= remaining q)
    by (intros q q' b; apply IH).
  assert (IHtloop : forall q q' b node,
             term_loop n node q = Return (b, q') ->
             nodes b + remaining q' <= nodes node + remaining q)
    by (intros q q' b; apply IH).
  assert (IHfactor : forall q q' b, factor n q = Return (b, q') ->
                                    nodes b + remaining q' <= remaining q)
    by (intros q q' b; apply IH).
  clear IH.
  split; [|split; [|split; [|split]]].
  - rewrite expr_S.
    destruct (term n p) as [[node p1]| |] eqn:Ht; simpl; try discriminate.
    apply IHterm in Ht. intros H. apply IHeloop in H. lia.
  - intros node. rewrite expr_loop_S.
    destruct (TokenType_eqb (type (current_token p)) PLUS).
    + destruct (consume PLUS p) as [p1| |] eqn:Hc; simpl; try discriminate.
      apply consume_Return in Hc as [_ Hc]; simpl in Hc.
      destruct (term n p1) as [[rhs p2]| |] eqn:Ht; simpl; try discriminate.
      apply IHterm in Ht. intros H. apply IHeloop in H. simpl in H. lia.
    + intros [= <- <-]. lia.
  - rewrite term_S.
    destruct (factor n p) as [[node p1]| |] eqn:Hf; simpl; try discriminate.
    apply IHfactor in Hf. intros H. apply IHtloop in H. lia.
  - intros node. rewrite term_loop_S.
    destruct (TokenType_eqb (type (current_token p)) MUL).
    + destruct (consume MUL p) as [p1| |] eqn:Hc; simpl; try discriminate.
      apply consume_Return in Hc as [_ Hc]; simpl in Hc.
      destruct (factor n p1) as [[rhs p2]| |] eqn:Hf; simpl; try discriminate.
      apply IHfactor in Hf. intros H. apply IHtloop in H. simpl in H. lia.
    + intros [= <- <-]. lia.
  - rewrite factor_S.
    destruct (TokenType_eqb (type (current_token p)) NUMBER).
    { destruct (consume NUMBER p) as [p1| |] eqn:Hc; simpl; try discriminate.
      apply consume_Return in Hc as [_ Hc]; simpl in Hc.
      intros [= <- <-]. simpl. lia. }
    destruct (TokenType_eqb (type (current_token p)) LPAREN);
      [|discriminate].
    destruct (consume LPAREN p) as [p1| |] eqn:Hc; simpl; try discriminate.
    apply consume_Return in Hc as [_ Hc]; simpl in Hc.
    destruct (expr n p1) as [[node p2]| |] eqn:He; simpl; try discriminate.
    apply IHexpr in He.
    destruct (consume RPAREN p2) as [p3| |] eqn:Hc2; simpl; try discriminate.
    apply consume_Return in Hc2 as [_ Hc2]; simpl in Hc2.
    intros [= <- <-]. lia.
Qed.

Lemma Parser_new_remaining (line : string) (p : Parser) :
  Parser_new (Lexer_new line) = Return p -> remaining p <= String.length line.
Proof.
  unfold Parser_new.
  destruct (getNextToken (Lexer_new line)) as [[t l]| |] eqn:Hnext;
    simpl; try discriminate.
  intros [= <-]. apply getNextToken_advances in Hnext as [Hin Hlen].
  unfold remaining. simpl in *. rewrite Hin. lia.
Qed.

(** X5. Every node of the tree is paid for by a token: a tree returned by
    [parse] has at most as many nodes as tokens and characters were
    consumed for it, and the tree of a line has at most as many nodes as the
    line has characters. *)
Theorem tree_is_no_larger_than_its_text :
  (forall (fuel : nat) (p p' : Parser) (ast : ASTNode),
      parse fuel p = Return (ast, p') ->
      nodes ast + remaining p' <= remaining p) /\
  (forall (line : string) (ast : ASTNode),
      parse_line line = Return ast -> nodes ast <= String.length line).
Proof.
  split.
  - intros fuel p p' ast H. unfold parse in H.
    destruct (parser_builds fuel p p' ast) as [He _]. now apply He.
  - intros line ast. unfold parse_line, run_parser.
    destruct (Parser_new (Lexer_new line)) as [p| |] eqn:Hnew;
      simpl; try discriminate.
    apply Parser_new_remaining in Hnew.
    destruct (parse (fuel_for p) p) as [[a p']| |] eqn:Hp;
      simpl; try discriminate.
    intros [= <-]. unfold parse in Hp.
    destruct (parser_builds (fuel_for p) p p' a) as [He _].
    apply He in Hp. lia.
Qed.

Lemma tree_is_no_larger_than_its_text_witness :
  let ast := BinaryOpNode PLUS (NumberNode (Double.of_N 1))
                          (NumberNode (Double.of_N 2)) in
  parse_line "1+2" = Return ast /\ nodes ast <= String.length "1+2".
Proof.
  intros ast.
  assert (H : parse_line "1+2" = Return ast) by (vm_compute; reflexivity).
  split; [exact H|].
  exact (proj2 tree_is_no_larger_than_its_text "1+2" ast H).
Defined.

(** X6. The parser always comes to an end.  From every parser state,
    fuel linear in what is left of the input lets [parse] return or throw,
    and more fuel never changes that outcome; so every line is either
    parsed to a tree or rejected with an exception. *)
Theorem parser_always_comes_to_an_end :
  (forall (p : Parser) (k : nat),
      parse (fuel_for p) p <> OutOfFuel /\
      parse (fuel_for p + k) p = parse (fuel_for p) p /\
      fuel_for p <= 3 * String.length (input (lexer p)) + 6) /\
  (forall line : string,
      (exists ast, parse_line line = Return ast)
      \/ (exists e, parse_line line = Throw e)).
Proof.
  split.
  - intros p k. split; [apply expr_fuel_enough|]. split.
    + apply parse_fuel_irrelevant. lia.
    + unfold fuel_for, remaining.
      destruct (TokenType_eqb (type (current_token p)) END); lia.
  - intros line. pose proof (parse_total line) as H.
    destruct (parse_line line) as [ast|e|]; [left | right | congruence]; eauto.
Qed.

(** ** The exceptions of a line *)

Lemma substring_first (s : string) (q m : nat) (c : ascii) :
  String.get q s = Some c ->
  substring q (S m) s = String c (substring (S q) m s).
Proof.
  revert q; induction s as [|x s IH]; intros q; simpl; [discriminate|].
  destruct q as [|q]; [now intros [= ->] | apply IH].
Qed.

Lemma stod_literal_digit_first (c : ascii) (rest : string) :
  isdigit c = true ->
  exists a fp, stod_literal (String c rest) = (String c a, fp).
Proof.
  intros Hc. unfold stod_literal. simpl. rewrite Hc.
  destruct (span isdigit rest) as [a b]. exists a.
  destruct b as [|x b]; [now eexists|].
  destruct x as [[] [] [] [] [] [] [] []]; now eexists.
Qed.

(** On a string that starts with a digit, [std::stod] has something to
    convert: it can only fail for a value out of range. *)
Lemma stod_digit_first (c : ascii) (rest : string) (e : exception) :
  isdigit c = true -> stod (String c rest) = Throw e -> e = out_of_range "stod".
Proof.
  intros Hc. unfold stod.
  destruct (stod_literal_digit_first c rest Hc) as (a & fp & ->).
  cbv zeta. destruct (digits_value _ _); [discriminate|].
  destruct (Double.of_ratio _ _); try (now intros [= <-]);
    (destruct (stod_underflows _ _ _); [now intros [= <-] | discriminate]).
Qed.

Lemma getNextToken_throws (l : Lexer) (e : exception) :
  getNextToken l = Throw e ->
  e = runtime_error "Invalid character in input" \/ e = out_of_range "stod".
Proof.
  unfold getNextToken. set (q := skip_whitespace l). clearbody q.
  unfold set_pos. cbv zeta. cbn [input pos].
  destruct (String.get q (input l)) as [c|] eqn:Hget; [|discriminate].
  destruct (isdigit c) eqn:Hd.
  - unfold number, number_end, set_pos. cbn [input pos].
    assert (Hstep : q < advance_while is_number_char (input l)
                          (String.length (input l) - q) q).
    { apply advance_while_step with (c := c); [exact Hget|].
      unfold is_number_char. now rewrite Hd. }
    set (e' := advance_while is_number_char (input l)
                             (String.length (input l) - q) q) in *.
    clearbody e'.
    replace (e' - q) with (S (e' - q - 1)) by lia.
    rewrite (substring_first _ _ _ _ Hget).
    destruct (stod _) eqn:Hs; simpl; try discriminate.
    intros [= <-]. right. exact (stod_digit_first _ _ _ Hd Hs).
  - destruct (c =? "+")%char; [discriminate|].
    destruct (c =? "*")%char; [discriminate|].
    destruct (c =? "(")%char; [discriminate|].
    destruct (c =? ")")%char; [discriminate|].
    intros [= <-]. now left.
Qed.

Lemma consume_throws (expected : TokenType) (p : Parser) (e : exception) :
  consume expected p = Throw e -> thrown_by_parser e.
Proof.
  unfold consume, thrown_by_parser.
  destruct (TokenType_eqb (type (current_token p)) expected).
  - destruct (getNextToken (lexer p)) as [[t l]| |] eqn:Hnext;
      simpl; try discriminate.
    intros [= <-]. apply getNextToken_throws in Hnext as [->| ->]; auto.
  - intros [= <-]. auto.
Qed.

Lemma parser_throws (n : nat) :
  forall (p : Parser) (e : exception),
    (expr n p = Throw e -> thrown_by_parser e) /\
    (forall node, expr_loop n node p = Throw e -> thrown_by_parser e) /\
    (term n p = Throw e -> thrown_by_parser e) /\
    (forall node, term_loop n node p = Throw e -> thrown_by_parser e) /\
    (factor n p = Throw e -> thrown_by_parser e).
Proof.
  induction n as [|n IH]; intros p e.
  { repeat split; simpl; intros; discriminate. }
  assert (IHexpr : forall q, expr n q = Throw e -> thrown_by_parser e)
    by (intros q; apply IH).
  assert (IHeloop : forall q node, expr_loop n node q = Throw e ->
                                   thrown_by_parser e)
    by (intros q node; apply IH).
  assert (IHterm : forall q, term n q = Throw e -> thrown_by_parser e)
    by (intros q; apply IH).
  assert (IHtloop : forall q node, term_loop n node q = Throw e ->
                                   thrown_by_parser e)
    by (intros q node; apply IH).
  assert (IHfactor : forall q, factor n q = Throw e -> thrown_by_parser e)
    by (intros q; apply IH).
  clear IH.
  split; [|split; [|split; [|split]]].
  - rewrite expr_S.
    destruct (term n p) as [[node p1]| |] eqn:Ht; simpl; try discriminate.
    + apply IHeloop.
    + intros [= <-]. now apply IHterm in Ht.
  - intros node. rewrite expr_loop_S.
    destruct (TokenType_eqb (type (current_token p)) PLUS); [|discriminate].
    destruct (consume PLUS p) as [p1| |] eqn:Hc; simpl; try discriminate;
      [|intros [= <-]; now apply consume_throws in Hc].
    destruct (term n p1) as [[rhs p2]| |] eqn:Ht; simpl; try discriminate.
    + apply IHeloop.
    + intros [= <-]. now apply IHterm in Ht.
  - rewrite term_S.
    destruct (factor n p) as [[node p1]| |] eqn:Hf; simpl; try discriminate.
    + apply IHtloop.
    + intros [= <-]. now apply IHfactor in Hf.
  - intros node. rewrite term_loop_S.
    destruct (TokenType_eqb (type (current_token p)) MUL); [|discriminate].
    destruct (consume MUL p) as [p1| |] eqn:Hc; simpl; try discriminate;
      [|intros [= <-]; now apply consume_throws in Hc].
    destruct (factor n p1) as [[rhs p2]| |] eqn:Hf; simpl; try discriminate.
    + apply IHtloop.
    + intros [= <-]. now apply IHfactor in Hf.
  - rewrite factor_S.
    destruct (TokenType_eqb (type (current_token p)) NUMBER).
    { destruct (consume NUMBER p) as [p1| |] eqn:Hc; simpl; try discriminate.
      intros [= <-]. now apply consume_throws in Hc. }
    destruct (TokenType_eqb (type (current_token p)) LPAREN);
      [|intros [= <-]; unfold thrown_by_parser; auto].
    destruct (consume LPAREN p) as [p1| |] eqn:Hc; simpl; try discriminate;
      [|intros [= <-]; now apply consume_throws in Hc].
    destruct (expr n p1) as [[node p2]| |] eqn:He; simpl; try discriminate;
      [|intros [= <-]; now apply IHexpr in He].
    destruct (consume RPAREN p2) as [p3| |] eqn:Hc2; simpl; try discriminate.
    intros [= <-]. now apply consume_throws in Hc2.
Qed.

Lemma parse_line_throws (line : string) (e : exception) :
  parse_line line = Throw e -> thrown_by_parser e.
Proof.
  unfold parse_line, run_parser, Parser_new.
  destruct (getNextToken (Lexer_new line)) as [[t l]| |] eqn:Hnext; simpl.
  - destruct (parse _ _) as [[a p']| |] eqn:Hp; simpl; try discriminate.
    intros [= ->]. unfold parse in Hp.
    destruct (parser_throws (fuel_for (mkParser l t)) (mkParser l t) e)
      as [He _].
    now apply He.
  - intros [= ->]. unfold thrown_by_parser.
    apply getNextToken_throws in Hnext as [->| ->]; auto.
  - discriminate.
Qed.

Lemma parse_line_only_plus_mul (line : string) (ast : ASTNode) :
  parse_line line = Return ast -> only_plus_mul ast = true.
Proof.
  unfold parse_line.
  destruct (run_parser line) as [[a p']| |] eqn:Hrun; simpl; try discriminate.
  intros [= <-]. unfold run_parser in Hrun.
  destruct (Parser_new (Lexer_new line)) as [p| |]; simpl in Hrun;
    try discriminate.
  unfold parse in Hrun.
  destruct (parser_only_plus_mul (fuel_for p) p p' a) as [He _].
  now apply He.
Qed.

(** X7. Parsing a line can end with four exceptions and no other: the
    three [std::runtime_error]s of the lexer and the parser, and the
    [std::out_of_range] of [std::stod].  [std::stod] is only given text that
    starts with a digit, so its [std::invalid_argument] is never thrown. *)
Theorem line_fails_with_one_of_four_exceptions (line : string) (e : exception) :
  parse_line line = Throw e ->
  thrown_by_parser e /\ e <> invalid_argument "stod".
Proof.
  intros H. apply parse_line_throws in H. split; [exact H|].
  destruct H as [->|[->|[->| ->]]]; discriminate.
Qed.

Lemma line_fails_with_one_of_four_exceptions_witness :
  parse_line ("9" ++ Format.zeros 400) = Throw (out_of_range "stod") /\
  thrown_by_parser (out_of_range "stod") /\
  out_of_range "stod" <> invalid_argument "stod".
Proof.
  assert (H : parse_line ("9" ++ Format.zeros 400) = Throw (out_of_range "stod"))
    by (vm_compute; reflexivity).
  split; [exact H|].
  exact (line_fails_with_one_of_four_exceptions _ _ H).
Defined.

(** ** What one iteration of [main] writes *)

(** X8. An iteration of [main] answers its line in full or not at all.
    Either the line parses, and the prompt, the infix form, the tree and
    the result are written to [std::cout] and nothing to [std::cerr]; or
    parsing fails, and only the prompt is written to [std::cout] and one
    line, "Error: " and one of the four messages, to [std::cerr].  The
    "Unknown operator" of [evaluate] is never reported. *)
Theorem iteration_answers_in_full_or_not_at_all (w : World) :
  let line := fst (getline w) in
  let rest := tl (cin w) in
  (exists ast v,
      parse_line line = Return ast /\
      evaluate ast = Return v /\
      iteration w
      = Some (mkWorld rest
                (cout w ++ ">>> " ++ "Infix notation: " ++ print_infix ast
                 ++ newline ++ "Tree structure:" ++ newline
                 ++ print_tree ast 0
                 ++ "Result: " ++ Format.to_string v ++ newline)
                (cerr w)))
  \/ (exists e,
         parse_line line = Throw e /\
         thrown_by_parser e /\
         iteration w
         = Some (mkWorld rest (cout w ++ ">>> ")
                         (cerr w ++ "Error: " ++ what e ++ newline))).
Proof.
  intros line rest.
  assert (Hcases :
            (exists ast v, parse_line line = Return ast
                           /\ evaluate ast = Return v)
            \/ (exists e, parse_line line = Throw e /\ thrown_by_parser e)).
  { destruct (parse_line line) as [ast|e|] eqn:Hp.
    - left. pose proof (parse_line_only_plus_mul line ast Hp) as Hwf.
      destruct (evaluate_only_plus_mul ast Hwf) as [v Hv]. now exists ast, v.
    - right. exists e. split; [reflexivity | exact (parse_line_throws line e Hp)].
    - now apply parse_total in Hp. }
  assert (Hline : getline (write_cout ">>> " w)
                  = (line, mkWorld rest (cout w ++ ">>> ") (cerr w))).
  { unfold line, rest, getline, write_cout. destruct w as [lines out err].
    now destruct lines. }
  unfold iteration. rewrite Hline.
  destruct Hcases as [(ast & v & Hp & Hv)|(e & Hp & He)].
  - left. exists ast, v. split; [exact Hp|]. split; [exact Hv|].
    rewrite Hp, Hv. unfold write_cout. cbn [cin cout cerr].
    now rewrite !string_app_assoc.
  - right. exists e. split; [exact Hp|]. split; [exact He|].
    rewrite Hp. reflexivity.
Qed.

(** ** Lines with the same tokens *)

Section Bisimulation.

Variable R : Lexer -> Lexer -> Prop.
Hypothesis R_step : lexer_bisimulation R.

Lemma consume_agree (expected : TokenType) (p1 p2 : Parser) :
  related R p1 p2 ->
  agree_parser R (consume expected p1) (consume expected p2).
Proof.
  intros [Hcur HR]. unfold consume. rewrite Hcur.
  destruct (TokenType_eqb (type (current_token p2)) expected);
    [|reflexivity].
  specialize (R_step _ _ HR).
  destruct (getNextToken (lexer p1)) as [[t1 l1]| |],
           (getNextToken (lexer p2)) as [[t2 l2]| |];
    simpl in *; try contradiction; exact R_step.
Qed.

Lemma parser_agree (n : nat) :
  forall p1 p2 : Parser,
    related R p1 p2 ->
    agree_tree R (expr n p1) (expr n p2) /\
    (forall node, agree_tree R (expr_loop n node p1) (expr_loop n node p2)) /\
    agree_tree R (term n p1) (term n p2) /\
    (forall node, agree_tree R (term_loop n node p1) (term_loop n node p2)) /\
    agree_tree R (factor n p1) (factor n p2).
Proof.
  induction n as [|n IH]; intros p1 p2 Hrel.
  { repeat split; intros; exact I. }
  assert (IHexpr : forall q1 q2, related R q1 q2 ->
                                 agree_tree R (expr n q1) (expr n q2))
    by (intros q1 q2 H; now apply IH).
  assert (IHeloop : forall q1 q2 node,
             related R q1 q2 ->
             agree_tree R (expr_loop n node q1) (expr_loop n node q2))
    by (intros q1 q2 node H; now apply IH).
  assert (IHterm : forall q1 q2, related R q1 q2 ->
                                 agree_tree R (term n q1) (term n q2))
    by (intros q1 q2 H; now apply IH).
  assert (IHtloop : forall q1 q2 node,
             related R q1 q2 ->
             agree_tree R (term_loop n node q1) (term_loop n node q2))
    by (intros q1 q2 node H; now apply IH).
  assert (IHfactor : forall q1 q2, related R q1 q2 ->
                                   agree_tree R (factor n q1) (factor n q2))
    by (intros q1 q2 H; now apply IH).
  clear IH.
  pose proof Hrel as [Hcur _].
  split; [|split; [|split; [|split]]].
  - rewrite !expr_S. specialize (IHterm _ _ Hrel).
    destruct (term n p1) as [[a1 q1]| |], (term n p2) as [[a2 q2]| |];
      simpl in *; try contradiction; try exact IHterm.
    destruct IHterm as [-> Hq]. now apply IHeloop.
  - intros node. rewrite !expr_loop_S. rewrite Hcur.
    destruct (TokenType_eqb (type (current_token p2)) PLUS);
      [|simpl; now split].
    pose proof (consume_agree PLUS _ _ Hrel) as Hc.
    destruct (consume PLUS p1) as [q1| |], (consume PLUS p2) as [q2| |];
      simpl in *; try contradiction; try exact Hc.
    specialize (IHterm _ _ Hc).
    destruct (term n q1) as [[a1 r1]| |], (term n q2) as [[a2 r2]| |];
      simpl in *; try contradiction; try exact IHterm.
    destruct IHterm as [-> Hr]. now apply IHeloop.
  - rewrite !term_S. specialize (IHfactor _ _ Hrel).
    destruct (factor n p1) as [[a1 q1]| |], (factor n p2) as [[a2 q2]| |];
      simpl in *; try contradiction; try exact IHfactor.
    destruct IHfactor as [-> Hq]. now apply IHtloop.
  - intros node. rewrite !term_loop_S. rewrite Hcur.
    destruct (TokenType_eqb (type (current_token p2)) MUL);
      [|simpl; now split].
    pose proof (consume_agree MUL _ _ Hrel) as Hc.
    destruct (consume MUL p1) as [q1| |], (consume MUL p2) as [q2| |];
      simpl in *; try contradiction; try exact Hc.
    specialize (IHfactor _ _ Hc).
    destruct (factor n q1) as [[a1 r1]| |], (factor n q2) as [[a2 r2]| |];
      simpl in *; try contradiction; try exact IHfactor.
    destruct IHfactor as [-> Hr]. now apply IHtloop.
  - rewrite !factor_S. rewrite Hcur.
    destruct (TokenType_eqb (type (current_token p2)) NUMBER).
    { pose proof (consume_agree NUMBER _ _ Hrel) as Hc.
      destruct (consume NUMBER p1) as [q1| |], (consume NUMBER p2) as [q2| |];
        simpl in *; try contradiction; try exact Hc.
      now split. }
    destruct (TokenType_eqb (type (current_token p2)) LPAREN);
      [|reflexivity].
    pose proof (consume_agree LPAREN _ _ Hrel) as Hc.
    destruct (consume LPAREN p1) as [q1| |], (consume LPAREN p2) as [q2| |];
      simpl in *; try contradiction; try exact Hc.
    specialize (IHexpr _ _ Hc).
    destruct (expr n q1) as [[a1 r1]| |], (expr n q2) as [[a2 r2]| |];
      simpl in *; try contradiction; try exact IHexpr.
    destruct IHexpr as [-> Hr].
    pose proof (consume_agree RPAREN _ _ Hr) as Hc2.
    destruct (consume RPAREN r1) as [u1| |], (consume RPAREN r2) as [u2| |];
      simpl in *; try contradiction; try exact Hc2.
    now split.
Qed.

Lemma run_parser_agree (line1 line2 : string) :
  agree_token R (getNextToken (Lexer_new line1)) (getNextToken (Lexer_new line2)) ->
  parse_line line1 = parse_line line2.
Proof.
  intros Hfirst. unfold parse_line, run_parser, Parser_new.
  destruct (getNextToken (Lexer_new line1)) as [[t1 l1]| |],
           (getNextToken (Lexer_new line2)) as [[t2 l2]| |];
    simpl in *; try contradiction; try congruence.
  destruct Hfirst as [-> HR].
  set (p1 := mkParser l1 t2). set (p2 := mkParser l2 t2).
  assert (Hrel : related R p1 p2) by (split; [reflexivity | exact HR]).
  rewrite <- (parse_fuel_irrelevant (fuel_for p1 + fuel_for p2) p1) by lia.
  rewrite <- (parse_fuel_irrelevant (fuel_for p1 + fuel_for p2) p2) by lia.
  unfold parse.
  destruct (parser_agree (fuel_for p1 + fuel_for p2) p1 p2 Hrel) as [He _].
  destruct (expr _ p1) as [[a1 q1]| |], (expr _ p2) as [[a2 q2]| |];
    simpl in *; try contradiction; try congruence.
  now destruct He as [-> _].
Qed.

End Bisimulation.

Lemma token_stream_total (n : nat) :
  forall l : Lexer,
    String.length (input l) - pos l < n -> token_stream n l <> None.
Proof.
  induction n as [|n IH]; intros l Hn; [lia|]. simpl.
  pose proof (getNextToken_not_OutOfFuel l) as Hfuel.
  destruct (getNextToken l) as [[t l']| |] eqn:Hnext;
    [|discriminate | congruence].
  apply getNextToken_advances in Hnext as [Hin Hlen].
  destruct (TokenType_eqb (type t) END); [discriminate|].
  specialize (IH l'). rewrite Hin in IH.
  destruct (token_stream n l') as [[ts e]|]; [discriminate|].
  apply IH. lia.
Qed.

Lemma tokens_of_line_total (line : string) : tokens_of_line line <> None.
Proof. apply token_stream_total. simpl. lia. Qed.

(** A stream of tokens is empty only when it ends with an exception. *)
Lemma token_stream_nil (n : nat) (l : Lexer) (e : option exception) :
  token_stream n l = Some ([], e) -> e <> None.
Proof.
  destruct n as [|n]; simpl; [discriminate|].
  destruct (getNextToken l) as [[t l']| |]; try discriminate.
  - destruct (TokenType_eqb (type t) END); [discriminate|].
    destruct (token_stream n l') as [[ts e']|]; discriminate.
  - intros [= <-]. discriminate.
Qed.

Lemma same_stream_bisimulation : lexer_bisimulation same_stream.
Proof.
  intros l1 l2 (n1 & n2 & r & H1 & H2).
  destruct n1 as [|n1]; [discriminate|]. destruct n2 as [|n2]; [discriminate|].
  simpl in H1, H2. unfold agree_token.
  destruct (getNextToken l1) as [[t1 l1']| |] eqn:Hn1;
    destruct (getNextToken l2) as [[t2 l2']| |] eqn:Hn2;
    try discriminate.
  - destruct (TokenType_eqb (type t1) END) eqn:E1;
      destruct (TokenType_eqb (type t2) END) eqn:E2.
    + injection H1 as <-. injection H2 as ->. split; [reflexivity|].
      apply getNextToken_cursor in Hn1 as (Hi1 & _ & _ & Hp1).
      apply getNextToken_cursor in Hn2 as (Hi2 & _ & _ & Hp2).
      rewrite E1 in Hp1. rewrite E1 in Hp2.
      rewrite <- Hi1 in Hp1. rewrite <- Hi2 in Hp2.
      exists 1, 1, ([Token_of END], None). simpl.
      now rewrite (getNextToken_at_end l1' Hp1), (getNextToken_at_end l2' Hp2).
    + injection H1 as <-.
      destruct (token_stream n2 l2') as [[ts e]|] eqn:Hs; try discriminate.
      injection H2 as _ -> ->. now apply token_stream_nil in Hs.
    + injection H2 as <-.
      destruct (token_stream n1 l1') as [[ts e]|] eqn:Hs; try discriminate.
      injection H1 as _ -> ->. now apply token_stream_nil in Hs.
    + destruct (token_stream n1 l1') as [[ts1 e1]|] eqn:Hs1; try discriminate.
      destruct (token_stream n2 l2') as [[ts2 e2]|] eqn:Hs2; try discriminate.
      injection H1 as <-. injection H2 as -> -> ->.
      split; [reflexivity|]. now exists n1, n2, (ts1, e1).
  - destruct (TokenType_eqb (type t1) END).
    + injection H1 as <-. discriminate.
    + destruct (token_stream n1 l1') as [[ts e1]|]; try discriminate.
      injection H1 as <-. discriminate.
  - destruct (TokenType_eqb (type t2) END).
    + injection H2 as <-. discriminate.
    + destruct (token_stream n2 l2') as [[ts e2]|]; try discriminate.
      injection H2 as <-. discriminate.
  - injection H1 as <-. now injection H2 as ->.
Qed.

(** X9. The parser sees a line through its tokens only.  Two lines on which
    the lexer returns the same tokens, up to [END] or up to the same
    exception, are parsed to the same tree or rejected with the same
    exception: the spacing of a line and the spelling of its numbers
    make no difference. *)
Theorem lines_with_the_same_tokens_parse_alike (line1 line2 : string) :
  tokens_of_line line1 = tokens_of_line line2 ->
  parse_line line1 = parse_line line2.
Proof.
  intros H.
  destruct (tokens_of_line line1) as [r|] eqn:H1;
    [|now apply tokens_of_line_total in H1].
  apply (run_parser_agree same_stream same_stream_bisimulation).
  apply same_stream_bisimulation.
  now exists (S (String.length line1)), (S (String.length line2)), r.
Qed.

Lemma lines_with_the_same_tokens_parse_alike_witness :
  tokens_of_line " 1.50 + (2)*3 -" = tokens_of_line "1.5+( 2 ) * 3-" /\
  parse_line " 1.50 + (2)*3 -" = parse_line "1.5+( 2 ) * 3-".
Proof.
  assert (H : tokens_of_line " 1.50 + (2)*3 -" = tokens_of_line "1.5+( 2 ) * 3-")
    by (vm_compute; reflexivity).
  split; [exact H|].
  exact (lines_with_the_same_tokens_parse_alike _ _ H).
Defined.

(** ** White space around a line *)

Lemma all_chars_get (p : ascii -> bool) (x : string) (i : nat) (c : ascii) :
  all_chars p x = true -> String.get i x = Some c -> p c = true.
Proof.
  revert i; induction x as [|y x IH]; intros i; simpl; [discriminate|].
  intros H. apply andb_prop in H as [Hy Hx].
  destruct i as [|i]; [now intros [= <-] | now apply IH].
Qed.

Lemma isspace_not_number_char (c : ascii) :
  isspace c = true -> is_number_char c = false.
Proof.
  destruct c as [[] [] [] [] [] [] [] []]; intros H;
    try reflexivity; discriminate H.
Qed.

(** The loop steps over a whole run of characters that satisfy [p]. *)
Lemma advance_while_through (p : ascii -> bool) (run rest : string) (k : nat) :
  all_chars p run = true ->
  forall pre : string,
    advance_while p (pre ++ run ++ rest) (String.length run + k)
                  (String.length pre)
    = advance_while p (pre ++ run ++ rest) k
                    (String.length pre + String.length run).
Proof.
  intros Hrun. induction run as [|x run IH]; intros pre; simpl.
  - now rewrite Nat.add_0_r.
  - simpl in Hrun. apply andb_prop in Hrun as [Hx Hrun].
    rewrite get_app_length, Hx, app_String_shift.
    replace (S (String.length pre)) with (String.length (pre ++ String x ""))
      by (rewrite length_app; simpl; lia).
    rewrite (IH Hrun), length_app. simpl. f_equal. lia.
Qed.

Lemma parse_line_leading (ws s : string) :
  all_chars isspace ws = true -> parse_line (ws ++ s) = parse_line s.
Proof.
  intros Hws.
  apply (run_parser_agree (shifted ws s) (shifted_bisimulation ws s)).
  assert (Hskip : String.length ws <= skip_whitespace (Lexer_new (ws ++ s))).
  { unfold skip_whitespace, Lexer_new. cbn [input pos].
    rewrite Nat.sub_0_r, length_app.
    pose proof (advance_while_through isspace ws s (String.length s) Hws "")
      as H.
    simpl in H. rewrite H. apply advance_while_ge. }
  rewrite <- (getNextToken_from_white_space (Lexer_new (ws ++ s))
                                            (String.length ws))
    by (simpl; lia).
  apply shifted_bisimulation. exists 0.
  unfold set_pos, Lexer_new. cbn [input pos]. now rewrite Nat.add_0_r.
Qed.

(** When only white space is left, [getNextToken] returns [END] with the
    cursor at or past the end of the input. *)
Lemma getNextToken_all_space (l : Lexer) :
  (forall i c, pos l <= i -> String.get i (input l) = Some c ->
               isspace c = true) ->
  getNextToken l = Return (Token_of END, set_pos l (skip_whitespace l)) /\
  String.length (input l) <= skip_whitespace l.
Proof.
  intros Hall. unfold getNextToken.
  pose proof (skip_whitespace_ge l) as Hge.
  pose proof (advance_while_stops isspace (input l)
                (String.length (input l) - pos l) (pos l) (le_n _)) as Hstop.
  fold (skip_whitespace l) in Hstop.
  unfold set_pos at 1 2. cbv zeta. cbn [input pos].
  destruct (String.get (skip_whitespace l) (input l)) as [c|] eqn:Hget.
  - rewrite (Hall _ _ Hge Hget) in Hstop. discriminate.
  - split; [reflexivity | now apply get_None_iff].
Qed.

Lemma advance_while_number_at_end (s ws : string) :
  all_chars isspace ws = true ->
  advance_while is_number_char (s ++ ws) (String.length ws) (String.length s)
  = String.length s.
Proof.
  intros Hws. destruct ws as [|c ws]; [reflexivity|].
  simpl in Hws. apply andb_prop in Hws as [Hc _].
  apply advance_while_halts with (c := c);
    [apply get_app_length | now apply isspace_not_number_char].
Qed.

Lemma padded_bisimulation (s ws : string) :
  all_chars isspace ws = true -> lexer_bisimulation (padded s ws).
Proof.
  intros Hws l1 l2 (Hi1 & Hi2 & Hpos).
  destruct l1 as [i1 q1], l2 as [i2 q2]. simpl in Hi1, Hi2, Hpos. subst i1 i2.
  destruct Hpos as [[-> Hq]|[H1 H2]].
  - (* the same place in [s] *)
    pose proof (advance_while_le isspace s (String.length s - q2) q2) as Hle.
    pose proof (advance_while_app_left isspace s ws (String.length s - q2) q2
                  eq_refl Hq) as Hskip.
    unfold getNextToken, skip_whitespace. cbn [input pos]. rewrite length_app.
    replace (String.length s + String.length ws - q2)
      with (String.length s - q2 + String.length ws) by lia.
    rewrite Hskip. clear Hskip.
    set (w := advance_while isspace s (String.length s - q2) q2) in *.
    clearbody w.
    destruct (Nat.ltb w (String.length s)) eqn:Hlt.
    + apply Nat.ltb_lt in Hlt.
      unfold set_pos. cbv zeta. cbn [input pos].
      rewrite get_app_lt by exact Hlt.
      destruct (String.get w s) as [c|]; [|simpl; split; [reflexivity|]].
      2:{ split; [reflexivity|]. split; [reflexivity|]. simpl. left. lia. }
      destruct (isdigit c).
      * unfold number, number_end, set_pos. cbn [input pos].
        pose proof (advance_while_le is_number_char s (String.length s - w) w)
          as Hle'.
        pose proof (advance_while_ge is_number_char s (String.length s - w) w)
          as Hge'.
        pose proof (advance_while_app_left is_number_char s ws
                      (String.length s - w) w eq_refl ltac:(lia)) as Hend.
        rewrite length_app.
        replace (String.length s + String.length ws - w)
          with (String.length s - w + String.length ws) by lia.
        rewrite Hend. clear Hend.
        rewrite (advance_while_number_at_end s ws Hws).
        set (e := advance_while is_number_char s (String.length s - w) w) in *.
        clearbody e.
        assert (He : (if Nat.ltb e (String.length s) then e else String.length s)
                     = e).
        { destruct (Nat.ltb e (String.length s)) eqn:E; [reflexivity|].
          apply Nat.ltb_ge in E. lia. }
        rewrite He. rewrite substring_app_prefix by lia.
        destruct (stod (substring w (e - w) s)) as [v| |]; simpl;
          [|reflexivity | exact I].
        split; [reflexivity|]. split; [reflexivity|]. split; [reflexivity|].
        simpl. left. lia.
      * destruct (c =? "+")%char;
          [simpl; split; [reflexivity|];
           split; [reflexivity|]; split; [reflexivity|]; simpl; left; lia|].
        destruct (c =? "*")%char;
          [simpl; split; [reflexivity|];
           split; [reflexivity|]; split; [reflexivity|]; simpl; left; lia|].
        destruct (c =? "(")%char;
          [simpl; split; [reflexivity|];
           split; [reflexivity|]; split; [reflexivity|]; simpl; left; lia|].
        destruct (c =? ")")%char;
          [simpl; split; [reflexivity|];
           split; [reflexivity|]; split; [reflexivity|]; simpl; left; lia|].
        reflexivity.
    + apply Nat.ltb_ge in Hlt. assert (w = String.length s) by lia. subst w.
      pose proof (advance_while_run isspace ws "" Hws I s) as Hrun.
      rewrite string_app_nil_r in Hrun. simpl in Hrun.
      rewrite Nat.add_0_r in Hrun. rewrite Hrun.
      unfold set_pos. cbv zeta. cbn [input pos].
      assert (G1 : String.get (String.length s + String.length ws) (s ++ ws)
                   = None)
        by (apply get_None_iff; rewrite length_app; lia).
      assert (G2 : String.get (String.length s) s = None)
        by (now apply get_None_iff).
      rewrite G1, G2. simpl.
      split; [reflexivity|]. split; [reflexivity|]. split; [reflexivity|].
      simpl. right. lia.
  - (* both past [s] *)
    rewrite (getNextToken_at_end (mkLexer s q2)) by exact H2.
    destruct (getNextToken_all_space (mkLexer (s ++ ws) q1)) as [-> Hend].
    { cbn [input pos]. intros i c Hi. rewrite get_app_ge by lia.
      now apply all_chars_get. }
    pose proof (skip_whitespace_ge (mkLexer (s ++ ws) q1)) as Hge.
    simpl in Hge. simpl.
    split; [reflexivity|]. split; [reflexivity|]. split; [reflexivity|].
    simpl. right. lia.
Qed.

Lemma parse_line_trailing (s ws : string) :
  all_chars isspace ws = true -> parse_line (s ++ ws) = parse_line s.
Proof.
  intros Hws.
  apply (run_parser_agree (padded s ws) (padded_bisimulation s ws Hws)).
  apply padded_bisimulation; [exact Hws|].
  unfold padded, Lexer_new. simpl.
  split; [reflexivity|]. split; [reflexivity|]. left. lia.
Qed.

(** X10. White space at either end of a line makes no difference: a line
    with white space before and after it is parsed to the same tree, or
    rejected with the same exception, as the line alone. *)
Theorem white_space_around_a_line_is_ignored (before line after : string) :
  all_chars isspace before = true ->
  all_chars isspace after = true ->
  parse_line (before ++ line ++ after) = parse_line line.
Proof.
  intros Hb Ha. rewrite (parse_line_leading before (line ++ after) Hb).
  now apply parse_line_trailing.
Qed.

Lemma white_space_around_a_line_is_ignored_witness :
  all_chars isspace "  " = true /\
  all_chars isspace " " = true /\
  parse_line ("  " ++ "(1 + 2" ++ " ") = parse_line "(1 + 2".
Proof.
  assert (H1 : all_chars isspace "  " = true) by reflexivity.
  assert (H2 : all_chars isspace " " = true) by reflexivity.
  split; [exact H1|]. split; [exact H2|].
  exact (white_space_around_a_line_is_ignored "  " "(1 + 2" " " H1 H2).
Defined.

(** ** The order of the operands *)

Lemma Double_add_comm (x y : double) : Double.add x y = Double.add y x.
Proof.
  unfold Double.add, SFadd.
  destruct x as [sx|sx| |sx mx ex], y as [sy|sy| |sy my ey];
    try reflexivity; try (destruct sx, sy; reflexivity).
  now rewrite (Z.min_comm ey ex), Z.add_comm.
Qed.

Lemma Double_mul_comm (x y : double) : Double.mul x y = Double.mul y x.
Proof.
  unfold Double.mul, SFmul.
  destruct x as [sx|sx| |sx mx ex], y as [sy|sy| |sy my ey];
    try reflexivity; try (now rewrite xorb_comm).
  now rewrite Pos.mul_comm, Z.add_comm, xorb_comm.
Qed.

Lemma evaluate_throws (a : ASTNode) (e : exception) :
  evaluate a = Throw e -> e = runtime_error "Unknown operator".
Proof.
  induction a as [v|op l IHl r IHr]; simpl; [discriminate|].
  destruct (TokenType_eqb op PLUS);
    [|destruct (TokenType_eqb op MUL); [|now intros [= <-]]];
    (destruct (evaluate l); simpl; [|intros [= <-]; now apply IHl | discriminate];
     destruct (evaluate r); simpl; [discriminate | intros [= <-]; now apply IHr
                                    | discriminate]).
Qed.

(** X11. The value of a tree does not depend on the order of the operands:
    swapping the operands of every node leaves what [evaluate] returns or
    throws as it was, by the commutativity of the addition and the
    multiplication of doubles.  The grouping does matter:
    [0.1 + 0.2 + 0.3] and [0.1 + (0.2 + 0.3)] have different values. *)
Theorem evaluate_ignores_the_order_of_operands :
  (forall t : ASTNode, evaluate (mirror t) = evaluate t) /\
  (exists t1 t2, parse_line "0.1 + 0.2 + 0.3" = Return t1 /\
                 parse_line "0.1 + (0.2 + 0.3)" = Return t2 /\
                 evaluate t1 <> evaluate t2).
Proof.
  split.
  - induction t as [v|op l IHl r IHr]; simpl; [reflexivity|].
    rewrite IHl, IHr.
    pose proof (evaluate_not_OutOfFuel l) as Hl.
    pose proof (evaluate_not_OutOfFuel r) as Hr.
    destruct (evaluate l) as [x|e1|] eqn:El; [| |congruence];
      (destruct (evaluate r) as [y|e2|] eqn:Er; [| |congruence]); simpl.
    + now rewrite Double_add_comm, Double_mul_comm.
    + now destruct (TokenType_eqb op PLUS), (TokenType_eqb op MUL).
    + now destruct (TokenType_eqb op PLUS), (TokenType_eqb op MUL).
    + apply evaluate_throws in El. apply evaluate_throws in Er. now subst.
  - eexists. eexists. split; [vm_compute; reflexivity|].
    split; [vm_compute; reflexivity|]. vm_compute. discriminate.
Qed.

(** ** The text of a number, of a tree in infix form and of a tree dump *)

Lemma all_chars_string_of_uint (d : Decimal.uint) :
  all_chars isdigit (NilEmpty.string_of_uint d) = true.
Proof. induction d; simpl; auto. Qed.

Lemma all_chars_dec (n : N) : all_chars isdigit (Format.dec n) = true.
Proof.
  unfold Format.dec, NilZero.string_of_uint.
  destruct (N.to_uint n) eqn:E; try reflexivity;
    rewrite <- E; apply all_chars_string_of_uint.
Qed.

Lemma all_chars_substring (p : ascii -> bool) (s : string) :
  all_chars p s = true ->
  forall n m : nat, all_chars p (substring n m s) = true.
Proof.
  induction s as [|x s IH]; intros H n m.
  - now destruct n, m.
  - simpl in H. apply andb_prop in H as [Hx Hs].
    destruct n as [|n]; [destruct m as [|m]|]; simpl;
      [reflexivity | now rewrite Hx, IH | now apply IH].
Qed.

Lemma all_chars_strip_zeros (p : ascii -> bool) (s : string) :
  all_chars p s = true -> all_chars p (Format.strip_zeros s) = true.
Proof.
  induction s as [|x s IH]; simpl; [reflexivity|].
  intros H. apply andb_prop in H as [Hx Hs]. specialize (IH Hs).
  destruct (Format.strip_zeros s);
    [destruct (x =? "0")%char; simpl; [reflexivity | now rewrite Hx]|].
  simpl in *. now rewrite Hx, IH.
Qed.

Lemma all_chars_zeros (n : nat) : all_chars isdigit (Format.zeros n) = true.
Proof. induction n; simpl; auto. Qed.

Lemma isdigit_number_text_char (c : ascii) :
  isdigit c = true -> number_text_char c = true.
Proof. unfold number_text_char. now intros ->. Qed.

Lemma number_text_digits (s : string) :
  all_chars isdigit s = true -> all_chars number_text_char s = true.
Proof. apply all_chars_weaken, isdigit_number_text_char. Qed.

Lemma number_text_with_fraction (ip frac : string) :
  all_chars isdigit ip = true -> all_chars isdigit frac = true ->
  all_chars number_text_char (Format.with_fraction ip frac) = true.
Proof.
  intros Hi Hf. unfold Format.with_fraction.
  pose proof (all_chars_strip_zeros isdigit frac Hf) as Hs.
  destruct (Format.strip_zeros frac) as [|x f]; [now apply number_text_digits|].
  rewrite all_chars_app, (number_text_digits ip Hi).
  change ("." ++ String x f) with (String "." (String x f)).
  change (all_chars number_text_char (String "." (String x f)))
    with (number_text_char "." && all_chars number_text_char (String x f)).
  now rewrite (number_text_digits _ Hs).
Qed.

Lemma number_text_exponent_part (x : Z) :
  all_chars number_text_char (Format.exponent_part x) = true.
Proof.
  unfold Format.exponent_part.
  pose proof (all_chars_dec (Z.to_N (Z.abs x))) as Hd.
  apply number_text_digits in Hd.
  destruct (x <? 0)%Z, (Z.abs x <? 10)%Z; simpl; exact Hd.
Qed.

Lemma number_text_positive_ratio (n q : positive) :
  all_chars number_text_char (Format.positive_ratio n q) = true.
Proof.
  unfold Format.positive_ratio.
  destruct (Format.significand n q) as [r x].
  pose proof (all_chars_dec (Z.to_N r)) as Hd.
  destruct ((x <? -4)%Z || (6 <=? x)%Z).
  - rewrite all_chars_app, number_text_exponent_part, andb_true_r.
    apply number_text_with_fraction; now apply all_chars_substring.
  - destruct (0 <=? x)%Z.
    + apply number_text_with_fraction; now apply all_chars_substring.
    + apply number_text_with_fraction; [reflexivity|].
      now rewrite all_chars_app, all_chars_zeros, Hd.
Qed.

(** A double is written with digits, a point, a sign and the letters of
    [e], [inf] and [nan]: no space, no parenthesis, no end of line. *)
Lemma number_text_to_string (v : double) :
  all_chars number_text_char (Format.to_string v) = true.
Proof.
  destruct v as [s|s| |s m e]; try (destruct s; reflexivity); [reflexivity|].
  unfold Format.to_string. destruct (Double.to_ratio m e) as [n q].
  rewrite all_chars_app, number_text_positive_ratio, andb_true_r.
  now destruct s.
Qed.

Lemma count_char_app (c : ascii) (a b : string) :
  count_char c (a ++ b) = count_char c a + count_char c b.
Proof.
  induction a as [|x a IH]; simpl; [reflexivity|]. rewrite IH. lia.
Qed.

Lemma count_char_absent (p : ascii -> bool) (c : ascii) (s : string) :
  p c = false -> all_chars p s = true -> count_char c s = 0.
Proof.
  intros Hc. induction s as [|x s IH]; simpl; [reflexivity|].
  intros H. apply andb_prop in H as [Hx Hs]. rewrite (IH Hs).
  destruct (x =? c)%char eqn:E; [|reflexivity].
  apply Ascii.eqb_eq in E. congruence.
Qed.

Lemma count_char_to_string (c : ascii) (v : double) :
  number_text_char c = false -> count_char c (Format.to_string v) = 0.
Proof.
  intros Hc. apply (count_char_absent number_text_char); [exact Hc|].
  apply number_text_to_string.
Qed.

Lemma count_char_print_indent (c : ascii) (i : nat) :
  c <> " "%char -> count_char c (print_indent i) = 0.
Proof.
  intros Hc.
  assert (E : (" " =? c)%char = false) by (apply Ascii.eqb_neq; congruence).
  induction i as [|i IH]; [reflexivity|].
  cbn [print_indent]. rewrite count_char_app, IH.
  cbn [count_char]. now rewrite E.
Qed.

(** X12. The infix form is fully parenthesised: [print_infix] writes one
    opening and one closing parenthesis for every binary node, and for a
    tree with no operator other than [PLUS] and [MUL] two spaces for every
    binary node, one on each side of the operator. *)
Theorem print_infix_is_fully_parenthesised (t : ASTNode) :
  count_char "(" (print_infix t) = binary_nodes t /\
  count_char ")" (print_infix t) = binary_nodes t /\
  (only_plus_mul t = true ->
   count_char " " (print_infix t) = 2 * binary_nodes t).
Proof.
  induction t as [v|op l IHl r IHr]; cbn [print_infix binary_nodes].
  - rewrite !count_char_to_string by reflexivity. repeat split.
  - destruct IHl as (Ho1 & Hc1 & Hs1), IHr as (Ho2 & Hc2 & Hs2).
    rewrite !count_char_app, Ho1, Ho2, Hc1, Hc2.
    assert (E1 : count_char "(" "(" = 1) by reflexivity.
    assert (E2 : count_char "(" ")" = 0) by reflexivity.
    assert (E3 : count_char ")" "(" = 0) by reflexivity.
    assert (E4 : count_char ")" ")" = 1) by reflexivity.
    assert (E5 : count_char " " "(" = 0) by reflexivity.
    assert (E6 : count_char " " ")" = 0) by reflexivity.
    rewrite E1, E2, E3, E4, E5, E6.
    split; [|split].
    + destruct (TokenType_eqb op PLUS);
        [|destruct (TokenType_eqb op MUL)];
        match goal with
        | |- context [count_char "(" ?s] =>
            change (count_char "(" s) with 0
        end; lia.
    + destruct (TokenType_eqb op PLUS);
        [|destruct (TokenType_eqb op MUL)];
        match goal with
        | |- context [count_char ")" ?s] =>
            change (count_char ")" s) with 0
        end; lia.
    + cbn [only_plus_mul]. intros H.
      apply andb_prop in H as [H Hr]. apply andb_prop in H as [Hop Hl].
      rewrite (Hs1 Hl), (Hs2 Hr).
      destruct (TokenType_eqb op PLUS);
        [|destruct (TokenType_eqb op MUL); [|discriminate]];
        match goal with
        | |- context [count_char " " (String ?a ?b)] =>
            change (count_char " " (String a b)) with 2
        end; lia.
Qed.

Lemma print_infix_is_fully_parenthesised_witness :
  let t := BinaryOpNode PLUS (NumberNode (Double.of_N 1))
                        (NumberNode (Double.of_N 2)) in
  only_plus_mul t = true /\ count_char " " (print_infix t) = 2 * binary_nodes t.
Proof.
  intros t.
  assert (H : only_plus_mul t = true) by reflexivity.
  split; [exact H|].
  exact (proj2 (proj2 (print_infix_is_fully_parenthesised t)) H).
Defined.

(** X13. The dump has one line for every node, indented by two spaces for
    every level: [print_tree] writes as many ends of line as the tree has
    nodes, and twice as many spaces as the levels of the nodes add up
    to. *)
Theorem print_tree_writes_one_line_per_node (t : ASTNode) (indent : nat) :
  count_char (ascii_of_nat 10) (print_tree t indent) = nodes t /\
  count_char " " (print_tree t indent) = 2 * level_sum t indent.
Proof.
  assert (Hnl : ascii_of_nat 10 <> " "%char) by discriminate.
  assert (Hsp : forall i, count_char " " (print_indent i) = 2 * i).
  { induction i as [|i IH]; [reflexivity|].
    cbn [print_indent]. rewrite count_char_app, IH.
    change (count_char " " "  ") with 2. lia. }
  revert indent; induction t as [v|op l IHl r IHr]; intros indent;
    cbn [print_tree nodes level_sum].
  - unfold newline. rewrite !count_char_app.
    rewrite (count_char_print_indent _ indent Hnl), Hsp.
    rewrite !count_char_to_string by reflexivity.
    split; [reflexivity|].
    change (count_char " " "Number(") with 0.
    change (count_char " " ")") with 0.
    change (count_char " " (String (ascii_of_nat 10) "")) with 0. lia.
  - destruct (IHl (S indent)) as [Hl1 Hl2], (IHr (S indent)) as [Hr1 Hr2].
    unfold newline. rewrite !count_char_app.
    rewrite (count_char_print_indent _ indent Hnl), Hsp, Hl1, Hl2, Hr1, Hr2.
    split.
    + destruct (TokenType_eqb op PLUS); cbn [count_char]; simpl; lia.
    + destruct (TokenType_eqb op PLUS); cbn [count_char]; simpl; lia.
Qed.

(** ** The sign of the numbers *)

Lemma shr_1_nonneg (mrs : shr_record) :
  (0 <= shr_m mrs)%Z -> (0 <= shr_m (shr_1 mrs))%Z.
Proof.
  destruct mrs as [m r s]. simpl.
  destruct m as [|[p|p|]|[p|p|]]; simpl; lia.
Qed.

Lemma iter_pos_shr_1_nonneg (n : positive) :
  forall mrs : shr_record,
    (0 <= shr_m mrs)%Z -> (0 <= shr_m (iter_pos shr_1 n mrs))%Z.
Proof.
  induction n as [n IH|n IH|]; intros mrs H; simpl.
  - apply IH, IH. now apply shr_1_nonneg.
  - now apply IH, IH.
  - now apply shr_1_nonneg.
Qed.

Lemma shr_fexp_nonneg (m e : Z) (l : location) :
  (0 <= m)%Z ->
  (0 <= shr_m (fst (shr_fexp Double.prec Double.emax m e l)))%Z.
Proof.
  intros H. unfold shr_fexp, shr.
  assert (H0 : (0 <= shr_m (shr_record_of_loc m l))%Z)
    by (destruct l as [|[]]; exact H).
  destruct (_ - e)%Z; simpl; [exact H0 | | exact H0].
  now apply iter_pos_shr_1_nonneg.
Qed.

Lemma round_nearest_even_nonneg (m : Z) (l : location) :
  (0 <= m)%Z -> (0 <= round_nearest_even m l)%Z.
Proof.
  intros H. destruct l as [|[]]; simpl; try lia. destruct (Z.even m); lia.
Qed.

(** Rounding a mantissa that is not negative, with the sign of a positive
    number, gives a number that is not negative. *)
Lemma binary_round_aux_not_negative (m e : Z) (l : location) :
  (0 <= m)%Z ->
  match binary_round_aux Double.prec Double.emax false m e l with
  | S754_zero false | S754_finite false _ _ | S754_infinity false => True
  | _ => False
  end.
Proof.
  intros H. unfold binary_round_aux.
  pose proof (shr_fexp_nonneg m e l H) as H1.
  destruct (shr_fexp Double.prec Double.emax m e l) as [mrs' e']. simpl in H1.
  pose proof (shr_fexp_nonneg _ e' loc_Exact
                (round_nearest_even_nonneg _ (loc_of_shr_record mrs') H1)) as H2.
  destruct (shr_fexp Double.prec Double.emax _ e' loc_Exact) as [mrs'' e''].
  simpl in H2.
  destruct (shr_m mrs'') as [|p|p]; [exact I | | lia].
  now destruct (e'' <=? Double.emax - Double.prec)%Z.
Qed.

Lemma of_ratio_not_negative (m d : positive) :
  match Double.of_ratio m d with
  | S754_zero false | S754_finite false _ _ | S754_infinity false => True
  | _ => False
  end.
Proof.
  unfold Double.of_ratio, SFdiv, SFdiv_core_binary.
  match goal with
  | |- context [Z.div_eucl ?a ?b] =>
      assert (Ha : (0 <= a)%Z);
      [|pose proof (Z.div_pos a b Ha ltac:(lia)) as Hq;
        unfold Z.div in Hq; destruct (Z.div_eucl a b) as [q r]]
  end.
  - destruct (_ - _ - _)%Z; [lia | apply Z.shiftl_nonneg; lia | lia].
  - cbn [xorb]. now apply binary_round_aux_not_negative.
Qed.

Lemma stod_finite_nonneg (str : string) (v : double) :
  stod str = Return v -> finite_nonneg v = true.
Proof.
  unfold stod. destruct (stod_literal str) as [ip fp].
  assert (H : forall k n,
             match n with
             | 0%N => Return Double.zero
             | N.pos m =>
                 let r := Double.of_ratio m (power_of_ten k) in
                 match r with
                 | S754_infinity _ => Throw (out_of_range "stod")
                 | _ => if stod_underflows m k r
                        then Throw (out_of_range "stod") else Return r
                 end
             end = Return v -> finite_nonneg v = true).
  { intros k [|m]; [now intros [= <-]|]. cbv zeta.
    pose proof (of_ratio_not_negative m (power_of_ten k)) as Hs.
    destruct (Double.of_ratio m (power_of_ten k)) as [[]|[]| |[] m' e'];
      try contradiction; try discriminate;
      (destruct (stod_underflows _ _ _); [discriminate | now intros [= <-]]). }
  destruct ip, fp; try discriminate; apply H.
Qed.

Lemma getNextToken_value (l l' : Lexer) (t : Token) :
  getNextToken l = Return (t, l') -> finite_nonneg (value t) = true.
Proof.
  unfold getNextToken. cbv zeta.
  destruct (String.get _ _) as [c|]; [|now intros [= <- <-]].
  destruct (isdigit c).
  - unfold number. cbv zeta.
    destruct (stod _) as [v| |] eqn:Hs; simpl; try discriminate.
    intros [= <- <-]. simpl. exact (stod_finite_nonneg _ _ Hs).
  - destruct (c =? "+")%char; [now intros [= <- <-]|].
    destruct (c =? "*")%char; [now intros [= <- <-]|].
    destruct (c =? "(")%char; [now intros [= <- <-]|].
    destruct (c =? ")")%char; [now intros [= <- <-]|].
    discriminate.
Qed.

Lemma consume_value (expected : TokenType) (p p' : Parser) :
  consume expected p = Return p' ->
  finite_nonneg (value (current_token p')) = true.
Proof.
  unfold consume.
  destruct (TokenType_eqb (type (current_token p)) expected); [|discriminate].
  destruct (getNextToken (lexer p)) as [[t l]| |] eqn:Hnext;
    simpl; try discriminate.
  intros [= <-]. simpl. exact (getNextToken_value _ _ _ Hnext).
Qed.

Lemma parser_leaves (n : nat) :
  forall (p p' : Parser) (a : ASTNode),
    finite_nonneg (value (current_token p)) = true ->
    (expr n p = Return (a, p') ->
     leaves_finite_nonneg a = true
     /\ finite_nonneg (value (current_token p')) = true) /\
    (forall node, leaves_finite_nonneg node = true ->
                  expr_loop n node p = Return (a, p') ->
                  leaves_finite_nonneg a = true
                  /\ finite_nonneg (value (current_token p')) = true) /\
    (term n p = Return (a, p') ->
     leaves_finite_nonneg a = true
     /\ finite_nonneg (value (current_token p')) = true) /\
    (forall node, leaves_finite_nonneg node = true ->
                  term_loop n node p = Return (a, p') ->
                  leaves_finite_nonneg a = true
                  /\ finite_nonneg (value (current_token p')) = true) /\
    (factor n p = Return (a, p') ->
     leaves_finite_nonneg a = true
     /\ finite_nonneg (value (current_token p')) = true).
Proof.
  induction n as [|n IH]; intros p p' a Hp.
  { repeat split; simpl; intros; discriminate. }
  assert (IHexpr : forall q q' b,
             finite_nonneg (value (current_token q)) = true ->
             expr n q = Return (b, q') ->
             leaves_finite_nonneg b = true
             /\ finite_nonneg (value (current_token q')) = true)
    by (intros q q' b H; now apply IH).
  assert (IHeloop : forall q q' b node,
             finite_nonneg (value (current_token q)) = true ->
             leaves_finite_nonneg node = true ->
             expr_loop n node q = Return (b, q') ->
             leaves_finite_nonneg b = true
             /\ finite_nonneg (value (current_token q')) = true)
    by (intros q q' b node H; now apply IH).
  assert (IHterm : forall q q' b,
             finite_nonneg (value (current_token q)) = true ->
             term n q = Return (b, q') ->
             leaves_finite_nonneg b = true
             /\ finite_nonneg (value (current_token q')) = true)
    by (intros q q' b H; now apply IH).
  assert (IHtloop : forall q q' b node,
             finite_nonneg (value (current_token q)) = true ->
             leaves_finite_nonneg node = true ->
             term_loop n node q = Return (b, q') ->
             leaves_finite_nonneg b = true
             /\ finite_nonneg (value (current_token q')) = true)
    by (intros q q' b node H; now apply IH).
  assert (IHfactor : forall q q' b,
             finite_nonneg (value (current_token q)) = true ->
             factor n q = Return (b, q') ->
             leaves_finite_nonneg b = true
             /\ finite_nonneg (value (current_token q')) = true)
    by (intros q q' b H; now apply IH).
  clear IH.
  split; [|split; [|split; [|split]]].
  - rewrite expr_S.
    destruct (term n p) as [[node p1]| |] eqn:Ht; simpl; try discriminate.
    apply (IHterm _ _ _ Hp) in Ht as [Hn Hp1]. now apply IHeloop.
  - intros node Hnode. rewrite expr_loop_S.
    destruct (TokenType_eqb (type (current_token p)) PLUS);
      [|now intros [= <- <-]].
    destruct (consume PLUS p) as [p1| |] eqn:Hc; simpl; try discriminate.
    apply consume_value in Hc.
    destruct (term n p1) as [[rhs p2]| |] eqn:Ht; simpl; try discriminate.
    apply (IHterm _ _ _ Hc) in Ht as [Hr Hp2].
    apply IHeloop; [exact Hp2|]. simpl. now rewrite Hnode, Hr.
  - rewrite term_S.
    destruct (factor n p) as [[node p1]| |] eqn:Hf; simpl; try discriminate.
    apply (IHfactor _ _ _ Hp) in Hf as [Hn Hp1]. now apply IHtloop.
  - intros node Hnode. rewrite term_loop_S.
    destruct (TokenType_eqb (type (current_token p)) MUL);
      [|now intros [= <- <-]].
    destruct (consume MUL p) as [p1| |] eqn:Hc; simpl; try discriminate.
    apply consume_value in Hc.
    destruct (factor n p1) as [[rhs p2]| |] eqn:Hf; simpl; try discriminate.
    apply (IHfactor _ _ _ Hc) in Hf as [Hr Hp2].
    apply IHtloop; [exact Hp2|]. simpl. now rewrite Hnode, Hr.
  - rewrite factor_S.
    destruct (TokenType_eqb (type (current_token p)) NUMBER).
    { destruct (consume NUMBER p) as [p1| |] eqn:Hc; simpl; try discriminate.
      apply consume_value in Hc. now intros [= <- <-]. }
    destruct (TokenType_eqb (type (current_token p)) LPAREN);
      [|discriminate].
    destruct (consume LPAREN p) as [p1| |] eqn:Hc; simpl; try discriminate.
    apply consume_value in Hc.
    destruct (expr n p1) as [[node p2]| |] eqn:He; simpl; try discriminate.
    apply (IHexpr _ _ _ Hc) in He as [Hn Hp2].
    destruct (consume RPAREN p2) as [p3| |] eqn:Hc2; simpl; try discriminate.
    apply consume_value in Hc2. now intros [= <- <-].
Qed.

Lemma add_not_negative (x y : double) :
  not_negative x = true -> not_negative y = true ->
  not_negative (Double.add x y) = true.
Proof.
  unfold Double.add, SFadd.
  destruct x as [[]|[]| |[] mx ex], y as [[]|[]| |[] my ey];
    try discriminate; try reflexivity.
  intros _ _. cbn [cond_Zopp fst Z.add binary_normalize].
  unfold binary_round.
  destruct (shl_align _ _ _) as [mz ez].
  pose proof (binary_round_aux_not_negative (Zpos mz) ez loc_Exact
                ltac:(lia)) as H.
  now destruct (binary_round_aux _ _ false (Zpos mz) ez loc_Exact)
    as [[]|[]| |[] m e].
Qed.

Lemma mul_not_negative (x y : double) :
  not_negative x = true -> not_negative y = true ->
  not_negative (Double.mul x y) = true.
Proof.
  unfold Double.mul, SFmul.
  destruct x as [[]|[]| |[] mx ex], y as [[]|[]| |[] my ey];
    try discriminate; try reflexivity.
  intros _ _. cbn [xorb].
  pose proof (binary_round_aux_not_negative (Zpos (mx * my)) (ex + ey)
                loc_Exact ltac:(lia)) as H.
  now destruct (binary_round_aux _ _ false (Zpos (mx * my)) (ex + ey) loc_Exact)
    as [[]|[]| |[] m e].
Qed.

Lemma evaluate_not_negative (a : ASTNode) (v : double) :
  leaves_finite_nonneg a = true -> evaluate a = Return v ->
  not_negative v = true.
Proof.
  revert v; induction a as [x|op l IHl r IHr]; intros v; simpl.
  - intros H [= <-]. now destruct x as [[]|[]| |[] m e].
  - intros H. apply andb_prop in H as [Hl Hr].
    destruct (evaluate l) as [x| |]; destruct (evaluate r) as [y| |];
      destruct (TokenType_eqb op PLUS); simpl; try discriminate;
      try (destruct (TokenType_eqb op MUL); simpl; discriminate).
    + intros [= <-]. apply add_not_negative; auto.
    + destruct (TokenType_eqb op MUL); simpl; [|discriminate].
      intros [= <-]. apply mul_not_negative; auto.
Qed.

(** X14. A line cannot write a negative number, an infinity or a NaN, and
    cannot compute a negative one: every number of the tree of a line is
    finite and not negative, and the value of the tree is not negative.
    The value can still be infinite, or not a number: the product of zero
    and an overflowing product is. *)
Theorem value_of_a_line_is_never_negative :
  (forall (line : string) (ast : ASTNode),
      parse_line line = Return ast ->
      leaves_finite_nonneg ast = true /\
      (forall v, evaluate ast = Return v -> not_negative v = true)) /\
  (exists ast,
      parse_line ("0*(1" ++ Format.zeros 308 ++ "*10)") = Return ast /\
      evaluate ast = Return S754_nan).
Proof.
  split.
  - intros line ast Hp.
    assert (Hl : leaves_finite_nonneg ast = true).
    { unfold parse_line, run_parser, Parser_new in Hp.
      destruct (getNextToken (Lexer_new line)) as [[t l]| |] eqn:Hnext;
        simpl in Hp; try discriminate.
      apply getNextToken_value in Hnext.
      destruct (parse _ _) as [[a p']| |] eqn:Hrun; simpl in Hp;
        try discriminate.
      injection Hp as <-. unfold parse in Hrun.
      destruct (parser_leaves (fuel_for (mkParser l t)) (mkParser l t) p' a
                              Hnext) as [He _].
      now apply He in Hrun. }
    split; [exact Hl|]. intros v. now apply evaluate_not_negative.
  - eexists. split; vm_compute; reflexivity.
Qed.

Lemma value_of_a_line_is_never_negative_witness :
  let ast := BinaryOpNode MUL (NumberNode (Double.of_N 2))
                          (NumberNode (Double.of_N 3)) in
  parse_line "2*3" = Return ast /\
  leaves_finite_nonneg ast = true /\
  (forall v, evaluate ast = Return v -> not_negative v = true).
Proof.
  intros ast.
  assert (H : parse_line "2*3" = Return ast) by (vm_compute; reflexivity).
  split; [exact H|].
  exact (proj1 value_of_a_line_is_never_negative "2*3" ast H).
Defined.

(** ** Number tokens and sessions *)

(** X15. A number token is the longest run of digits and points at the
    cursor: when [getNextToken] returns a [NUMBER], the first character
    after the white space is a digit, every character from there to the new
    cursor is a digit or a point, the character at the new cursor, if any,
    is neither, and the value of the token is what [std::stod] returns for
    that run. *)
Theorem number_token_is_the_longest_run (l l' : Lexer) (t : Token) :
  getNextToken l = Return (t, l') ->
  type t = NUMBER ->
  let start := skip_whitespace l in
  (exists c, String.get start (input l) = Some c /\ isdigit c = true) /\
  start < pos l' /\
  (forall i, start <= i < pos l' ->
             exists c, String.get i (input l) = Some c
                       /\ is_number_char c = true) /\
  match String.get (pos l') (input l) with
  | Some c => is_number_char c = false
  | None => True
  end /\
  stod (substring start (pos l' - start) (input l)) = Return (value t).
Proof.
  intros H Ht start. unfold getNextToken in H. fold start in H.
  unfold set_pos in H. cbv zeta in H. cbn [input pos] in H.
  destruct (String.get start (input l)) as [c|] eqn:Hget;
    [|injection H as <- <-; discriminate].
  destruct (isdigit c) eqn:Hd.
  - unfold number, number_end, set_pos in H. cbn [input pos] in H.
    pose proof (advance_while_stops is_number_char (input l)
                  (String.length (input l) - start) start (le_n _)) as Hstop.
    assert (Hstep : start < advance_while is_number_char (input l)
                              (String.length (input l) - start) start).
    { apply advance_while_step with (c := c); [exact Hget|].
      unfold is_number_char. now rewrite Hd. }
    assert (Hbetween : forall i,
               start <= i < advance_while is_number_char (input l)
                                (String.length (input l) - start) start ->
               exists c, String.get i (input l) = Some c
                         /\ is_number_char c = true)
      by (intros i; apply advance_while_between).
    set (e := advance_while is_number_char (input l)
                            (String.length (input l) - start) start) in *.
    clearbody e.
    destruct (stod (substring start (e - start) (input l))) as [v| |] eqn:Hs;
      simpl in H; try discriminate.
    injection H as <- <-. cbn [pos value].
    split; [now exists c|]. split; [exact Hstep|]. split; [exact Hbetween|].
    split; [exact Hstop | exact Hs].
  - destruct (c =? "+")%char; [injection H as <- <-; discriminate|].
    destruct (c =? "*")%char; [injection H as <- <-; discriminate|].
    destruct (c =? "(")%char; [injection H as <- <-; discriminate|].
    destruct (c =? ")")%char; [injection H as <- <-; discriminate|].
    discriminate.
Qed.

Lemma number_token_is_the_longest_run_witness :
  let l := mkLexer "7 + 12.5)" 3 in
  let l' := mkLexer "7 + 12.5)" 8 in
  let t := mkToken NUMBER (Double.of_ratio 125 10) in
  getNextToken l = Return (t, l') /\
  type t = NUMBER /\
  skip_whitespace l < pos l' /\
  stod (substring (skip_whitespace l) (pos l' - skip_whitespace l) (input l))
  = Return (value t).
Proof.
  intros l l' t.
  assert (H1 : getNextToken l = Return (t, l')) by (vm_compute; reflexivity).
  assert (H2 : type t = NUMBER) by reflexivity.
  split; [exact H1|]. split; [exact H2|].
  pose proof (number_token_is_the_longest_run l l' t H1 H2)
    as (_ & Hlt & _ & _ & Hs).
  split; [exact Hlt | exact Hs].
Defined.

Lemma iteration_frame (line : string) (rest : list string) (out err : string) :
  iteration (mkWorld (line :: rest) out err)
  = Some (mkWorld rest (out ++ fst (answer line)) (err ++ snd (answer line))).
Proof.
  unfold answer, iteration, getline, write_cout, report, write_cerr.
  cbn [cin cout cerr].
  pose proof (parse_total line) as Hp.
  destruct (parse_line line) as [ast|e|]; [| |congruence].
  - pose proof (evaluate_not_OutOfFuel ast) as He.
    destruct (evaluate ast) as [v|e|]; [| |congruence];
      cbn [cin cout cerr fst snd];
      rewrite ?string_app_assoc, ?string_app_nil_r; reflexivity.
  - cbn [cin cout cerr fst snd].
    now rewrite ?string_app_assoc, ?string_app_nil_r.
Qed.

Lemma main_loop_session (lines : list string) :
  forall out err : string,
    main_loop (List.length lines) true (mkWorld lines out err)
    = StillRunning (mkWorld [] (out ++ fst (session lines))
                            (err ++ snd (session lines))).
Proof.
  induction lines as [|line rest IH]; intros out err.
  - simpl. now rewrite !string_app_nil_r.
  - cbn [List.length main_loop session fst snd].
    rewrite iteration_frame, IH. now rewrite !string_app_assoc.
Qed.

(** X16. [main] keeps nothing from one line to the next.  After as many
    iterations as the input has lines, what was written to [std::cout] and
    to [std::cerr] is what each line alone makes [main] write, line after
    line; and the answers to the lines of two inputs put end to end are the
    answers to the first followed by the answers to the second. *)
Theorem main_answers_line_by_line (lines more : list string) :
  main (List.length lines) lines
  = StillRunning (mkWorld [] (fst (session lines)) (snd (session lines))) /\
  session (lines ++ more)
  = (fst (session lines) ++ fst (session more),
     snd (session lines) ++ snd (session more)).
Proof.
  split.
  - unfold main. now rewrite main_loop_session.
  - induction lines as [|line rest IH]; cbn [app session fst snd].
    + now destruct (session more).
    + rewrite IH. cbn [fst snd]. now rewrite !string_app_assoc.
Qed.

(** ** Reading the infix form back *)

Lemma consume_read_token (expected : TokenType) (p : Parser) :
  type (current_token p) = expected ->
  consume expected p = read_token (input (lexer p)) (pos (lexer p)).
Proof.
  intros H. unfold consume, read_token.
  rewrite H, TokenType_eqb_refl. now destruct p as [[i q] c].
Qed.

Lemma skip_whitespace_over (pre ws post : string) :
  all_chars isspace ws = true -> ends_run isspace post ->
  skip_whitespace (mkLexer (pre ++ ws ++ post) (String.length pre))
  = String.length pre + String.length ws.
Proof.
  intros Hws Hpost. unfold skip_whitespace. cbn [input pos].
  rewrite !length_app.
  replace (String.length pre + (String.length ws + String.length post)
           - String.length pre)
    with (String.length ws + String.length post) by lia.
  now apply advance_while_run.
Qed.

Lemma get_after_two (pre ws : string) (c : ascii) (rest : string) :
  String.get (String.length pre + String.length ws)
             (pre ++ ws ++ String c rest) = Some c.
Proof. rewrite get_app_shift. apply get_app_length. Qed.

Lemma read_token_symbol (pre ws : string) (c : ascii) (rest : string)
      (tag : TokenType) :
  all_chars isspace ws = true ->
  (c = "+"%char /\ tag = PLUS) \/ (c = "*"%char /\ tag = MUL)
  \/ (c = "("%char /\ tag = LPAREN) \/ (c = ")"%char /\ tag = RPAREN) ->
  read_token (pre ++ ws ++ String c rest) (String.length pre)
  = Return (mkParser (mkLexer (pre ++ ws ++ String c rest)
                              (S (String.length pre + String.length ws)))
                     (Token_of tag)).
Proof.
  intros Hws Hc.
  assert (Hsp : isspace c = false)
    by (destruct Hc as [[-> _]|[[-> _]|[[-> _]|[-> _]]]]; reflexivity).
  unfold read_token, getNextToken.
  rewrite (skip_whitespace_over pre ws (String c rest) Hws Hsp).
  unfold set_pos. cbv zeta. cbn [input pos]. rewrite get_after_two.
  destruct Hc as [[-> ->]|[[-> ->]|[[-> ->]|[-> ->]]]]; reflexivity.
Qed.

Lemma read_token_number (pre ws : string) (c : ascii) (r rest : string) :
  all_chars isspace ws = true ->
  isdigit c = true ->
  all_chars is_number_char r = true ->
  ends_run is_number_char rest ->
  read_token (pre ++ ws ++ String c r ++ rest) (String.length pre)
  = (v <- stod (String c r) ;;
     Return (mkParser (mkLexer (pre ++ ws ++ String c r ++ rest)
                               (String.length pre + String.length ws
                                + String.length (String c r)))
                      (mkToken NUMBER v))).
Proof.
  intros Hws Hc Hr Hrest.
  set (text := pre ++ ws ++ String c r ++ rest).
  assert (Etext : text = (pre ++ ws) ++ String c r ++ rest)
    by (unfold text; now rewrite string_app_assoc).
  assert (Hskip : skip_whitespace (mkLexer text (String.length pre))
                  = String.length pre + String.length ws).
  { unfold text. apply skip_whitespace_over; [exact Hws|].
    simpl. now apply isdigit_not_isspace. }
  assert (Hget : String.get (String.length pre + String.length ws) text
                 = Some c) by apply get_after_two.
  assert (Hrun : all_chars is_number_char (String c r) = true)
    by (simpl; now rewrite (isdigit_is_number_char c Hc), Hr).
  assert (Hend : advance_while is_number_char text
                   (String.length text
                    - (String.length pre + String.length ws))
                   (String.length pre + String.length ws)
                 = String.length pre + String.length ws
                   + String.length (String c r)).
  { rewrite Etext at 2. rewrite !length_app.
    replace (String.length pre + String.length ws
             + (String.length (String c r) + String.length rest)
             - (String.length pre + String.length ws))
      with (String.length (String c r) + String.length rest) by lia.
    rewrite Etext. rewrite <- (length_app pre ws).
    now apply advance_while_run. }
  assert (Hsub : substring (String.length pre + String.length ws)
                           (String.length pre + String.length ws
                            + String.length (String c r)
                            - (String.length pre + String.length ws)) text
                 = String c r).
  { replace (String.length pre + String.length ws + String.length (String c r)
             - (String.length pre + String.length ws))
      with (String.length (String c r)) by lia.
    rewrite Etext, <- (length_app pre ws). apply substring_app_middle. }
  clearbody text.
  unfold read_token, getNextToken. rewrite Hskip.
  unfold set_pos. cbv zeta. cbn [input pos]. rewrite Hget, Hc.
  unfold number, number_end, set_pos. cbn [input pos].
  rewrite Hend, Hsub.
  now destruct (stod (String c r)).
Qed.

Ltac norm_strings :=
  repeat (cbn [append]; rewrite ?string_app_assoc); reflexivity.

Ltac norm_lengths :=
  repeat (cbn [append String.length]; rewrite ?length_app); lia.

(** The tokens that [factor] reads in the text of a binary node: the
    opening parenthesis at [q0], the left operand from [q1], the operator
    at [q2], the right operand from [q3] and the closing parenthesis at
    [q4]. *)
Lemma binary_text_tokens (l r : ASTNode) (opc : ascii) (tag : TokenType)
      (pre ws rest : string) (n : nat) :
  (forall pre ws rest, all_chars isspace ws = true ->
                       ends_run is_number_char rest ->
                       exists p,
                         read_token (pre ++ ws ++ print_infix l ++ rest)
                                    (String.length pre) = Return p /\
                         factor (S (S n)) p
                         = (p' <- read_token
                                    (pre ++ ws ++ print_infix l ++ rest)
                                    (String.length pre + String.length ws
                                     + String.length (print_infix l)) ;;
                            Return (l, p'))) ->
  (forall pre ws rest, all_chars isspace ws = true ->
                       ends_run is_number_char rest ->
                       exists p,
                         read_token (pre ++ ws ++ print_infix r ++ rest)
                                    (String.length pre) = Return p /\
                         factor (S n) p
                         = (p' <- read_token
                                    (pre ++ ws ++ print_infix r ++ rest)
                                    (String.length pre + String.length ws
                                     + String.length (print_infix r)) ;;
                            Return (r, p'))) ->
  all_chars isspace ws = true ->
  (opc = "+"%char /\ tag = PLUS) \/ (opc = "*"%char /\ tag = MUL) ->
  let text := "(" ++ print_infix l ++ String " " (String opc " ")
              ++ print_infix r ++ ")" in
  let s := pre ++ ws ++ text ++ rest in
  exists (q1 q2 q3 q4 : nat) (p1 p3 : Parser),
    read_token s (String.length pre)
    = Return (mkParser (mkLexer s q1) (Token_of LPAREN)) /\
    read_token s q1 = Return p1 /\
    factor (S (S n)) p1 = (p' <- read_token s q2 ;; Return (l, p')) /\
    read_token s q2 = Return (mkParser (mkLexer s q3) (Token_of tag)) /\
    read_token s q3 = Return p3 /\
    factor (S n) p3 = (p' <- read_token s q4 ;; Return (r, p')) /\
    read_token s q4
    = Return (mkParser (mkLexer s (S q4)) (Token_of RPAREN)) /\
    String.length pre + String.length ws + String.length text = S q4.
Proof.
  intros IHl IHr Hws Hop text s.
  set (pl := print_infix l) in *. set (pr := print_infix r) in *.
  set (q1 := S (String.length pre + String.length ws)).
  set (q2 := q1 + String.length pl).
  set (q3 := q2 + 2).
  set (q4 := q3 + 1 + String.length pr).
  assert (Hsym : (opc = "+"%char /\ tag = PLUS) \/ (opc = "*"%char /\ tag = MUL)
                 \/ (opc = "("%char /\ tag = LPAREN)
                 \/ (opc = ")"%char /\ tag = RPAREN))
    by (destruct Hop as [H|H]; auto).
  assert (P0 : read_token s (String.length pre)
               = Return (mkParser (mkLexer s q1) (Token_of LPAREN))).
  { pose proof (read_token_symbol pre ws "("
                  (pl ++ String " " (String opc " ") ++ pr ++ ")" ++ rest)
                  LPAREN Hws ltac:(auto)) as H.
    replace (pre ++ ws
             ++ String "(" (pl ++ String " " (String opc " ") ++ pr
                               ++ ")" ++ rest))
      with s in H by (unfold s, text; norm_strings).
    exact H. }
  destruct (IHl (pre ++ ws ++ "(") ""
                (String " " (String opc " ") ++ pr ++ ")" ++ rest)
                eq_refl eq_refl) as (p1 & R1 & F1).
  fold pl in R1, F1.
  replace ((pre ++ ws ++ "(") ++ "" ++ pl
           ++ String " " (String opc " ") ++ pr ++ ")" ++ rest)
    with s in R1, F1 by (unfold s, text; norm_strings).
  replace (String.length (pre ++ ws ++ "(")) with q1 in R1, F1
    by (unfold q1; norm_lengths).
  replace (q1 + String.length "" + String.length pl) with q2 in F1
    by (unfold q2; simpl; lia).
  assert (P2 : read_token s q2
               = Return (mkParser (mkLexer s q3) (Token_of tag))).
  { pose proof (read_token_symbol ((pre ++ ws ++ "(") ++ pl) " " opc
                  (" " ++ pr ++ ")" ++ rest) tag eq_refl Hsym) as H.
    replace (((pre ++ ws ++ "(") ++ pl) ++ " "
             ++ String opc (" " ++ pr ++ ")" ++ rest))
      with s in H by (unfold s, text; norm_strings).
    replace (String.length ((pre ++ ws ++ "(") ++ pl)) with q2 in H
      by (unfold q2, q1; norm_lengths).
    replace (S (q2 + String.length " ")) with q3 in H
      by (unfold q3; simpl; lia).
    exact H. }
  destruct (IHr (((pre ++ ws ++ "(") ++ pl) ++ String " " (String opc "")) " "
                (")" ++ rest) eq_refl eq_refl) as (p3 & R3 & F3).
  fold pr in R3, F3.
  replace ((((pre ++ ws ++ "(") ++ pl) ++ String " " (String opc ""))
           ++ " " ++ pr ++ ")" ++ rest)
    with s in R3, F3 by (unfold s, text; norm_strings).
  replace (String.length
             (((pre ++ ws ++ "(") ++ pl) ++ String " " (String opc "")))
    with q3 in R3, F3 by (unfold q3, q2, q1; norm_lengths).
  replace (q3 + String.length " " + String.length pr) with q4 in F3
    by (unfold q4; simpl; lia).
  assert (P4 : read_token s q4
               = Return (mkParser (mkLexer s (S q4)) (Token_of RPAREN))).
  { pose proof (read_token_symbol
                  ((((pre ++ ws ++ "(") ++ pl) ++ String " " (String opc ""))
                   ++ " " ++ pr)
                  "" ")" rest RPAREN eq_refl ltac:(auto)) as H.
    replace (((((pre ++ ws ++ "(") ++ pl) ++ String " " (String opc ""))
              ++ " " ++ pr) ++ "" ++ String ")" rest)
      with s in H by (unfold s, text; norm_strings).
    replace (String.length
               ((((pre ++ ws ++ "(") ++ pl) ++ String " " (String opc ""))
                ++ " " ++ pr))
      with q4 in H by (unfold q4, q3, q2, q1; norm_lengths).
    replace (q4 + String.length "") with q4 in H by (simpl; lia).
    exact H. }
  exists q1, q2, q3, q4, p1, p3.
  repeat (split; [assumption|]).
  unfold text, q4, q3, q2, q1. norm_lengths.
Qed.

Lemma factor_reads_infix (t : ASTNode) :
  prints_plainly t ->
  forall (pre ws rest : string) (n : nat),
    all_chars isspace ws = true ->
    ends_run is_number_char rest ->
    5 * height t + 1 <= n ->
    exists p,
      read_token (pre ++ ws ++ print_infix t ++ rest) (String.length pre)
      = Return p /\
      factor n p
      = (p' <- read_token (pre ++ ws ++ print_infix t ++ rest)
                          (String.length pre + String.length ws
                           + String.length (print_infix t)) ;;
         Return (t, p')).
Proof.
  induction t as [v|op l IHl r IHr]; intros Hp pre ws rest n Hws Hrest Hn.
  - destruct Hp as (c & x & Ets & Hc & Hx & Hs).
    cbn [print_infix]. rewrite Ets.
    rewrite (read_token_number pre ws c x rest Hws Hc Hx Hrest), Hs.
    eexists. split; [reflexivity|].
    destruct n as [|n]; [lia|]. rewrite factor_S. cbn [current_token type].
    cbn [TokenType_eqb].
    now rewrite (consume_read_token NUMBER) by reflexivity.
  - destruct Hp as (Hop & Hl & Hr).
    cbn [height] in Hn.
    destruct n as [|[|[|[|[|n]]]]]; try lia.
    assert (Hfl : 5 * height l + 1 <= S (S n)) by lia.
    assert (Hfr : 5 * height r + 1 <= S n) by lia.
    assert (IHl' := fun pre ws rest Hws Hrest =>
                      IHl Hl pre ws rest (S (S n)) Hws Hrest Hfl).
    assert (IHr' := fun pre ws rest Hws Hrest =>
                      IHr Hr pre ws rest (S n) Hws Hrest Hfr).
    clear IHl IHr.
    destruct Hop as [-> | ->]; cbn [print_infix TokenType_eqb].
    + destruct (binary_text_tokens l r "+" PLUS pre ws rest n IHl' IHr' Hws
                                   ltac:(auto))
        as (q1 & q2 & q3 & q4 & p1 & p3
            & P0 & R1 & F1 & P2 & R3 & F3 & P4 & Hlen).
      cbv zeta in P0, R1, F1, P2, R3, F3, P4, Hlen.
      change (" + " ++ print_infix r ++ ")")
        with (String " " (String "+" " ") ++ print_infix r ++ ")").
      rewrite Hlen.
      set (s := pre ++ ws ++ _ ++ rest) in *. clearbody s.
      eexists. split; [exact P0|].
      rewrite factor_S. cbn [current_token type Token_of TokenType_eqb].
      rewrite (consume_read_token LPAREN) by reflexivity.
      cbn [lexer input pos]. rewrite R1. cbn [bind].
      rewrite expr_S, term_S, F1, P2. cbn [bind].
      rewrite term_loop_S. cbn [current_token type Token_of TokenType_eqb bind].
      rewrite expr_loop_S. cbn [current_token type Token_of TokenType_eqb].
      rewrite (consume_read_token PLUS) by reflexivity.
      cbn [lexer input pos]. rewrite R3. cbn [bind].
      rewrite term_S, F3, P4. cbn [bind].
      rewrite term_loop_S. cbn [current_token type Token_of TokenType_eqb bind].
      rewrite expr_loop_S. cbn [current_token type Token_of TokenType_eqb bind].
      rewrite (consume_read_token RPAREN) by reflexivity.
      cbn [lexer input pos]. reflexivity.
    + destruct (binary_text_tokens l r "*" MUL pre ws rest n IHl' IHr' Hws
                                   ltac:(auto))
        as (q1 & q2 & q3 & q4 & p1 & p3
            & P0 & R1 & F1 & P2 & R3 & F3 & P4 & Hlen).
      cbv zeta in P0, R1, F1, P2, R3, F3, P4, Hlen.
      change (" * " ++ print_infix r ++ ")")
        with (String " " (String "*" " ") ++ print_infix r ++ ")").
      rewrite Hlen.
      set (s := pre ++ ws ++ _ ++ rest) in *. clearbody s.
      eexists. split; [exact P0|].
      rewrite factor_S. cbn [current_token type Token_of TokenType_eqb].
      rewrite (consume_read_token LPAREN) by reflexivity.
      cbn [lexer input pos]. rewrite R1. cbn [bind].
      rewrite expr_S, term_S, F1, P2. cbn [bind].
      rewrite term_loop_S. cbn [current_token type Token_of TokenType_eqb].
      rewrite (consume_read_token MUL) by reflexivity.
      cbn [lexer input pos]. rewrite R3. cbn [bind].
      rewrite F3, P4. cbn [bind].
      rewrite term_loop_S. cbn [current_token type Token_of TokenType_eqb bind].
      rewrite expr_loop_S. cbn [current_token type Token_of TokenType_eqb bind].
      rewrite (consume_read_token RPAREN) by reflexivity.
      cbn [lexer input pos]. reflexivity.
Qed.

(** X17. The infix form can be read back.  For a tree of [PLUS] and [MUL]
    nodes whose numbers are written as plain decimals that [std::stod]
    converts back to them, parsing what [print_infix] writes returns the
    tree itself.  A number that is written with an exponent breaks this:
    the infix form of one million is [1e+06], which the lexer rejects. *)
Theorem infix_form_reads_back :
  (forall t : ASTNode,
      prints_plainly t -> parse_line (print_infix t) = Return t) /\
  parse_line (print_infix (NumberNode (Double.of_N 1000000)))
  = Throw (runtime_error "Invalid character in input").
Proof.
  split; [|vm_compute; reflexivity].
  intros t Hp.
  destruct (factor_reads_infix t Hp "" "" "" (S (5 * height t)) eq_refl I
                               ltac:(lia)) as (p & R & F).
  cbn [append String.length Nat.add] in R, F.
  rewrite string_app_nil_r in R, F.
  assert (Hend : read_token (print_infix t) (String.length (print_infix t))
                 = Return (mkParser (mkLexer (print_infix t)
                                             (String.length (print_infix t)))
                                    (Token_of END))).
  { unfold read_token. now rewrite getNextToken_at_end by (simpl; lia). }
  rewrite Hend in F. cbn [bind] in F.
  assert (Hparse : parse (S (S (S (5 * height t)))) p
                   = Return (t, mkParser (mkLexer (print_infix t)
                                            (String.length (print_infix t)))
                                         (Token_of END))).
  { unfold parse. rewrite expr_S, term_S, F. cbn [bind].
    rewrite term_loop_S. cbn [current_token type Token_of TokenType_eqb bind].
    rewrite expr_loop_S. now cbn [current_token type Token_of TokenType_eqb]. }
  unfold parse_line, run_parser.
  change (Parser_new (Lexer_new (print_infix t)))
    with (read_token (print_infix t) 0).
  rewrite R. cbn [bind].
  now rewrite (parse_with_fuel_for _ _ _ _ Hparse).
Qed.

Lemma infix_form_reads_back_witness :
  let num n := NumberNode (Double.of_N n) in
  let t := BinaryOpNode PLUS (num 2%N) (BinaryOpNode MUL (num 3%N) (num 4%N)) in
  prints_plainly t /\
  print_infix t = "(2 + (3 * 4))" /\
  parse_line (print_infix t) = Return t.
Proof.
  intros num t.
  assert (H : prints_plainly t).
  { repeat split; auto.
    - exists "2"%char, ""%string. repeat split; vm_compute; reflexivity.
    - exists "3"%char, ""%string. repeat split; vm_compute; reflexivity.
    - exists "4"%char, ""%string. repeat split; vm_compute; reflexivity. }
  split; [exact H|]. split; [vm_compute; reflexivity|].
  exact (proj1 infix_form_reads_back t H).
Defined.
